(** * TurtleTanks: the match engine of [src/lib/TurtleTanks/Game.ts]

    A shallow embedding of the [Game] class: the rosters of living and
    eliminated players, the tile map's occupancy, the rule set, the event
    log and the tick timer, together with [join], [moveToCoord],
    [canAttack], [doAttack], [checkForEndOfGame], [chooseTeam] and
    [handleGameTick].

    JavaScript numbers that hold health, points, coordinates and delays
    are integers here ([Z]); a [Map<string, Player>] is a [gmap]; a
    function that can throw returns a [completion]. Every call runs to
    its end before the next one starts, and each takes the match and returns
    the match it leaves behind. Random draws and what is read from the
    database are arguments of the calls. The canvas, the avatars, the
    timestamps and the rows written to the database are left out. *)

From Stdlib Require Import ZArith Lia.
From stdpp Require Import base option list strings pretty gmap.

Open Scope string_scope.
Open Scope list_scope.
Open Scope Z_scope.

(** ** Values shared by the engine *)

(** [Coordinate]: the [{x, y}] pair of [Types.ts]. *)
Definition Coordinate : Type := Z * Z.

Definition coord_x (c : Coordinate) : Z := fst c.
Definition coord_y (c : Coordinate) : Z := snd c.

Module Team.
(** [Team]: a team object. The engine reads [name] and [body], and
    [chooseTeam] uses teams as the keys of a [Map], which compares objects
    and not their fields. [ref] is the identity of the object. The engine
    never writes to a team, so one object always shows the same [name] and
    [body], and two records are equal exactly when they stand for the same
    object; two objects with the same [name] and [body] differ in [ref]. *)
Record t : Type := mk { ref : nat; name : string; body : option string }.
End Team.

#[global] Instance Team_eq_dec : EqDecision Team.t.
Proof. solve_decision. Defined.

Module Weapon.
(** [Weapon]: immutable stat bundle (damage, radius, range, name). *)
Record t : Type := mk { name : string; damage : Z; radius : Z; range : Z }.
End Weapon.

(** [PerkType]: the engine only ever tests for [PerkType.Kamikaze]. *)
Inductive PerkType : Type := Kamikaze | OtherPerk.

#[global] Instance PerkType_eq_dec : EqDecision PerkType.
Proof. solve_decision. Defined.

Inductive ShotResult : Type := Hit | Miss.

#[global] Instance ShotResult_eq_dec : EqDecision ShotResult.
Proof. solve_decision. Defined.

(** The fields of [Player] that the engine reads or writes; the avatar and
    the canvas objects are presentation only. *)
Record Player : Type := mkPlayer {
  userId : string;
  points : Z;
  hp : Z;
  pointsPerMove : Z;
  pointsPerShot : Z;
  pointsPerTick : Z;
  pointsPerKill : Z;
  coords : Coordinate;
  team : option Team.t;
  weapon : Weapon.t;
  perk : option PerkType
}.

Definition withPoints (v : Z) (p : Player) : Player :=
  mkPlayer (userId p) v (hp p) (pointsPerMove p) (pointsPerShot p)
           (pointsPerTick p) (pointsPerKill p) (coords p) (team p)
           (weapon p) (perk p).

Definition withHp (v : Z) (p : Player) : Player :=
  mkPlayer (userId p) (points p) v (pointsPerMove p) (pointsPerShot p)
           (pointsPerTick p) (pointsPerKill p) (coords p) (team p)
           (weapon p) (perk p).

Definition withCoords (c : Coordinate) (p : Player) : Player :=
  mkPlayer (userId p) (points p) (hp p) (pointsPerMove p) (pointsPerShot p)
           (pointsPerTick p) (pointsPerKill p) c (team p)
           (weapon p) (perk p).

(** A tile of the map. A tile object is referred to by the coordinate it
    is stored under (its [coords] field in the source). *)
Record MapTile : Type := mkTile {
  sparse : bool;
  occupied : option string
}.

Definition withOccupied (o : option string) (t : MapTile) : MapTile :=
  mkTile (sparse t) o.

(** [MapManager]: the tiles, by coordinate. *)
Abbreviation MapManager := (gmap Coordinate MapTile).

Record MapSpecification : Type := mkMapSpec { height : nat; width : nat }.

Module MoveCost.
(** The success value of [canMoveTo]. *)
Record t : Type := mk { pointsRequired : Z; tilesTraversed : Z }.
End MoveCost.

Record LogMessage : Type := mkLog {
  message : string;
  actionInitiator : string
}.

(** [GameRules], every field decided. *)
Record GameRules : Type := mkRules {
  teams : option (list Team.t);
  millisecondsPerTick : Z;
  defaultStartingHp : Z;
  defaultStartingPoints : Z;
  defaultPointsPerMove : Z;
  defaultPointsPerShot : Z;
  defaultPointsPerTick : Z;
  defaultPointsPerKill : Z
}.

Module Partial.
(** [Partial<GameRules>]: a field left out is [None]. *)
Record GameRules : Type := mk {
  teams : option (list Team.t);
  millisecondsPerTick : option Z;
  defaultStartingHp : option Z;
  defaultStartingPoints : option Z;
  defaultPointsPerMove : option Z;
  defaultPointsPerShot : option Z;
  defaultPointsPerTick : option Z;
  defaultPointsPerKill : option Z
}.

(** [{}], the default of the constructor's [rules] argument. *)
Definition empty : GameRules :=
  mk None None None None None None None None.
End Partial.

(** What a call that may throw produces. *)
Inductive completion (A : Type) : Type :=
| Returns (a : A)
| Throws (error : string).
Arguments Returns {A} a.
Arguments Throws {A} error.

(** ** Constants and collaborators that live outside [Game.ts] *)

(** [Constants.ts] and [Weapons.ts] are not part of the sources at hand: the
    engine is parametric in the values it imports from them. *)
Class Constants : Type := {
  DEFAULT_MAP_HEIGHT : nat;
  DEFAULT_MAP_WIDTH : nat;
  DEFAULT_STARTING_HP : Z;
  DEFAULT_STARTING_POINTS : Z;
  POINTS_PER_MOVE : Z;
  POINTS_PER_SHOT : Z;
  POINTS_PER_KILL : Z;
  POINTS_PER_TICK : Z;
  MILLISECONDS_PER_TICK : Z;
  SmallMissile : Weapon.t
}.

(** Modelled from the spec: the capabilities that [Game.ts] calls into and
    whose code is missing ([Map.ts], [Utilities.ts]); section 6 of the
    specification lists them with these signatures. The engine is
    parametric in them. The random draw of [getUnoccupiedSquare] is its
    [nat] argument. *)
Class Collaborators : Type := {
  newMapManager : MapSpecification → MapManager;
  getUnoccupiedSquare : MapManager → nat → option Coordinate;
  canMoveTo : MapManager → Coordinate → Player → string + MoveCost.t;
  distanceBetweenStraightLine : MapManager → Coordinate → Coordinate → Z;
  getTilesInRadius : MapManager → Coordinate → Z → bool → list Coordinate;
  getUsername : string → string;
  formatCoordinate : Coordinate → string;
  tickLogEntry : Player → LogMessage
}.

(** Modelled from the spec: [tryGetTile(coord) → Tile?], the tile stored at a
    coordinate whether or not somebody stands on it ([getPlayerAtLocation]
    reads [occupied] from its result). *)
Definition tryGetTile (m : MapManager) (c : Coordinate) : option MapTile :=
  m !! c.

(** Modelled from the spec: [getTile(coord) → Tile] "assumes existence"; the
    assignment [getTile(c).occupied = o] of the source throws on a
    coordinate without tile. *)
Definition setOccupied (c : Coordinate) (o : option string) (m : MapManager)
  : completion MapManager :=
  match m !! c with
  | Some t => Returns (<[c := withOccupied o t]> m)
  | None => Throws "TypeError"
  end.

(** ** The match *)

Record Game : Type := mkGame {
  map : MapManager;
  players : gmap string Player;
  deadPlayers : gmap string Player;
  rules : GameRules;
  log : list LogMessage;
  timer : option Z;
  ended : bool;
  tickLoopLaunched : bool
}.

Definition withMap (m : MapManager) (g : Game) : Game :=
  mkGame m (players g) (deadPlayers g) (rules g) (log g) (timer g)
         (ended g) (tickLoopLaunched g).

Definition withPlayers (ps : gmap string Player) (g : Game) : Game :=
  mkGame (map g) ps (deadPlayers g) (rules g) (log g) (timer g)
         (ended g) (tickLoopLaunched g).

Definition withDeadPlayers (ps : gmap string Player) (g : Game) : Game :=
  mkGame (map g) (players g) ps (rules g) (log g) (timer g)
         (ended g) (tickLoopLaunched g).

Definition withLog (l : list LogMessage) (g : Game) : Game :=
  mkGame (map g) (players g) (deadPlayers g) (rules g) l (timer g)
         (ended g) (tickLoopLaunched g).

Definition withTimer (t : option Z) (g : Game) : Game :=
  mkGame (map g) (players g) (deadPlayers g) (rules g) (log g) t
         (ended g) (tickLoopLaunched g).

Definition withEnded (b : bool) (g : Game) : Game :=
  mkGame (map g) (players g) (deadPlayers g) (rules g) (log g) (timer g)
         b (tickLoopLaunched g).

Definition withTickLoopLaunched (b : bool) (g : Game) : Game :=
  mkGame (map g) (players g) (deadPlayers g) (rules g) (log g) (timer g)
         (ended g) b.

Definition pushLog (msg initiator : string) (g : Game) : Game :=
  withLog (log g ++ [mkLog msg initiator]) g.

(** [x || d] on an optional number: [undefined] and [0] are falsy. *)
Definition orDefault (x : option Z) (d : Z) : Z :=
  match x with
  | Some v => if decide (v = 0) then d else v
  | None => d
  end.

(** One entry of [affectedPlayers]; [player] is the reference to the player
    object. *)
Record PlayerShotEffect : Type := mkPlayerShotEffect {
  player : string;
  oldHP : Z;
  newHP : Z;
  damageTaken : Z
}.

(** The success value of [canAttack]. *)
Record ShotEffect : Type := mkShotEffect {
  affectedTiles : list Coordinate;
  affectedPlayers : list PlayerShotEffect;
  killedPlayers : list string;
  pointsRequired : Z;
  totalDamage : Z
}.

Module ShotOutcome.
(** The success value of [doAttack]: the shot's effect, whether it hit,
    whether the match ended, and the winners ([None] is [undefined]). *)
Record t : Type := mk {
  effect : ShotEffect;
  shotResult : ShotResult;
  ended : bool;
  winners : option (list string)
}.
End ShotOutcome.

Section Engine.
Context {constants : Constants} {collaborators : Collaborators}.

(** The guard of the constructor on [rules.teams]. *)
Definition checkTeams (r : Partial.GameRules) : completion unit :=
  match Partial.teams r with
  | Some ts =>
      if decide (length ts < 2)%nat
      then Throws "Must provide at least two teams!"
      else Returns tt
  | None => Returns tt
  end.

(** The constructor. The [timer] field of a match records the delay of
    the pending [setTimeout], if one is pending. *)
Definition newGame (mapSpec : option MapSpecification)
    (r : Partial.GameRules) : completion Game :=
  match checkTeams r with
  | Throws e => Throws e
  | Returns _ =>
      let gameRules :=
        mkRules (Partial.teams r)
          (orDefault (Partial.millisecondsPerTick r) MILLISECONDS_PER_TICK)
          (orDefault (Partial.defaultStartingHp r) DEFAULT_STARTING_HP)
          (orDefault (Partial.defaultStartingPoints r) DEFAULT_STARTING_POINTS)
          (orDefault (Partial.defaultPointsPerMove r) POINTS_PER_MOVE)
          (orDefault (Partial.defaultPointsPerShot r) POINTS_PER_SHOT)
          (orDefault (Partial.defaultPointsPerTick r) POINTS_PER_TICK)
          (orDefault (Partial.defaultPointsPerKill r) POINTS_PER_KILL) in
      let m :=
        match mapSpec with
        | Some s => newMapManager s
        | None => newMapManager (mkMapSpec DEFAULT_MAP_HEIGHT DEFAULT_MAP_WIDTH)
        end in
      Returns (mkGame m ∅ ∅ gameRules [] None false false)
  end.

(** *** Player methods

    [Player.ts] is not part of the sources at hand. A [Player] object is
    referred to by its [userId]: the rosters only ever store a player under
    its own [userId] ([join], [killPlayer]). *)

(** Modelled from the spec: [Player.dead]; "Health: non-negative integer;
    reaching zero marks the combatant eliminated". *)
Definition dead (p : Player) : bool := bool_decide (hp p = 0).

(** Modelled from the spec: [Player.receiveDamage]; "each affected occupant's
    health is reduced", never below zero. The new health is its result. *)
Definition receiveDamage (damageTaken : Z) (p : Player) : Player :=
  withHp (Z.max (hp p - damageTaken) 0) p.

(** Modelled from the spec: [Player.attack]; the shot costs the per-shot
    points whether it hits or not, kamikaze mode always hits, otherwise
    the probabilistic check decides ([roll] is its outcome), and on a hit
    "a kill reward is credited to the attacker's points for each such
    elimination". *)
Definition Player_attack (roll : bool) (killed : list string)
    (isKamikaze : bool) (p : Player) : Player * ShotResult :=
  let paid := withPoints (points p - pointsPerShot p) p in
  if isKamikaze || roll
  then (withPoints (points paid + pointsPerKill p * Z.of_nat (length killed)) paid,
        Hit)
  else (paid, Miss).

(** Modelled from the spec: [Player.handleGameTick]; "grant the configured
    per-tick point income". *)
Definition Player_handleGameTick (p : Player) : Player :=
  withPoints (points p + pointsPerTick p) p.

(** *** Rosters *)

Definition killPlayer (p : Player) (g : Game) : Game :=
  withPlayers (delete (userId p) (players g))
    (withDeadPlayers (<[userId p := p]> (deadPlayers g)) g).

(** The player object behind a reference, in whichever roster holds it. *)
Definition playerObject (g : Game) (ref : string) : option Player :=
  match players g !! ref with
  | Some p => Some p
  | None => deadPlayers g !! ref
  end.

(** A method call that mutates the player object behind a reference. *)
Definition mutatePlayer (ref : string) (f : Player → Player) (g : Game) : Game :=
  match players g !! ref with
  | Some p => withPlayers (<[ref := f p]> (players g)) g
  | None => withDeadPlayers (alter f ref (deadPlayers g)) g
  end.

(** The living roster in iteration order. *)
Definition livingList (g : Game) : list Player :=
  (map_to_list (players g)).*2.

(** *** Tick *)

Definition handleGameTick (g : Game) : Game :=
  let entries := tickLogEntry <$> livingList g in
  let g1 := withPlayers (Player_handleGameTick <$> players g) g in
  let g2 := withLog (log g1 ++ entries) g1 in
  withTimer (Some MILLISECONDS_PER_TICK) g2.

(** [cleanup]: [clearTimeout] on the pending timer. *)
Definition cleanup (g : Game) : Game := withTimer None g.

(** *** Team choice *)

(** [Map.set] on a [Map] kept in insertion order. *)
Fixpoint mapSet {K V : Type} `{EqDecision K} (k : K) (v : V)
    (m : list (K * V)) : list (K * V) :=
  match m with
  | [] => [(k, v)]
  | (k', v') :: rest =>
      if decide (k' = k) then (k, v) :: rest else (k', v') :: mapSet k v rest
  end.

Fixpoint mapGet {K V : Type} `{EqDecision K} (k : K)
    (m : list (K * V)) : option V :=
  match m with
  | [] => None
  | (k', v') :: rest => if decide (k' = k) then Some v' else mapGet k rest
  end.

Definition MAX_SAFE_INTEGER : Z := 9007199254740991.

(** The second loop of [chooseTeam]. A count is [None] when the source
    computes [undefined + 1], that is [NaN]. The source keys the counts by
    team object: the keys are team records, their identity [Team.ref]
    included, so two configured teams of the same name and body have a
    count each, and a team listed twice has one. *)
Definition countPlayer (counts : list (Team.t * option Z)) (p : Player)
  : list (Team.t * option Z) :=
  match team p with
  | Some t =>
      let n :=
        match mapGet t counts with
        | Some (Some k) => Some (k + 1)
        | _ => None
        end in
      mapSet t n counts
  | None => counts
  end.

(** The last loop of [chooseTeam]: [count <= minimumAmount] is false on
    [NaN]. *)
Definition pickMinimum (acc : option Team.t * Z) (entry : Team.t * option Z)
  : option Team.t * Z :=
  match snd entry with
  | Some count =>
      if decide (count ≤ snd acc) then (Some (fst entry), count) else acc
  | None => acc
  end.

Definition teamUserCount (ts : list Team.t) (ps : list Player)
  : list (Team.t * option Z) :=
  foldl countPlayer (foldl (λ m t, mapSet t (Some 0) m) [] ts) ps.

(** [chooseTeam]; [Returns None] is the [undefined] that the final cast
    lets through. *)
Definition chooseTeam (g : Game) : completion (option Team.t) :=
  match teams (rules g) with
  | None => Throws "Cannot chose team, no teams given!"
  | Some ts =>
      Returns (fst (foldl pickMinimum (None, MAX_SAFE_INTEGER)
                          (teamUserCount ts (livingList g))))
  end.

(** The loop of [join] over the configured teams: a stored team name that
    is set and not empty is looked up, and the last team of that name
    wins. *)
Definition restoreTeam (ts : list Team.t) (storedTeam : option string)
  : option Team.t :=
  match storedTeam with
  | Some s =>
      if decide (s = "") then None
      else foldl (λ found existingTeam,
                    if decide (Team.name existingTeam = s)
                    then Some existingTeam else found) None ts
  | None => None
  end.

(** The team of a joining player. *)
Definition teamForJoin (storedTeam : option string) (g : Game)
  : completion (option Team.t) :=
  match teams (rules g) with
  | Some ts =>
      match restoreTeam ts storedTeam with
      | Some t => Returns (Some t)
      | None => chooseTeam g
      end
  | None => Returns None
  end.

(** *** Join *)

(** The cell of a joining player: the tile at the supplied coordinate if
    there is one, else whatever [getUnoccupiedSquare] draws. *)
Definition squareForJoin (rnd : nat) (coords0 : option Coordinate) (g : Game)
  : option Coordinate :=
  let square :=
    match coords0 with
    | Some c => match tryGetTile (map g) c with
                | Some _ => Some c
                | None => None
                end
    | None => None
    end in
  match square with
  | Some c => Some c
  | None => getUnoccupiedSquare (map g) rnd
  end.

(** [rnd] is the random draw of [getUnoccupiedSquare], [loadedPerk] what
    [loadPerk] reads for this user. *)
Definition join (rnd : nat) (loadedPerk : option PerkType) (id : string)
    (hp0 points0 : option Z) (coords0 : option Coordinate)
    (storedTeam : option string) (g : Game)
  : Game * completion (string + Player) :=
  if ended g then (g, Returns (inl "Game has ended"))
  else if decide (is_Some (players g !! id))
  then (g, Returns (inl "You are already in the game!"))
  else if decide (is_Some (deadPlayers g !! id))
  then (g, Returns (inl "Cannot perform action, you are dead."))
  else
    match squareForJoin rnd coords0 g with
    | None => (g, Returns (inl "Game is full, sorry."))
    | Some square =>
        match teamForJoin storedTeam g with
        | Throws e => (g, Throws e)
        | Returns tm =>
            let player :=
              mkPlayer id
                (default (defaultStartingPoints (rules g)) points0)
                (default (defaultStartingHp (rules g)) hp0)
                (defaultPointsPerMove (rules g))
                (defaultPointsPerShot (rules g))
                (defaultPointsPerTick (rules g))
                (defaultPointsPerKill (rules g))
                square tm SmallMissile loadedPerk in
            let g1 := withPlayers (<[id := player]> (players g)) g in
            let g2 :=
              withMap (alter (withOccupied (Some id)) square (map g1)) g1 in
            let username := getUsername id in
            let msg :=
              match team player with
              | Some t => username +:+ " joined the game"
                            +:+ " and was assigned to team " +:+ Team.name t
              | None => username +:+ " joined the game"
              end in
            let g3 := pushLog msg username g2 in
            let g4 :=
              if bool_decide (size (players g3) + size (deadPlayers g3) = 2)%nat
                 && negb (tickLoopLaunched g3)
              then withTimer (Some MILLISECONDS_PER_TICK)
                     (withTickLoopLaunched true g3)
              else g3 in
            (g4, Returns (inr player))
        end
    end.

(** *** Queries *)

Definition getPlayerAtLocation (g : Game) (c : Coordinate) : option Player :=
  match tryGetTile (map g) c with
  | Some tile =>
      match occupied tile with
      | Some occupant => players g !! occupant
      | None => None
      end
  | None => None
  end.

(** *** Movement *)

Definition canMove (id : string) (c : Coordinate) (g : Game)
  : string + MoveCost.t :=
  if ended g then inl "Game has ended"
  else match players g !! id with
       | None => inl "User is not in the game"
       | Some p => canMoveTo (map g) c p
       end.

Definition notEnoughPoints (cost : MoveCost.t) (p : Player) : string :=
  "You don't have enough points required to move "
    +:+ pretty (MoveCost.tilesTraversed cost) +:+ " tiles. "
    +:+ "You need " +:+ pretty (MoveCost.pointsRequired cost)
    +:+ " points, but have " +:+ pretty (points p) +:+ " points.".

Definition moveToCoord (id : string) (c : Coordinate) (g : Game)
  : Game * completion (bool * string) :=
  match canMove id c g with
  | inl err => (g, Returns (false, err))
  | inr result =>
      match players g !! id with
      | None => (g, Throws "TypeError")
      | Some p =>
          if decide (points p >= MoveCost.pointsRequired result)%Z
          then
            let p1 := withPoints (points p - MoveCost.pointsRequired result) p in
            let g1 := withPlayers (<[id := p1]> (players g)) g in
            let oldPosition := coords p1 in
            match setOccupied oldPosition None (map g1) with
            | Throws e => (g1, Throws e)
            | Returns m1 =>
                let g2 := withMap m1 g1 in
                match setOccupied c (Some id) (map g2) with
                | Throws e => (g2, Throws e)
                | Returns m2 =>
                    let g3 := withMap m2 g2 in
                    let g4 :=
                      withPlayers (<[id := withCoords c p1]> (players g3)) g3 in
                    let username := getUsername id in
                    let g5 :=
                      pushLog (username +:+ " moved from "
                                 +:+ formatCoordinate oldPosition +:+ " to "
                                 +:+ formatCoordinate c +:+ ", consuming "
                                 +:+ pretty (MoveCost.pointsRequired result)
                                 +:+ " points")
                              username g4 in
                    (g5, Returns (true, ""))
                end
            end
          else (g, Returns (false, notEnoughPoints result p))
      end
  end.

(** *** Attack *)

Definition isKamikazeShot (p : Player) (c : Coordinate) : bool :=
  bool_decide (coord_x (coords p) = coord_x c)
  && bool_decide (coord_y (coords p) = coord_y c)
  && bool_decide (perk p = Some Kamikaze).

(** "Player is shooting teammate, no damage". *)
Definition shootingTeammate (attacker tilePlayer : Player) : bool :=
  bool_decide (userId tilePlayer ≠ userId attacker)
  && match team tilePlayer, team attacker with
     | Some theirs, Some ours => bool_decide (Team.name theirs = Team.name ours)
     | _, _ => false
     end.

Definition shotDamage (attacker tilePlayer : Player) (isKamikaze : bool) : Z :=
  if isKamikaze
  then if decide (userId tilePlayer = userId attacker)
       then hp attacker
       else DEFAULT_STARTING_HP `div` 2
  else Weapon.damage (weapon attacker).

(** What a shot does to one occupant of the blast. *)
Definition shotEntry (attacker tilePlayer : Player) (isKamikaze : bool)
  : PlayerShotEffect :=
  let damage := shotDamage attacker tilePlayer isKamikaze in
  let newHP := Z.max (hp tilePlayer - damage) 0 in
  let damageTaken := hp tilePlayer - newHP in
  mkPlayerShotEffect (userId tilePlayer) (hp tilePlayer) newHP damageTaken.

Definition emptyEffect (cost : Z) : ShotEffect :=
  mkShotEffect [] [] [] cost 0.

Definition pushTile (c : Coordinate) (e : ShotEffect) : ShotEffect :=
  mkShotEffect (c :: affectedTiles e) (affectedPlayers e) (killedPlayers e)
               (pointsRequired e) (totalDamage e).

Definition pushPlayer (entry : PlayerShotEffect) (e : ShotEffect) : ShotEffect :=
  mkShotEffect (affectedTiles e) (entry :: affectedPlayers e)
    (if decide (newHP entry = 0) then player entry :: killedPlayers e
     else killedPlayers e)
    (pointsRequired e) (totalDamage e + damageTaken entry).

(** The loop of [canAttack] over the tiles in the blast. The match is not
    modified while it runs, so the arrays are built front to back: the
    entry of a tile is put before the entries of the tiles after it. A
    coordinate that names no tile stands for no tile object and
    contributes nothing. *)
Fixpoint blast (g : Game) (attacker : Player) (isKamikaze : bool)
    (tilesInRadius : list Coordinate) : ShotEffect :=
  match tilesInRadius with
  | [] => emptyEffect (pointsPerShot attacker)
  | c :: rest =>
      let later := blast g attacker isKamikaze rest in
      match map g !! c with
      | None => later
      | Some tile =>
          match occupied tile with
          | None => pushTile c later
          | Some occupant =>
              match players g !! occupant with
              | None => pushTile c later
              | Some tilePlayer =>
                  if shootingTeammate attacker tilePlayer then later
                  else
                    pushTile c
                      (pushPlayer (shotEntry attacker tilePlayer isKamikaze)
                                  later)
              end
          end
      end
  end.

Definition blastRadius (p : Player) (c : Coordinate) : Z :=
  if isKamikazeShot p c then 2 else Weapon.radius (weapon p).

Definition canAttack (id : string) (c : Coordinate) (g : Game)
  : string + ShotEffect :=
  if ended g then inl "Game has ended"
  else match players g !! id with
  | None => inl "Player is not in the game"
  | Some p =>
      let coordPretty := formatCoordinate c in
      match tryGetTile (map g) c with
      | None =>
          inl ("Cannot attack " +:+ coordPretty +:+ ", tile does not exist")
      | Some tile =>
          if sparse tile
          then inl ("Cannot attack " +:+ coordPretty +:+ ", it is out of bounds")
          else
            let shotDistance :=
              distanceBetweenStraightLine (map g) (coords p) c in
            if decide (shotDistance > Weapon.range (weapon p))%Z
            then inl ("Cannot attack " +:+ coordPretty
                        +:+ ", your weapon has a range of "
                        +:+ pretty (Weapon.range (weapon p))
                        +:+ " tiles, but " +:+ coordPretty +:+ " is "
                        +:+ pretty shotDistance +:+ " tiles away")
            else if decide (points p < pointsPerShot p)
            then inl ("Cannot attack " +:+ coordPretty +:+ ", you need "
                        +:+ pretty (pointsPerShot p) +:+ " points, but have "
                        +:+ pretty (points p) +:+ " points")
            else
              let isKamikaze := isKamikazeShot p c in
              let radius := blastRadius p c in
              let tilesInRadius := getTilesInRadius (map g) c radius false in
              inr (blast g p isKamikaze tilesInRadius)
      end
  end.

(** The living players that are not [dead], as [checkForEndOfGame]
    collects them. *)
Definition alivePlayers (g : Game) : list Player :=
  filter (λ p, dead p = false) (livingList g).

Definition aliveTeams (g : Game) : gset string :=
  list_to_set (omap (λ p, Team.name <$> team p) (alivePlayers g)).

Definition checkForEndOfGame (g : Game) : bool * option (list string) :=
  let alive := alivePlayers g in
  if decide (length alive = 0%nat) then (true, Some [])
  else if bool_decide (length alive = 1%nat)
          || bool_decide (size (aliveTeams g) = 1%nat)
  then (true, Some (userId <$> alive))
  else (false, None).

(** One round of the loop of [doAttack] over [affectedPlayers]. *)
Definition applyShot (attackerName : string) (attacker : Player)
    (isKamikaze : bool) (g : Game) (entry : PlayerShotEffect) : Game :=
  let g1 := mutatePlayer (player entry) (receiveDamage (damageTaken entry)) g in
  match playerObject g1 (player entry) with
  | None => g1
  | Some target =>
      let newHP := hp target in
      let g2 := if decide (newHP = 0) then killPlayer target g1 else g1 in
      let receiver := getUsername (userId target) in
      let msg :=
        if isKamikaze
        then receiver +:+ " received " +:+ pretty (damageTaken entry)
               +:+ " damage from " +:+ attackerName +:+ " kamikazing"
        else receiver +:+ " received " +:+ pretty (damageTaken entry)
               +:+ " damage from " +:+ attackerName +:+ "'s "
               +:+ Weapon.name (weapon attacker) in
      if decide (newHP = 0)
      then pushLog (msg +:+ " and was killed!") attackerName
             (pushLog (attackerName +:+ " was awarded "
                         +:+ pretty (pointsPerKill attacker)
                         +:+ " points for killing a player.")
                      attackerName g2)
      else pushLog (msg +:+ ". They now have " +:+ pretty newHP +:+ " HP")
             attackerName g2
  end.

(** The summary entry that [doAttack] logs before the shot is resolved. *)
Definition announceShot (id : string) (attacker : Player)
    (result : ShotEffect) (isKamikaze : bool) (g : Game) : Game :=
  let attackerName := getUsername id in
  let n := pretty (Z.of_nat (length (affectedPlayers result))) in
  let msg :=
    if isKamikaze
    then attackerName +:+ " kamikazed, damaging " +:+ n
           +:+ " players for a total of "
           +:+ pretty (totalDamage result) +:+ " damage."
    else attackerName +:+ " fired a "
           +:+ Weapon.name (weapon attacker) +:+ " at " +:+ n
           +:+ " players for a total of "
           +:+ pretty (totalDamage result) +:+ " damage, consuming "
           +:+ pretty (pointsPerShot attacker) +:+ " points" in
  pushLog msg attackerName g.

(** [roll] is the outcome of the probabilistic hit check of this shot. *)
Definition doAttack (roll : bool) (id : string) (c : Coordinate) (g : Game)
  : Game * (string + ShotOutcome.t) :=
  match canAttack id c g with
  | inl err => (g, inl err)
  | inr result =>
      match players g !! id with
      | None => (g, inl "TypeError")
      | Some attacker =>
          let isKamikaze := isKamikazeShot attacker c in
          let g1 := announceShot id attacker result isKamikaze g in
          let '(attacker1, shot) :=
            Player_attack roll (killedPlayers result) isKamikaze attacker in
          let g2 := withPlayers (<[id := attacker1]> (players g1)) g1 in
          match shot with
          | Miss => (g2, inr (ShotOutcome.mk result Miss false (Some [])))
          | Hit =>
              let g3 :=
                foldl (applyShot (getUsername id) attacker isKamikaze) g2
                      (affectedPlayers result) in
              let '(isEnded, winners) := checkForEndOfGame g3 in
              let g4 := if isEnded then cleanup (withEnded true g3) else g3 in
              (g4, inr (ShotOutcome.mk result Hit isEnded winners))
          end
      end
  end.

(** *** Restoring a stored match *)

(** A row of the table [tank_games]. *)
Record StoredPlayer : Type := mkStored {
  user_id : string;
  stored_x : Z;
  stored_y : Z;
  stored_hp : Z;
  stored_points : Z;
  stored_team : option string
}.

(** One round of the loop of [loadFromDB]. *)
Definition restorePlayer (rnd : string → nat)
    (perkOf : string → option PerkType) (g : Game) (row : StoredPlayer)
  : Game :=
  match join (rnd (user_id row)) (perkOf (user_id row)) (user_id row)
             (Some (stored_hp row)) (Some (stored_points row))
             (Some (stored_x row, stored_y row)) (stored_team row) g with
  | (g1, Returns (inr restored)) =>
      if decide (stored_hp row = 0) then killPlayer restored g1 else g1
  | (g1, _) => g1
  end.

Definition loadFromDB (rnd : string → nat)
    (perkOf : string → option PerkType) (rows : list StoredPlayer) (g : Game)
  : Game * bool :=
  match rows with
  | [] => (g, false)
  | _ => (foldl (restorePlayer rnd perkOf) g rows, true)
  end.

(** *** Reachable matches

    The calls that change a match; [loadFromDB] is a run of
    [restorePlayer] steps. *)

Inductive step : Game → Game → Prop :=
| step_join rnd loadedPerk id hp0 points0 coords0 storedTeam g :
    step g (fst (join rnd loadedPerk id hp0 points0 coords0 storedTeam g))
| step_moveToCoord id c g :
    step g (fst (moveToCoord id c g))
| step_doAttack roll id c g :
    step g (fst (doAttack roll id c g))
| step_handleGameTick g delay :
    timer g = Some delay → step g (handleGameTick g)
| step_restorePlayer rnd perkOf row g :
    step g (restorePlayer rnd perkOf g row)
| step_cleanup g :
    step g (cleanup g).

Inductive reachable : Game → Prop :=
| reachable_new mapSpec r g :
    newGame mapSpec r = Returns g → reachable g
| reachable_step g g' :
    reachable g → step g g' → reachable g'.

End Engine.

(** ** A sample environment

    Used to run the engine on concrete matches. *)

(** Modelled from the spec: the constants of the scenario of section 8
    ("starting health 100, starting points 20, per-move cost 5, per-shot
    cost 10, weapon damage 30, radius 1, range 5"); the scenario does not
    give the kill reward, the tick income, the tick interval or the default
    map size, which are sample values. *)
Definition scenarioConstants : Constants := {|
  DEFAULT_MAP_HEIGHT := 4;
  DEFAULT_MAP_WIDTH := 4;
  DEFAULT_STARTING_HP := 100;
  DEFAULT_STARTING_POINTS := 20;
  POINTS_PER_MOVE := 5;
  POINTS_PER_SHOT := 10;
  POINTS_PER_KILL := 7;
  POINTS_PER_TICK := 1;
  MILLISECONDS_PER_TICK := 60000;
  SmallMissile := Weapon.mk "small missile" 30 1 5
|}.

Definition gridCells (s : MapSpecification) : list (Coordinate * MapTile) :=
  x ← seq 0 (width s);
  y ← seq 0 (height s);
  [((Z.of_nat x, Z.of_nat y), mkTile false None)].

(** Modelled from the spec: a "grid of addressable cells", here all passable
    and none occupied at creation. *)
Definition gridMap (s : MapSpecification) : MapManager :=
  list_to_map (gridCells s).

Definition isFree (entry : Coordinate * MapTile) : bool :=
  bool_decide (occupied (snd entry) = None) && negb (sparse (snd entry)).

(** Modelled from the spec: "allocate any unoccupied cell; if no cell is
    available" there is none. *)
Definition anyUnoccupiedSquare (m : MapManager) (rnd : nat)
  : option Coordinate :=
  let free := filter (λ e, isFree e = true) (map_to_list m) in
  fst <$> free !! (rnd `mod` length free)%nat.

Definition tilesBetween (a b : Coordinate) : Z :=
  Z.max (Z.abs (coord_x a - coord_x b)) (Z.abs (coord_y a - coord_y b)).

(** Modelled from the spec: "distance-based cost model, tiles must be passable
    and in bounds"; a cell somebody stands on is not a destination. *)
Definition gridCanMoveTo (m : MapManager) (c : Coordinate) (p : Player)
  : string + MoveCost.t :=
  match m !! c with
  | None => inl "Tile does not exist"
  | Some tile =>
      if sparse tile then inl "Tile is out of bounds"
      else if decide (is_Some (occupied tile)) then inl "Tile is occupied"
      else
        let n := tilesBetween (coords p) c in
        inr (MoveCost.mk (n * pointsPerMove p) n)
  end.

(** Modelled from the spec: the tiles "within radius of the target", the
    square around it as [getPlayersInRadius] cuts it. *)
Definition gridTilesInRadius (m : MapManager) (c : Coordinate) (r : Z)
    (diagonal : bool) : list Coordinate :=
  filter (λ c', tilesBetween c c' ≤ r) (map_to_list m).*1.

Definition showCoordinate (c : Coordinate) : string :=
  "(" +:+ pretty (coord_x c) +:+ ", " +:+ pretty (coord_y c) +:+ ")".

(** Modelled from the spec: one implementation of the capabilities of
    section 6 on a rectangular grid, with user names that are the
    identifiers themselves. *)
Definition gridCollaborators : Collaborators := {|
  newMapManager := gridMap;
  getUnoccupiedSquare := anyUnoccupiedSquare;
  canMoveTo := gridCanMoveTo;
  distanceBetweenStraightLine := λ _ a b, tilesBetween a b;
  getTilesInRadius := gridTilesInRadius;
  getUsername := λ id, id;
  formatCoordinate := showCoordinate;
  tickLogEntry := λ p, mkLog (userId p +:+ " received points") "System"
|}.

(** A supplied [0] falls back to the default, any other supplied number is
    the rule. *)
Definition zeroFallsBack (supplied : option Z) (dflt actual : Z) : Prop :=
  (supplied = Some 0 → actual = dflt)
  ∧ (∀ v, supplied = Some v → v ≠ 0 → actual = v).

(** The match a constructor call returns; a throwing call gives the match
    without tiles. *)
Definition created (c : completion Game) : Game :=
  match c with
  | Returns g => g
  | Throws _ =>
      mkGame ∅ ∅ ∅ (mkRules None 0 0 0 0 0 0 0) [] None false false
  end.

(** The successful result of a call, for use on sample matches. *)
Definition shotEffectOf (r : string + ShotEffect) : ShotEffect :=
  match r with
  | inr e => e
  | inl _ => mkShotEffect [] [] [] 0 0
  end.

Definition outcomeOf (r : string + ShotOutcome.t) : ShotOutcome.t :=
  match r with
  | inr o => o
  | inl _ => ShotOutcome.mk (mkShotEffect [] [] [] 0 0) Miss false None
  end.

Section Samples.
#[local] Existing Instance scenarioConstants.
#[local] Existing Instance gridCollaborators.

Definition zeroRules : Partial.GameRules :=
  Partial.mk None (Some 0) None (Some 0) (Some 0) (Some 3) None None.

Definition fastTickRules : Partial.GameRules :=
  Partial.mk None (Some 1000) None None None None None None.

(** Two players joined a match whose rule set asks for a tick every second. *)
Definition fastTickMatch : Game :=
  let g := created (newGame None fastTickRules) in
  let g := fst (join 0 None "ann" None None None None g) in
  fst (join 0 None "bob" None None None None g).

(** A map of one cell, taken by "ann". *)
Definition fullMatch : Game :=
  let g := created (newGame (Some (mkMapSpec 1 1)) Partial.empty) in
  fst (join 0 None "ann" None None None None g).

(** "ann" and then "bob" join at the same coordinate. *)
Definition crowdedMatch : Game :=
  let g := created (newGame (Some (mkMapSpec 2 2)) Partial.empty) in
  let g := fst (join 0 None "ann" None None (Some (0, 0)) None g) in
  fst (join 0 None "bob" None None (Some (0, 0)) None g).

(** "ann" at (0,0), "bob" with 30 health at (3,0), "cyd" at (0,3). *)
Definition duelMatch : Game :=
  let g := created (newGame None Partial.empty) in
  let g := fst (join 0 None "ann" None None (Some (0, 0)) None g) in
  let g := fst (join 0 None "bob" (Some 30) None (Some (3, 0)) None g) in
  fst (join 0 None "cyd" None None (Some (0, 3)) None g).

(** The scenario of section 8 of the specification: "ann" at (0,0) and
    "bob" at (3,0) under the default rules; "ann" moves one tile to (1,0),
    then "bob" shoots at (1,0) and hits. *)
Definition scenarioMatch : Game :=
  let g := created (newGame None Partial.empty) in
  let g := fst (join 0 None "ann" None None (Some (0, 0)) None g) in
  let g := fst (join 0 None "bob" None None (Some (3, 0)) None g) in
  let g := fst (moveToCoord "ann" (1, 0) g) in
  fst (doAttack true "bob" (1, 0) g).

(** "ann" has 3 points left. *)
Definition brokeMatch : Game :=
  let g := created (newGame None Partial.empty) in
  fst (join 0 None "ann" None (Some 3) (Some (0, 0)) None g).

Definition red : Team.t := Team.mk 0 "red" None.
Definition blue : Team.t := Team.mk 1 "blue" None.

Definition teamRules : Partial.GameRules :=
  Partial.mk (Some [red; blue]) None None None None None None None.

Definition halfHealthRules : Partial.GameRules :=
  Partial.mk None None (Some 50) None None None None None.

(** A match with the teams red and blue that nobody joined yet. *)
Definition emptyTeamMatch : Game :=
  created (newGame None teamRules).

(** "ann" and "bob" on team red at (0,0) and (2,0), "cyd" on team blue
    at (3,0). *)
Definition teamMatch : Game :=
  let g := emptyTeamMatch in
  let g := fst (join 0 None "ann" None None (Some (0, 0)) (Some "red") g) in
  let g := fst (join 0 None "bob" None None (Some (2, 0)) (Some "red") g) in
  fst (join 0 None "cyd" None None (Some (3, 0)) (Some "blue") g).

(** A second team object named "red". *)
Definition red2 : Team.t := Team.mk 2 "red" None.

Definition threeTeamRules : Partial.GameRules :=
  Partial.mk (Some [red; blue; red2]) None None None None None None None.

(** A match with the teams red, blue and a second red that nobody joined
    yet. *)
Definition emptyThreeTeamMatch : Game :=
  created (newGame None threeTeamRules).

(** Four players joined it without a stored team: "ann" and "dan" were put
    on the second red, "bob" on blue and "cyd" on the first red. *)
Definition threeTeamMatch : Game :=
  let g := emptyThreeTeamMatch in
  let g := fst (join 0 None "ann" None None (Some (0, 0)) None g) in
  let g := fst (join 0 None "bob" None None (Some (1, 0)) None g) in
  let g := fst (join 0 None "cyd" None None (Some (2, 0)) None g) in
  fst (join 0 None "dan" None None (Some (3, 0)) None g).

(** "ann" holds the Kamikaze perk at (0,0) and "bob" joined on her cell:
    the tile records "bob" only. *)
Definition sharedCellMatch : Game :=
  let g := created (newGame None Partial.empty) in
  let g := fst (join 0 (Some Kamikaze) "ann" None None (Some (0, 0)) None g) in
  fst (join 0 None "bob" None None (Some (0, 0)) None g).

(** Starting health 50 by rule; "ann" holds the Kamikaze perk at (1,1),
    "bob" stands next to her at (1,2). *)
Definition kamikazeMatch : Game :=
  let g := created (newGame None halfHealthRules) in
  let g := fst (join 0 (Some Kamikaze) "ann" None None (Some (1, 1)) None g) in
  fst (join 0 None "bob" None None (Some (1, 2)) None g).

(** "ann" at (0,0) faces "bob" with 30 health at (3,0); nobody else is
    in. *)
Definition lastShotMatch : Game :=
  let g := created (newGame None Partial.empty) in
  let g := fst (join 0 None "ann" None None (Some (0, 0)) None g) in
  fst (join 0 None "bob" (Some 30) None (Some (3, 0)) None g).

(** [lastShotMatch] after the shot of "ann" that eliminates "bob". *)
Definition finishedMatch : Game :=
  fst (doAttack true "ann" (3, 0) lastShotMatch).

(** [duelMatch] after the shot of "ann" that eliminates "bob"; "cyd" lives
    on. *)
Definition afterKillMatch : Game :=
  fst (doAttack true "ann" (3, 0) duelMatch).

(** The stored row of "dan", eliminated at (1,1) with 4 points. *)
Definition danRow : StoredPlayer := mkStored "dan" 1 1 0 4 None.

(** The players of the sample matches as [join] makes them. *)
Definition samplePlayer (id : string) (points0 hp0 : Z) (c : Coordinate)
  : Player :=
  mkPlayer id points0 hp0 5 10 1 7 c None (Weapon.mk "small missile" 30 1 5)
           None.

End Samples.

(** ** Vocabulary of the properties *)

(** Every entry of a roster is stored under its own [userId] and
    satisfies [P]. *)
Definition rosterOk (P : Player → Prop) (m : gmap string Player) : Prop :=
  map_Forall (λ k p, userId p = k ∧ P p) m.

Definition rostersOk (P : Player → Prop) (g : Game) : Prop :=
  rosterOk P (players g) ∧ rosterOk P (deadPlayers g).

(** A property of a player that no update of points, health or position
    changes. *)
Definition stable (P : Player → Prop) : Prop :=
  ∀ p, P p →
    (∀ v, P (withPoints v p)) ∧ (∀ v, P (withHp v p))
    ∧ (∀ c, P (withCoords c p)).

(** With teams configured every player has one, without teams nobody has. *)
Definition teamRule (r : GameRules) (p : Player) : Prop :=
  match teams r with
  | Some _ => is_Some (team p)
  | None => team p = None
  end.

(** The identifiers that ever joined. *)
Definition joined (g : Game) : gset string :=
  dom (players g) ∪ dom (deadPlayers g).

(** The number of living members of a team. *)
Definition membersIn (ps : list Player) (t : Team.t) : Z :=
  Z.of_nat (length (filter (λ p, team p = Some t) ps)).

Definition livingMembers (g : Game) (t : Team.t) : Z :=
  membersIn (livingList g) t.

(** All the players of a list are on one and the same team. *)
Definition shareSingleTeam (ps : list Player) : Prop :=
  ∃ n, ∀ p, p ∈ ps → Team.name <$> team p = Some n.

(** What the loop of [doAttack] does not touch. *)
Definition sameBoard (g g' : Game) : Prop :=
  map g' = map g ∧ rules g' = rules g ∧ ended g' = ended g
  ∧ timer g' = timer g ∧ tickLoopLaunched g' = tickLoopLaunched g.

(** A configured list of teams is not empty. *)
Definition teamsConfigured (g : Game) : Prop :=
  ∀ ts, teams (rules g) = Some ts → ts ≠ [].

(** The counts of [chooseTeam] when every configured team has a number. *)
Definition tally (f : Team.t → Z) (ts : list Team.t)
  : list (Team.t * option Z) :=
  (λ t, (t, Some (f t))) <$> ts.

(** The entries that [chooseTeam] adds for teams that are not configured:
    their count is [NaN]. *)
Definition foreignCounts (ts : list Team.t)
    (extra : list (Team.t * option Z)) : Prop :=
  Forall (λ e, (fst e ∉ ts) ∧ snd e = None) extra.

(** The configured teams in the order of their first listing: an array
    may list one team object more than once. *)
Definition firstListings (ts : list Team.t) : list Team.t :=
  foldl (λ seen t, if decide (t ∈ seen) then seen else seen ++ [t]) [] ts.

(** ** The other calls of [Game] *)

(** Modelled from the spec: the two range helpers of [Map.ts] and
    [Utilities.ts] that [getPlayersBetween] and [getPlayersInRadius] call,
    [getTilesBetween(a, b, diagonal) → Tile[]] and
    [pointAndRadiusToSquare(coord, radius)], the corners of the square around
    a point. The queries are parametric in them. *)
Class RangeHelpers : Type := {
  getTilesBetween : MapManager → Coordinate → Coordinate → bool
                    → list Coordinate;
  pointAndRadiusToSquare : Coordinate → Z → Coordinate * Coordinate
}.

(** [init]: the first entry of the log. *)
Definition init (g : Game) : Game :=
  pushLog "Game was created" "System" g.

Definition hasPlayer (id : string) (g : Game) : bool :=
  bool_decide (is_Some (players g !! id)).

Definition fetchPlayerLocation (id : string) (g : Game) : option Coordinate :=
  match players g !! id with
  | None => None
  | Some p => Some (coords p)
  end.

(** [players.get(userId) || deadPlayers.get(userId)]: a player object is
    truthy. *)
Definition getPlayerOrDead (id : string) (g : Game) : option Player :=
  match players g !! id with
  | Some p => Some p
  | None => deadPlayers g !! id
  end.

Definition getPlayer (id : string) (g : Game) : option Player :=
  players g !! id.

Definition isDead (id : string) (g : Game) : bool :=
  bool_decide (is_Some (deadPlayers g !! id)).

Definition coordinateExists (c : Coordinate) (g : Game) : bool :=
  bool_decide (is_Some (tryGetTile (map g) c)).

Definition getLogs (g : Game) : list LogMessage := log g.

(** The body of the loop of [getPlayersBetween]: the living player a tile
    records, if it records one. *)
Definition livingOccupant (g : Game) (c : Coordinate) : option Player :=
  match map g !! c with
  | Some tile =>
      match occupied tile with
      | Some occupant => players g !! occupant
      | None => None
      end
  | None => None
  end.

Section Ranges.
Context {ranges : RangeHelpers}.

Definition getPlayersBetween (first last : Coordinate) (g : Game)
  : list Player :=
  omap (livingOccupant g) (getTilesBetween (map g) first last false).

Definition getPlayersInRadius (c : Coordinate) (r : Z) (g : Game)
  : list Player :=
  let '(first, last) := pointAndRadiusToSquare c r in
  getPlayersBetween first last g.

End Ranges.

(** The sum of the damage that the entries of a shot record. *)
Definition damageSum (entries : list PlayerShotEffect) : Z :=
  foldr (λ entry total, damageTaken entry + total) 0 entries.

(** One player's income over [n] ticks. *)
Definition afterTicks (n : nat) (p : Player) : Player :=
  withPoints (points p + Z.of_nat n * pointsPerTick p) p.

(** Modelled from the spec: the range helpers on the rectangular grid; the
    tiles between two corners are those of the rectangle they span. *)
Definition gridRanges : RangeHelpers := {|
  getTilesBetween := λ m a b _,
    filter (λ c, Z.min (coord_x a) (coord_x b) ≤ coord_x c
                 ∧ coord_x c ≤ Z.max (coord_x a) (coord_x b)
                 ∧ Z.min (coord_y a) (coord_y b) ≤ coord_y c
                 ∧ coord_y c ≤ Z.max (coord_y a) (coord_y b))
           (map_to_list m).*1;
  pointAndRadiusToSquare := λ c r,
    ((coord_x c - r, coord_y c - r), (coord_x c + r, coord_y c + r))
|}.

(** No identifier is on both rosters. *)
Definition rostersDisjoint (g : Game) : Prop :=
  ∀ id, is_Some (players g !! id) → deadPlayers g !! id = None.

(** How many players the two rosters hold. *)
Definition headcount (g : Game) : nat :=
  (size (players g) + size (deadPlayers g))%nat.

(** The tick loop has been launched exactly when two players are in. *)
Definition launchedAtTwo (g : Game) : Prop :=
  tickLoopLaunched g = true ↔ (2 ≤ headcount g)%nat.

(** ** Properties of the engine *)

Section Properties.
Context {constants : Constants} {collaborators : Collaborators}.

Lemma orDefault_zeroFallsBack supplied dflt :
  zeroFallsBack supplied dflt (orDefault supplied dflt).
Proof.
  split.
  - intros ->. reflexivity.
  - intros v -> Hv. unfold orDefault. destruct (decide (v = 0)); congruence.
Qed.

(** C10: a numeric rule supplied as 0 at construction is replaced by the
    global default constant; a supplied number other than 0 becomes the
    rule. *)
Theorem newGame_zero_override_is_default mapSpec r g :
  newGame mapSpec r = Returns g →
  zeroFallsBack (Partial.millisecondsPerTick r) MILLISECONDS_PER_TICK
                (millisecondsPerTick (rules g))
  ∧ zeroFallsBack (Partial.defaultStartingHp r) DEFAULT_STARTING_HP
                  (defaultStartingHp (rules g))
  ∧ zeroFallsBack (Partial.defaultStartingPoints r) DEFAULT_STARTING_POINTS
                  (defaultStartingPoints (rules g))
  ∧ zeroFallsBack (Partial.defaultPointsPerMove r) POINTS_PER_MOVE
                  (defaultPointsPerMove (rules g))
  ∧ zeroFallsBack (Partial.defaultPointsPerShot r) POINTS_PER_SHOT
                  (defaultPointsPerShot (rules g))
  ∧ zeroFallsBack (Partial.defaultPointsPerTick r) POINTS_PER_TICK
                  (defaultPointsPerTick (rules g))
  ∧ zeroFallsBack (Partial.defaultPointsPerKill r) POINTS_PER_KILL
                  (defaultPointsPerKill (rules g)).
Proof.
  unfold newGame. destruct (checkTeams r); [|discriminate].
  intros [= <-]. cbn [rules millisecondsPerTick defaultStartingHp
    defaultStartingPoints defaultPointsPerMove defaultPointsPerShot
    defaultPointsPerTick defaultPointsPerKill].
  repeat split; apply orDefault_zeroFallsBack.
Qed.

(** C9: when the cost that [canMoveTo] computes exceeds the points of a
    living player, [moveToCoord] answers with the message that states the
    required and the available points, and the match is left as it was:
    points, position and the occupancy of every cell. *)
Theorem moveToCoord_insufficient_points id c g p cost :
  ended g = false →
  players g !! id = Some p →
  canMoveTo (map g) c p = inr cost →
  points p < MoveCost.pointsRequired cost →
  moveToCoord id c g =
    (g, Returns (false,
          "You don't have enough points required to move "
            +:+ pretty (MoveCost.tilesTraversed cost) +:+ " tiles. "
            +:+ "You need " +:+ pretty (MoveCost.pointsRequired cost)
            +:+ " points, but have " +:+ pretty (points p) +:+ " points.")).
Proof.
  intros Hended Hp Hcost Hlt.
  unfold moveToCoord, canMove. rewrite Hended, Hp, Hcost.
  destruct (decide (points p >= MoveCost.pointsRequired cost)); [lia|].
  reflexivity.
Qed.

(** Both places that arm the tick timer pass the global constant. *)
Lemma handleGameTick_timer g :
  timer (handleGameTick g) = Some MILLISECONDS_PER_TICK.
Proof. reflexivity. Qed.

(** *** The rosters stay keyed by [userId] *)

Lemma stable_True : stable (λ _, True).
Proof. intros p _. auto. Qed.

Lemma stable_teamRule r : stable (teamRule r).
Proof. intros p Hp. unfold teamRule in *. destruct (teams r); auto. Qed.

Lemma rosterOk_lookup P (m : gmap string Player) k p :
  rosterOk P m → m !! k = Some p → userId p = k ∧ P p.
Proof. intros Hm Hk. exact (Hm k p Hk). Qed.

Lemma rosterOk_insert P (m : gmap string Player) k p :
  rosterOk P m → userId p = k → P p → rosterOk P (<[k := p]> m).
Proof.
  intros Hm Hk Hp k' p'. rewrite lookup_insert.
  case_decide; [intros [= <-]; subst; auto | apply Hm].
Qed.

Lemma rosterOk_delete P (m : gmap string Player) k :
  rosterOk P m → rosterOk P (delete k m).
Proof. intros Hm k' p' Hk'. apply lookup_delete_Some in Hk' as [_ Hk']. by apply Hm. Qed.

Lemma rosterOk_alter P (m : gmap string Player) k f :
  rosterOk P m → (∀ p, userId (f p) = userId p) → (∀ p, P p → P (f p)) →
  rosterOk P (alter f k m).
Proof.
  intros Hm Hid Hf k' p'. rewrite lookup_alter.
  case_decide as Hk; [|apply Hm].
  subst k'. destruct (m !! k) as [p|] eqn:Hp; [|done].
  intros [= <-]. destruct (Hm k p Hp). rewrite Hid. auto.
Qed.

Lemma rosterOk_fmap P (m : gmap string Player) f :
  rosterOk P m → (∀ p, userId (f p) = userId p) → (∀ p, P p → P (f p)) →
  rosterOk P (f <$> m).
Proof.
  intros Hm Hid Hf k p'. rewrite lookup_fmap.
  destruct (m !! k) as [p|] eqn:Hp; [|done].
  intros [= <-]. destruct (Hm k p Hp). rewrite Hid. auto.
Qed.

Lemma killPlayer_rostersOk P p g :
  rostersOk P g → P p → rostersOk P (killPlayer p g).
Proof.
  intros [Hl Hd] Hp. split; cbn.
  - by apply rosterOk_delete.
  - by apply rosterOk_insert.
Qed.

Lemma mutatePlayer_rostersOk P ref f g :
  rostersOk P g → (∀ p, userId (f p) = userId p) → (∀ p, P p → P (f p)) →
  rostersOk P (mutatePlayer ref f g).
Proof.
  intros [Hl Hd] Hid Hf. unfold mutatePlayer.
  destruct (players g !! ref) as [p|] eqn:Hp; split; cbn; auto.
  - destruct (Hl ref p Hp). apply rosterOk_insert; auto. by rewrite Hid.
  - by apply rosterOk_alter.
Qed.

Lemma playerObject_rostersOk P g ref p :
  rostersOk P g → playerObject g ref = Some p → userId p = ref ∧ P p.
Proof.
  intros [Hl Hd]. unfold playerObject.
  destruct (players g !! ref) as [q|] eqn:Hq.
  - intros [= <-]. by apply (Hl ref).
  - apply Hd.
Qed.

Lemma pushLog_players msg who g : players (pushLog msg who g) = players g.
Proof. reflexivity. Qed.

Lemma applyShot_rostersOk P who attacker k g entry :
  stable P → rostersOk P g → rostersOk P (applyShot who attacker k g entry).
Proof.
  intros HP Hg. unfold applyShot.
  set (g1 := mutatePlayer _ _ g).
  assert (Hg1 : rostersOk P g1).
  { apply mutatePlayer_rostersOk; auto. intros p Hp. by apply HP. }
  destruct (playerObject g1 (player entry)) as [target|] eqn:Ht; [|done].
  destruct (playerObject_rostersOk _ _ _ _ Hg1 Ht) as [_ Hpt].
  destruct (decide (hp target = 0)); cbn; auto.
  apply (killPlayer_rostersOk P target g1); auto.
Qed.

Lemma foldl_applyShot_rostersOk P who attacker k entries g :
  stable P → rostersOk P g →
  rostersOk P (foldl (applyShot who attacker k) g entries).
Proof.
  intros HP. revert g.
  induction entries as [|e es IH]; intros g Hg; cbn; auto.
  apply IH. by apply applyShot_rostersOk.
Qed.

(** *** What each call leaves alone *)

Lemma sameBoard_refl g : sameBoard g g.
Proof. by repeat split. Qed.

Lemma sameBoard_trans g1 g2 g3 :
  sameBoard g1 g2 → sameBoard g2 g3 → sameBoard g1 g3.
Proof.
  intros (?&?&?&?&?) (?&?&?&?&?). repeat split; congruence.
Qed.

Lemma mutatePlayer_sameBoard ref f g : sameBoard g (mutatePlayer ref f g).
Proof. unfold mutatePlayer. destruct (players g !! ref); by repeat split. Qed.

Lemma applyShot_sameBoard who attacker k g entry :
  sameBoard g (applyShot who attacker k g entry).
Proof.
  unfold applyShot.
  eapply sameBoard_trans; [apply (mutatePlayer_sameBoard (player entry)
    (receiveDamage (damageTaken entry)))|].
  destruct (playerObject _ _); [|apply sameBoard_refl].
  repeat case_decide; by repeat split.
Qed.

Lemma foldl_applyShot_sameBoard who attacker k entries g :
  sameBoard g (foldl (applyShot who attacker k) g entries).
Proof.
  revert g. induction entries as [|e es IH]; intros g; cbn.
  - apply sameBoard_refl.
  - eapply sameBoard_trans; [apply applyShot_sameBoard | apply IH].
Qed.

Lemma Player_attack_fst roll killed k p :
  ∃ v, fst (Player_attack roll killed k p) = withPoints v p.
Proof.
  unfold Player_attack. destruct (k || roll); cbn; eauto.
Qed.

Lemma canAttack_inr id c g e :
  canAttack id c g = inr e →
  ended g = false ∧ ∃ p, players g !! id = Some p
    ∧ e = blast g p (isKamikazeShot p c)
            (getTilesInRadius (map g) c (blastRadius p c) false).
Proof.
  unfold canAttack. destruct (ended g); [done|].
  destruct (players g !! id) as [p|]; [|done].
  destruct (tryGetTile (map g) c) as [tile|]; [|done].
  destruct (sparse tile); [done|].
  repeat case_decide; try done.
  intros [= <-]. eauto.
Qed.

Lemma announceShot_players id attacker e k g :
  players (announceShot id attacker e k g) = players g.
Proof. reflexivity. Qed.

(** The stages of a successful [doAttack]. *)
Lemma doAttack_inr roll id c g g' out :
  doAttack roll id c g = (g', inr out) →
  ∃ attacker e,
    canAttack id c g = inr e ∧ players g !! id = Some attacker
    ∧ ended g = false ∧ ShotOutcome.effect out = e
    ∧ let k := isKamikazeShot attacker c in
      let fired := Player_attack roll (killedPlayers e) k attacker in
      let g2 := withPlayers (<[id := fst fired]> (players g))
                            (announceShot id attacker e k g) in
      ShotOutcome.shotResult out = snd fired
      ∧ match snd fired with
        | Miss => g' = g2 ∧ ShotOutcome.ended out = false
        | Hit =>
            let g3 := foldl (applyShot (getUsername id) attacker k) g2
                            (affectedPlayers e) in
            ShotOutcome.ended out = fst (checkForEndOfGame g3)
            ∧ g' = (if fst (checkForEndOfGame g3)
                    then cleanup (withEnded true g3) else g3)
        end.
Proof.
  unfold doAttack. destruct (canAttack id c g) as [|e] eqn:He; [done|].
  destruct (canAttack_inr _ _ _ _ He) as (Hended & p & Hp & _).
  rewrite Hp. destruct (Player_attack _ _ _ _) as [a1 shot] eqn:Hfire.
  rewrite announceShot_players.
  destruct shot.
  - destruct (checkForEndOfGame _) as [isEnded winners] eqn:Hcheck.
    intros [= <- <-]. exists p, e. rewrite Hfire. cbn.
    rewrite Hcheck. cbn. auto 10.
  - intros [= <- <-]. exists p, e. rewrite Hfire. cbn. auto 10.
Qed.

Lemma doAttack_inl roll id c g g' err :
  doAttack roll id c g = (g', inl err) → g' = g.
Proof.
  unfold doAttack. destruct (canAttack id c g) as [|e] eqn:He.
  - by intros [= <- _].
  - destruct (canAttack_inr _ _ _ _ He) as (_ & p & Hp & _). rewrite Hp.
    destruct (Player_attack _ _ _ _) as [a1 []];
      [destruct (checkForEndOfGame _)|]; done.
Qed.

Lemma doAttack_rostersOk P roll id c g :
  stable P → rostersOk P g → rostersOk P (fst (doAttack roll id c g)).
Proof.
  intros HP Hg. destruct (doAttack roll id c g) as [g' [err|out]] eqn:Hd.
  - apply doAttack_inl in Hd as ->. done.
  - apply doAttack_inr in Hd as (p & e & _ & Hp & _ & _ & Hd). cbn in *.
    destruct Hd as [_ Hd].
    destruct (Player_attack_fst roll (killedPlayers e) (isKamikazeShot p c) p)
      as [v Hv].
    rewrite Hv in Hd.
    destruct (rosterOk_lookup _ _ _ _ (proj1 Hg) Hp) as [Hid HPp].
    assert (Hg2 : rostersOk P
      (withPlayers (<[id := withPoints v p]> (players g))
                   (announceShot id p e (isKamikazeShot p c) g))).
    { split; cbn; [|apply Hg].
      apply rosterOk_insert; [apply Hg|done|by apply HP]. }
    destruct (snd _).
    + destruct Hd as [_ ->].
      pose proof (foldl_applyShot_rostersOk P (getUsername id) p (isKamikazeShot p c)
                    (affectedPlayers e) _ HP Hg2) as H3.
      destruct (fst (checkForEndOfGame _)); exact H3.
    + destruct Hd as [-> _]. exact Hg2.
Qed.

(** The two ways a [join] can go: refused with the match untouched, or a
    new player on the living roster. *)
Lemma join_cases rnd loadedPerk id hp0 points0 coords0 storedTeam g :
  let r := join rnd loadedPerk id hp0 points0 coords0 storedTeam g in
  (fst r = g ∧ ∀ pl, snd r ≠ Returns (inr pl))
  ∨ ∃ pl, snd r = Returns (inr pl)
      ∧ ended g = false
      ∧ players g !! id = None ∧ deadPlayers g !! id = None
      ∧ userId pl = id
      ∧ squareForJoin rnd coords0 g = Some (coords pl)
      ∧ teamForJoin storedTeam g = Returns (team pl)
      ∧ players (fst r) = <[id := pl]> (players g)
      ∧ deadPlayers (fst r) = deadPlayers g
      ∧ rules (fst r) = rules g
      ∧ ended (fst r) = false
      ∧ map (fst r) = alter (withOccupied (Some id)) (coords pl) (map g).
Proof.
  unfold join. destruct (ended g) eqn:Hended; [left; done|].
  destruct (decide (is_Some (players g !! id))) as [|Hl]; [left; done|].
  destruct (decide (is_Some (deadPlayers g !! id))) as [|Hd]; [left; done|].
  destruct (squareForJoin rnd coords0 g) as [square|]; [|left; done].
  destruct (teamForJoin storedTeam g) as [tm|]; [|left; done].
  right. eexists. cbn.
  apply eq_None_not_Some in Hl, Hd.
  destruct (_ && _); cbn; repeat split; auto.
Qed.

Lemma join_rostersOk P rnd loadedPerk id hp0 points0 coords0 storedTeam g :
  rostersOk P g →
  (∀ pl, snd (join rnd loadedPerk id hp0 points0 coords0 storedTeam g)
           = Returns (inr pl) → P pl) →
  rostersOk P (fst (join rnd loadedPerk id hp0 points0 coords0 storedTeam g)).
Proof.
  intros Hg HP.
  destruct (join_cases rnd loadedPerk id hp0 points0 coords0 storedTeam g)
    as [[-> _]|(pl & Hres & _ & _ & _ & Hid & _ & _ & Hps & Hds & _)]; [done|].
  split; [rewrite Hps | rewrite Hds; apply Hg].
  apply rosterOk_insert; [apply Hg | done | by apply HP].
Qed.

Lemma moveToCoord_rostersOk P id c g :
  stable P → rostersOk P g → rostersOk P (fst (moveToCoord id c g)).
Proof.
  intros HP Hg. unfold moveToCoord.
  destruct (canMove id c g) as [|cost]; [done|].
  destruct (players g !! id) as [p|] eqn:Hp; [|done].
  destruct (rosterOk_lookup _ _ _ _ (proj1 Hg) Hp) as [Hid HPp].
  case_decide; [|done].
  assert (Hpaid : rosterOk P
            (<[id := withPoints (points p - MoveCost.pointsRequired cost) p]>
               (players g))).
  { apply rosterOk_insert; [apply Hg|done|by apply HP]. }
  cbn. destruct (setOccupied _ None _); cbn; [|split; [done|apply Hg]].
  destruct (setOccupied c (Some id) _); cbn; (split; [|apply Hg]); [|done].
  apply rosterOk_insert; [done|done|]. apply HP. by apply HP.
Qed.

Lemma handleGameTick_rostersOk P g :
  stable P → rostersOk P g → rostersOk P (handleGameTick g).
Proof.
  intros HP Hg. split; cbn; [|apply Hg].
  apply rosterOk_fmap; [apply Hg|done|]. intros p Hp. by apply HP.
Qed.

Lemma restorePlayer_rostersOk P rnd perkOf g row :
  rostersOk P g →
  (∀ pl, snd (join (rnd (user_id row)) (perkOf (user_id row)) (user_id row)
                   (Some (stored_hp row)) (Some (stored_points row))
                   (Some (stored_x row, stored_y row)) (stored_team row) g)
           = Returns (inr pl) → P pl) →
  rostersOk P (restorePlayer rnd perkOf g row).
Proof.
  intros Hg HP. unfold restorePlayer.
  pose proof (join_rostersOk P _ _ _ _ _ _ _ g Hg HP) as Hj.
  destruct (join _ _ _ _ _ _ _ g) as [g1 [[err|pl]|]]; cbn in *; try done.
  case_decide; [|done]. apply killPlayer_rostersOk; auto.
Qed.

(** The rule set never changes. *)
Lemma step_rules g g' : step g g' → rules g' = rules g.
Proof.
  destruct 1 as [rnd lp id hp0 pts0 c0 st g| id c g | roll id c g | g d _
                | rnd perkOf row g | g].
  - destruct (join_cases rnd lp id hp0 pts0 c0 st g)
      as [[-> _]|(pl & _ & _ & _ & _ & _ & _ & _ & _ & _ & Hr & _)]; done.
  - unfold moveToCoord. repeat case_match; done.
  - destruct (doAttack roll id c g) as [g' [err|out]] eqn:Hd.
    + apply doAttack_inl in Hd as ->. done.
    + apply doAttack_inr in Hd as (p & e & _ & _ & _ & _ & _ & Hd). cbn in *.
      pose proof (foldl_applyShot_sameBoard (getUsername id) p (isKamikazeShot p c)
        (affectedPlayers e)
        (withPlayers
           (<[id := fst (Player_attack roll (killedPlayers e)
                                       (isKamikazeShot p c) p)]> (players g))
           (announceShot id p e (isKamikazeShot p c) g))) as (_ & Hr & _).
      destruct (snd _).
      * destruct Hd as [_ ->]. destruct (fst (checkForEndOfGame _)); exact Hr.
      * destruct Hd as [-> _]. done.
  - done.
  - unfold restorePlayer.
    destruct (join_cases (rnd (user_id row)) (perkOf (user_id row))
                (user_id row) (Some (stored_hp row)) (Some (stored_points row))
                (Some (stored_x row, stored_y row)) (stored_team row) g)
      as [[Hg Hno]|(pl & Hres & _ & _ & _ & _ & _ & _ & _ & _ & Hr & _)].
    + destruct (join _ _ _ _ _ _ _ g) as [g1 [[err|pl]|]]; cbn in *;
        subst; try done.
      by destruct (Hno pl).
    + destruct (join _ _ _ _ _ _ _ g) as [g1 res]; cbn in *. subst res.
      case_decide; done.
  - done.
Qed.

(** *** Reachable matches keep their rosters keyed by [userId] *)

Lemma step_rostersOk P g g' :
  stable P → rostersOk P g → step g g' →
  (∀ rnd lp id hp0 pts0 c0 st pl,
     snd (join rnd lp id hp0 pts0 c0 st g) = Returns (inr pl) → P pl) →
  rostersOk P g'.
Proof.
  intros HP Hg Hstep Hjoin.
  destruct Hstep as [rnd lp id hp0 pts0 c0 st g| id c g | roll id c g | g d _
                    | rnd perkOf row g | g].
  - apply join_rostersOk; eauto.
  - by apply moveToCoord_rostersOk.
  - by apply doAttack_rostersOk.
  - by apply handleGameTick_rostersOk.
  - apply restorePlayer_rostersOk; eauto.
  - exact Hg.
Qed.

Lemma newGame_rostersOk P mapSpec r g :
  newGame mapSpec r = Returns g → rostersOk P g.
Proof.
  unfold newGame. destruct (checkTeams r); [|done].
  intros [= <-]. split; apply map_Forall_empty.
Qed.

Lemma reachable_rostersOk g : reachable g → rostersOk (λ _, True) g.
Proof.
  induction 1 as [mapSpec r g Hnew | g g' _ IH Hstep].
  - by eapply newGame_rostersOk.
  - eapply step_rostersOk; eauto using stable_True.
Qed.

Lemma loadFromDB_reachable rnd perkOf rows g :
  reachable g → reachable (fst (loadFromDB rnd perkOf rows g)).
Proof.
  intros Hg. unfold loadFromDB. destruct rows as [|row rows]; [done|].
  cbn [fst]. generalize (row :: rows). clear row rows. intros rows.
  revert g Hg. induction rows as [|row rows IH]; intros g Hg; cbn; [done|].
  apply IH. eapply reachable_step; [exact Hg|apply step_restorePlayer].
Qed.

(** *** Nobody ever leaves the match *)

Lemma killPlayer_joined p g : joined g ⊆ joined (killPlayer p g).
Proof.
  unfold joined. cbn. rewrite dom_delete_L, dom_insert_L.
  intros k. rewrite !elem_of_union, elem_of_difference, elem_of_singleton.
  destruct (decide (k = userId p)); tauto.
Qed.

Lemma mutatePlayer_joined ref f g : joined (mutatePlayer ref f g) = joined g.
Proof.
  unfold mutatePlayer, joined.
  destruct (players g !! ref) as [p|] eqn:Hp; cbn.
  - rewrite dom_insert_L. f_equal.
    apply (elem_of_dom_2 (D := gset string)) in Hp. set_solver.
  - by rewrite dom_alter_L.
Qed.

Lemma applyShot_joined who attacker k g entry :
  joined g ⊆ joined (applyShot who attacker k g entry).
Proof.
  unfold applyShot.
  rewrite <- (mutatePlayer_joined (player entry)
                (receiveDamage (damageTaken entry)) g) at 1.
  destruct (playerObject _ _) as [target|]; [|done].
  destruct (decide (hp target = 0)); [|done].
  apply (killPlayer_joined target).
Qed.

Lemma foldl_applyShot_joined who attacker k entries g :
  joined g ⊆ joined (foldl (applyShot who attacker k) g entries).
Proof.
  revert g. induction entries as [|e es IH]; intros g; cbn; [done|].
  etrans; [apply applyShot_joined | apply IH].
Qed.

Lemma join_joined rnd lp id hp0 pts0 c0 st g :
  joined g ⊆ joined (fst (join rnd lp id hp0 pts0 c0 st g)).
Proof.
  destruct (join_cases rnd lp id hp0 pts0 c0 st g)
    as [[-> _]|(pl & _ & _ & _ & _ & _ & _ & _ & Hps & Hds & _)]; [done|].
  unfold joined. rewrite Hps, Hds, dom_insert_L. set_solver.
Qed.

Lemma step_joined g g' : step g g' → joined g ⊆ joined g'.
Proof.
  destruct 1 as [rnd lp id hp0 pts0 c0 st g| id c g | roll id c g | g d _
                | rnd perkOf row g | g].
  - apply join_joined.
  - unfold moveToCoord, joined.
    repeat case_match; cbn; try done;
      rewrite ?dom_insert_L; set_solver.
  - destruct (doAttack roll id c g) as [g' [err|out]] eqn:Hd.
    + apply doAttack_inl in Hd as ->. done.
    + apply doAttack_inr in Hd as (p & e & _ & _ & _ & _ & _ & Hd). cbn in *.
      set (g2 := withPlayers _ _) in Hd.
      assert (H2 : joined g ⊆ joined g2).
      { unfold joined, g2. cbn. rewrite dom_insert_L. set_solver. }
      pose proof (foldl_applyShot_joined (getUsername id) p (isKamikazeShot p c)
                    (affectedPlayers e) g2) as H3.
      destruct (snd _).
      * destruct Hd as [_ ->].
        destruct (fst (checkForEndOfGame _)); cbn; set_solver.
      * destruct Hd as [-> _]. done.
  - unfold joined, handleGameTick. cbn. by rewrite dom_fmap_L.
  - unfold restorePlayer.
    pose proof (join_joined (rnd (user_id row)) (perkOf (user_id row))
                (user_id row) (Some (stored_hp row)) (Some (stored_points row))
                (Some (stored_x row, stored_y row)) (stored_team row) g) as Hj.
    destruct (join _ _ _ _ _ _ _ g) as [g1 [[err|pl]|]]; cbn in *; try done.
    case_decide; [|done]. etrans; [exact Hj | apply killPlayer_joined].
  - done.
Qed.

Lemma livingList_length g : length (livingList g) = size (players g).
Proof. unfold livingList. by rewrite length_fmap, length_map_to_list. Qed.

Lemma livingList_bound g :
  (length (livingList g) ≤ size (joined g))%nat.
Proof.
  rewrite livingList_length, <- (size_dom (D := gset string)).
  apply subseteq_size. unfold joined. set_solver.
Qed.

(** *** [chooseTeam] finds a team *)

Lemma init_counts_head (t0 : Team.t) ts rest :
  ∃ rest', foldl (λ m t, mapSet t (Some 0) m) ((t0, Some 0) :: rest) ts
           = (t0, Some 0) :: rest'.
Proof.
  revert rest. induction ts as [|t ts IH]; intros rest; cbn; [eauto|].
  destruct (decide (t0 = t)) as [->|]; apply IH.
Qed.

Lemma countPlayer_head (t0 : Team.t) k rest p :
  ∃ k' rest', countPlayer ((t0, Some k) :: rest) p = (t0, Some k') :: rest'
              ∧ k ≤ k' ≤ k + 1.
Proof.
  unfold countPlayer. destruct (team p) as [t|]; [|exists k, rest; split; [done|lia]].
  cbn. destruct (decide (t0 = t)) as [->|].
  - exists (k + 1), rest. split; [done|lia].
  - eexists k, _. split; [done|lia].
Qed.

Lemma foldl_countPlayer_head (t0 : Team.t) k rest ps :
  ∃ k' rest', foldl countPlayer ((t0, Some k) :: rest) ps
              = (t0, Some k') :: rest'
              ∧ k ≤ k' ≤ k + Z.of_nat (length ps).
Proof.
  revert k rest. induction ps as [|p ps IH]; intros k rest; cbn [foldl].
  - exists k, rest. split; [done|cbn; lia].
  - destruct (countPlayer_head t0 k rest p) as (k1 & r1 & -> & Hk1).
    destruct (IH k1 r1) as (k2 & r2 & -> & Hk2).
    exists k2, r2. split; [done|]. cbn [length]. lia.
Qed.

Lemma foldl_pickMinimum_Some acc counts :
  is_Some (fst acc) → is_Some (fst (foldl pickMinimum acc counts)).
Proof.
  revert acc. induction counts as [|e es IH]; intros acc Hacc; cbn; [done|].
  apply IH. unfold pickMinimum. destruct (snd e); [|done].
  case_decide; cbn; eauto.
Qed.

Lemma chooseTeam_is_Some g ts :
  teams (rules g) = Some ts → ts ≠ [] →
  Z.of_nat (length (livingList g)) ≤ MAX_SAFE_INTEGER →
  ∃ t, chooseTeam g = Returns (Some t).
Proof.
  intros Hts Hne Hbound. unfold chooseTeam, teamUserCount. rewrite Hts.
  destruct ts as [|t0 ts]; [done|]. cbn [foldl mapSet].
  destruct (init_counts_head t0 ts []) as (r0 & ->).
  destruct (foldl_countPlayer_head t0 0 r0 (livingList g)) as (k & r & -> & Hk).
  cbn [foldl]. unfold pickMinimum at 2. cbn [snd fst].
  destruct (decide (k ≤ MAX_SAFE_INTEGER)); [|lia].
  destruct (foldl_pickMinimum_Some (Some t0, k) r) as [t Ht]; [by eexists|].
  exists t. by rewrite Ht.
Qed.

(** *** Teams: everybody or nobody *)

Lemma newGame_teamsConfigured mapSpec r g :
  newGame mapSpec r = Returns g → teamsConfigured g.
Proof.
  unfold newGame, checkTeams.
  destruct (Partial.teams r) as [ts|] eqn:Hts.
  - case_decide as Hlen; [done|]. intros [= <-] ts'. cbn.
    intros [= <-] ->. cbn in Hlen. lia.
  - intros [= <-] ts'. done.
Qed.

Lemma join_teamRule rnd lp id hp0 pts0 c0 st g pl :
  teamsConfigured g →
  Z.of_nat (length (livingList g)) ≤ MAX_SAFE_INTEGER →
  snd (join rnd lp id hp0 pts0 c0 st g) = Returns (inr pl) →
  teamRule (rules g) pl.
Proof.
  intros Hconf Hbound Hres.
  destruct (join_cases rnd lp id hp0 pts0 c0 st g)
    as [[_ Hno]|(pl' & Hres' & _ & _ & _ & _ & _ & Hteam & _)];
    [by destruct (Hno pl)|].
  rewrite Hres in Hres'. injection Hres' as <-.
  unfold teamRule, teamForJoin in *.
  destruct (teams (rules g)) as [ts|] eqn:Hts; [|by injection Hteam].
  destruct (restoreTeam ts st) as [t|].
  - injection Hteam as <-. by eexists.
  - destruct (chooseTeam_is_Some g ts Hts (Hconf ts Hts) Hbound) as [t Ht].
    rewrite Ht in Hteam. injection Hteam as <-. by eexists.
Qed.

(** In a reachable match that fewer than 2^53 players ever joined, every
    player on either roster has a team when teams are configured and has
    none when they are not. *)
Lemma reachable_teamRule g :
  reachable g →
  Z.of_nat (size (joined g)) ≤ MAX_SAFE_INTEGER →
  teamsConfigured g ∧ rostersOk (teamRule (rules g)) g.
Proof.
  induction 1 as [mapSpec r g Hnew | g g' _ IH Hstep]; intros Hbound.
  - split; [by eapply newGame_teamsConfigured | by eapply newGame_rostersOk].
  - pose proof (subseteq_size _ _ (step_joined _ _ Hstep)) as Hsize.
    destruct IH as [Hconf Hg]; [lia|].
    rewrite (step_rules _ _ Hstep). split.
    + intros ts. rewrite (step_rules _ _ Hstep). apply Hconf.
    + eapply step_rostersOk; eauto using stable_teamRule.
      intros. eapply join_teamRule; eauto.
      pose proof (livingList_bound g). lia.
Qed.

(** *** End of the match *)

Lemma elem_of_alivePlayers g p :
  p ∈ alivePlayers g → ∃ k, players g !! k = Some p.
Proof.
  unfold alivePlayers, livingList. rewrite list_elem_of_filter.
  intros [_ Hp]. apply list_elem_of_fmap in Hp as ([k p'] & -> & Hp).
  exists k. by apply elem_of_map_to_list.
Qed.

Lemma elem_of_aliveTeams g n :
  n ∈ aliveTeams g ↔
  ∃ p, p ∈ alivePlayers g ∧ Team.name <$> team p = Some n.
Proof.
  unfold aliveTeams. rewrite elem_of_list_to_set, list_elem_of_omap.
  done.
Qed.

Lemma aliveTeams_single r g :
  rosterOk (teamRule r) (players g) →
  alivePlayers g ≠ [] →
  size (aliveTeams g) = 1%nat ↔ shareSingleTeam (alivePlayers g).
Proof.
  intros Hg Hne. split.
  - intros Hsize. apply size_1_elem_of in Hsize as [n Hn].
    exists n. intros q Hq.
    assert (Hnin : n ∈ aliveTeams g) by (rewrite Hn; set_solver).
    apply elem_of_aliveTeams in Hnin as (p & Hp & Hpn).
    destruct (elem_of_alivePlayers _ _ Hp) as [kp Hkp].
    destruct (elem_of_alivePlayers _ _ Hq) as [kq Hkq].
    destruct (Hg kp p Hkp) as [_ Hrp]. destruct (Hg kq q Hkq) as [_ Hrq].
    unfold teamRule in *. destruct (teams r).
    + destruct Hrq as [tq Htq].
      assert (Hin : Team.name tq ∈ aliveTeams g).
      { apply elem_of_aliveTeams. exists q. by rewrite Htq. }
      rewrite Hn in Hin. apply elem_of_singleton in Hin.
      rewrite Htq. cbn. by rewrite Hin.
    + by rewrite Hrp in Hpn.
  - intros [n Hn].
    assert (Heq : aliveTeams g ≡ {[n]}).
    { intros x. rewrite elem_of_aliveTeams, elem_of_singleton. split.
      - intros (p & Hp & Hx). rewrite (Hn p Hp) in Hx. congruence.
      - intros ->. destruct (alivePlayers g) as [|p ps] eqn:Hal; [done|].
        exists p. split; [left|]. apply Hn. left. }
    rewrite Heq. apply size_singleton.
Qed.

Lemma checkForEndOfGame_iff r g :
  rosterOk (teamRule r) (players g) →
  fst (checkForEndOfGame g) = true ↔
    length (alivePlayers g) = 0%nat
    ∨ length (alivePlayers g) = 1%nat
    ∨ shareSingleTeam (alivePlayers g).
Proof.
  intros Hg. unfold checkForEndOfGame.
  destruct (decide (length (alivePlayers g) = 0%nat)) as [Hz|Hnz];
    [cbn; tauto|].
  assert (Hne : alivePlayers g ≠ []) by (intros Hnil; by rewrite Hnil in Hnz).
  pose proof (aliveTeams_single r g Hg Hne) as Hteams.
  destruct (bool_decide (length (alivePlayers g) = 1%nat)) eqn:Hone;
    [apply bool_decide_eq_true in Hone | apply bool_decide_eq_false in Hone];
    cbn; [tauto|].
  destruct (bool_decide (size (aliveTeams g) = 1%nat)) eqn:Hsz;
    [apply bool_decide_eq_true in Hsz | apply bool_decide_eq_false in Hsz];
    cbn; [tauto|].
  split; [done|]. intros [?|[?|?]]; tauto.
Qed.

(** In a reachable match (that fewer than 2^53 players ever joined) the
    living roster never mixes players with a team and players without. *)
Lemma reachable_no_mixed_roster g kp kq p q :
  reachable g →
  Z.of_nat (size (joined g)) ≤ MAX_SAFE_INTEGER →
  players g !! kp = Some p → players g !! kq = Some q →
  is_Some (team p) → team q = None → False.
Proof.
  intros Hreach Hbound Hkp Hkq [tp Htp] Htq.
  destruct (reachable_teamRule g Hreach Hbound) as [_ [Hliving _]].
  destruct (Hliving kp p Hkp) as [_ Hrp].
  destruct (Hliving kq q Hkq) as [_ Hrq].
  unfold teamRule in *. destruct (teams (rules g)).
  - rewrite Htq in Hrq. by destruct Hrq.
  - congruence.
Qed.

(** C3: after a hit that [doAttack] resolved in a reachable match (that
    fewer than 2^53 players ever joined), the match is marked ended, in its
    flag and in the result of the call, exactly when no living player
    remains, or exactly one, or all those who remain are on one team; a
    match with at least two living players of whom some have a team and
    some have none is not ended (no reachable match has such a roster,
    [reachable_no_mixed_roster]). *)
Theorem doAttack_ends_match_iff roll id c g g' out :
  reachable g →
  Z.of_nat (size (joined g)) ≤ MAX_SAFE_INTEGER →
  doAttack roll id c g = (g', inr out) →
  ShotOutcome.shotResult out = Hit →
  ShotOutcome.ended out = ended g'
  ∧ (ended g' = true ↔
       length (alivePlayers g') = 0%nat
       ∨ length (alivePlayers g') = 1%nat
       ∨ shareSingleTeam (alivePlayers g'))
  ∧ ((2 ≤ length (alivePlayers g'))%nat →
     (∃ p q, p ∈ alivePlayers g' ∧ q ∈ alivePlayers g'
             ∧ is_Some (team p) ∧ team q = None) →
     ended g' = false).
Proof.
  intros Hreach Hbound Hd Hhit.
  destruct (reachable_teamRule g Hreach Hbound) as [_ Hg].
  pose proof (doAttack_rostersOk _ roll id c g (stable_teamRule (rules g)) Hg)
    as Hg'.
  rewrite Hd in Hg'. cbn in Hg'. destruct Hg' as [Hliving _].
  assert (Hflag : ShotOutcome.ended out = fst (checkForEndOfGame g')
                  ∧ ended g' = fst (checkForEndOfGame g')).
  { apply doAttack_inr in Hd as (p & e & _ & _ & Hended & _ & Hshot & Hstages).
    cbn in *. rewrite <- Hshot, Hhit in Hstages. destruct Hstages as [-> ->].
    set (g2 := withPlayers _ _).
    destruct (foldl_applyShot_sameBoard (getUsername id) p (isKamikazeShot p c)
                (affectedPlayers e) g2) as (_ & _ & He3 & _).
    set (g3 := foldl _ g2 _) in *.
    destruct (fst (checkForEndOfGame g3)) eqn:Hcheck.
    - change (checkForEndOfGame (cleanup (withEnded true g3)))
        with (checkForEndOfGame g3). by rewrite Hcheck.
    - rewrite Hcheck, He3. by split. }
  destruct Hflag as [Hout Hflag]. rewrite Hout, Hflag.
  split; [done|]. split.
  - by apply (checkForEndOfGame_iff (rules g)).
  - intros _ (p & q & Hp & Hq & [tp Htp] & Htq).
    destruct (elem_of_alivePlayers _ _ Hp) as [kp Hkp].
    destruct (elem_of_alivePlayers _ _ Hq) as [kq Hkq].
    destruct (Hliving kp p Hkp) as [_ Hrp].
    destruct (Hliving kq q Hkq) as [_ Hrq].
    unfold teamRule in *. destruct (teams (rules g)).
    + rewrite Htq in Hrq. by destruct Hrq.
    + congruence.
Qed.

(** *** The blast *)

Lemma blast_cons g p k c rest :
  blast g p k (c :: rest) =
    match map g !! c with
    | None => blast g p k rest
    | Some _ =>
        match getPlayerAtLocation g c with
        | Some q =>
            if shootingTeammate p q then blast g p k rest
            else pushTile c (pushPlayer (shotEntry p q k) (blast g p k rest))
        | None => pushTile c (blast g p k rest)
        end
    end.
Proof.
  unfold getPlayerAtLocation, tryGetTile. cbn [blast].
  destruct (map g !! c) as [tile|]; [|done].
  destruct (occupied tile) as [occ|]; [|done].
  by destruct (players g !! occ).
Qed.

Lemma affectedPlayers_pushPlayer entry e :
  affectedPlayers (pushPlayer entry e) = entry :: affectedPlayers e.
Proof. reflexivity. Qed.

Lemma blast_affectedPlayers g p k tiles entry :
  entry ∈ affectedPlayers (blast g p k tiles) ↔
  ∃ c q, c ∈ tiles ∧ getPlayerAtLocation g c = Some q
         ∧ shootingTeammate p q = false ∧ entry = shotEntry p q k.
Proof.
  induction tiles as [|c rest IH].
  - cbn. split; [by intros ?%elem_of_nil|]. by intros (c & q & ?%elem_of_nil & _).
  - rewrite blast_cons.
    assert (Hlater : entry ∈ affectedPlayers (blast g p k rest) →
              ∃ c0 q, c0 ∈ c :: rest ∧ getPlayerAtLocation g c0 = Some q
                      ∧ shootingTeammate p q = false ∧ entry = shotEntry p q k).
    { intros (c0 & q & Hc0 & Hrest)%IH. exists c0, q. split; [by right|done]. }
    assert (Hskip : getPlayerAtLocation g c = None ∨
                    (∃ q, getPlayerAtLocation g c = Some q
                          ∧ shootingTeammate p q = true) →
              (∃ c0 q, c0 ∈ c :: rest ∧ getPlayerAtLocation g c0 = Some q
                       ∧ shootingTeammate p q = false ∧ entry = shotEntry p q k) →
              entry ∈ affectedPlayers (blast g p k rest)).
    { intros Hc (c0 & q & Hc0 & Hq & Hteam & ->). apply IH.
      apply elem_of_cons in Hc0 as [->|Hc0]; [|by exists c0, q].
      destruct Hc as [Hc|(q' & Hc & Hq')]; congruence. }
    destruct (map g !! c) as [tile|] eqn:Htile.
    + destruct (getPlayerAtLocation g c) as [q|] eqn:Hq.
      * destruct (shootingTeammate p q) eqn:Hteam.
        -- split; [done|]. apply Hskip. right. by exists q.
        -- cbn. rewrite elem_of_cons. split.
           ++ intros [->|Hin]; [|by apply Hlater].
              exists c, q. split; [by left|done].
           ++ intros (c0 & q0 & Hc0 & Hq0 & Hteam0 & ->).
              apply elem_of_cons in Hc0 as [->|Hc0].
              ** left. congruence.
              ** right. apply IH. by exists c0, q0.
      * cbn. split; [done|]. apply Hskip. by left.
    + split; [done|]. apply Hskip. left.
      unfold getPlayerAtLocation, tryGetTile. by rewrite Htile.
Qed.

Lemma blast_affectedTiles g p k tiles c :
  c ∈ affectedTiles (blast g p k tiles) ↔
  c ∈ tiles ∧ is_Some (map g !! c)
  ∧ ∀ q, getPlayerAtLocation g c = Some q → shootingTeammate p q = false.
Proof.
  induction tiles as [|c0 rest IH].
  - cbn. split; [by intros ?%elem_of_nil|]. by intros [?%elem_of_nil _].
  - rewrite blast_cons, elem_of_cons.
    destruct (decide (c = c0)) as [->|Hne].
    + destruct (map g !! c0) as [tile|] eqn:Htile.
      * destruct (getPlayerAtLocation g c0) as [q|] eqn:Hq.
        -- destruct (shootingTeammate p q) eqn:Hteam.
           ++ rewrite IH. split; [tauto|]. intros (_ & _ & Hall).
              specialize (Hall q eq_refl). congruence.
           ++ cbn. rewrite elem_of_cons. split; [|by left].
              intros _. split; [by left|]. split; [done|].
              by intros q' [= <-].
        -- cbn. rewrite elem_of_cons. split; [|by left].
           intros _. split; [by left|]. done.
      * rewrite IH. split; [tauto|]. intros (_ & [? ?] & _). done.
    + assert (Hrest : c ∈ affectedTiles (blast g p k rest) ↔
                (c = c0 ∨ c ∈ rest) ∧ is_Some (map g !! c)
                ∧ ∀ q, getPlayerAtLocation g c = Some q →
                       shootingTeammate p q = false).
      { rewrite IH. tauto. }
      destruct (map g !! c0); [|done].
      destruct (getPlayerAtLocation g c0) as [q|];
        [destruct (shootingTeammate p q)|]; cbn; rewrite ?elem_of_cons;
        tauto.
Qed.

Lemma getPlayerAtLocation_Some g c q :
  getPlayerAtLocation g c = Some q →
  ∃ occupant, occupied <$> map g !! c = Some (Some occupant)
              ∧ players g !! occupant = Some q.
Proof.
  unfold getPlayerAtLocation, tryGetTile.
  destruct (map g !! c) as [tile|]; [|done].
  destruct (occupied tile) as [occ|] eqn:Hocc; [|done].
  intros Hq. exists occ. cbn. by rewrite Hocc.
Qed.

(** *** Who a shot leaves alone *)

Lemma mutatePlayer_other ref f g k :
  ref ≠ k → players (mutatePlayer ref f g) !! k = players g !! k.
Proof.
  intros Hne. unfold mutatePlayer.
  destruct (players g !! ref); cbn; [by rewrite lookup_insert_ne|done].
Qed.

Lemma applyShot_other who attacker isK g entry k :
  rostersOk (λ _, True) g → player entry ≠ k →
  players (applyShot who attacker isK g entry) !! k = players g !! k.
Proof.
  intros Hg Hne. unfold applyShot.
  set (g1 := mutatePlayer _ _ g).
  assert (Hg1 : rostersOk (λ _, True) g1).
  { by apply mutatePlayer_rostersOk. }
  assert (H1 : players g1 !! k = players g !! k).
  { by apply mutatePlayer_other. }
  destruct (playerObject g1 (player entry)) as [target|] eqn:Ht; [|done].
  destruct (playerObject_rostersOk _ _ _ _ Hg1 Ht) as [Hid _].
  destruct (decide (hp target = 0)); cbn; [|done].
  rewrite lookup_delete_ne; [done|congruence].
Qed.

Lemma foldl_applyShot_other who attacker isK entries g k :
  rostersOk (λ _, True) g →
  (∀ entry, entry ∈ entries → player entry ≠ k) →
  players (foldl (applyShot who attacker isK) g entries) !! k = players g !! k.
Proof.
  revert g. induction entries as [|e es IH]; intros g Hg Hall; cbn; [done|].
  rewrite IH.
  - apply applyShot_other; [done|]. apply Hall. by left.
  - apply applyShot_rostersOk; [apply stable_True|done].
  - intros entry Hin. apply Hall. by right.
Qed.

Lemma shootingTeammate_true p q tq tp :
  userId q ≠ userId p → team q = Some tq → team p = Some tp →
  Team.name tq = Team.name tp → shootingTeammate p q = true.
Proof.
  intros Hne Hq Hp Hname. unfold shootingTeammate. rewrite Hq, Hp.
  by rewrite !bool_decide_eq_true_2.
Qed.

(** C7 (amended): in a reachable match, a living player other than the
    attacker who shares the attacker's team is in no entry of the shot's
    affected players and keeps the same health through [doAttack], and the
    cell that player stands on is not among the affected tiles. *)
Theorem teammate_is_spared roll id c g p e c' q tq tp :
  reachable g →
  players g !! id = Some p →
  canAttack id c g = inr e →
  getPlayerAtLocation g c' = Some q →
  userId q ≠ userId p →
  team q = Some tq → team p = Some tp → Team.name tq = Team.name tp →
  (c' ∉ affectedTiles e)
  ∧ (∀ entry, entry ∈ affectedPlayers e → player entry ≠ userId q)
  ∧ players (fst (doAttack roll id c g)) !! userId q = Some q.
Proof.
  intros Hreach Hp He Hq Hne Htq Htp Hname.
  pose proof (reachable_rostersOk g Hreach) as Hkeys.
  pose proof (shootingTeammate_true p q tq tp Hne Htq Htp Hname) as Hmate.
  destruct (canAttack_inr _ _ _ _ He) as (Hended & p' & Hp' & Hblast).
  assert (p' = p) as -> by congruence.
  destruct (getPlayerAtLocation_Some _ _ _ Hq) as (occ & _ & Hocc).
  destruct (rosterOk_lookup _ _ _ _ (proj1 Hkeys) Hocc) as [Hqid _].
  destruct (rosterOk_lookup _ _ _ _ (proj1 Hkeys) Hp) as [Hpid _].
  assert (Hentries : ∀ entry, entry ∈ affectedPlayers e →
                               player entry ≠ userId q).
  { intros entry Hin Heq. rewrite Hblast in Hin.
    apply blast_affectedPlayers in Hin as (c0 & q0 & _ & Hq0 & Hteam0 & ->).
    cbn in Heq.
    destruct (getPlayerAtLocation_Some _ _ _ Hq0) as (occ0 & _ & Hocc0).
    destruct (rosterOk_lookup _ _ _ _ (proj1 Hkeys) Hocc0) as [Hq0id _].
    assert (q0 = q) as -> by congruence. congruence. }
  split; [|split; [exact Hentries|]].
  - rewrite Hblast. intros (_ & _ & Hall)%blast_affectedTiles.
    specialize (Hall q Hq). congruence.
  - unfold doAttack. rewrite He, Hp.
    destruct (Player_attack_fst roll (killedPlayers e) (isKamikazeShot p c) p)
      as [v Hv].
    destruct (Player_attack _ _ _ _) as [a1 shot]. cbn in Hv. subst a1.
    set (g2 := withPlayers _ _).
    assert (Hg2 : rostersOk (λ _, True) g2).
    { split; cbn; [|apply Hkeys].
      apply rosterOk_insert; [apply Hkeys|done|done]. }
    assert (H2 : players g2 !! userId q = Some q).
    { cbn. rewrite lookup_insert_ne; congruence. }
    destruct shot; [|done].
    pose proof (foldl_applyShot_other (getUsername id) p (isKamikazeShot p c)
                  (affectedPlayers e) g2 (userId q) Hg2 Hentries) as H3.
    destruct (checkForEndOfGame _) as [[] winners]; cbn; congruence.
Qed.

(** C2 (amended): when a living attacker with the Kamikaze perk targets the
    cell the attacker stands on, the effect is the blast of radius 2 around
    it whatever the weapon; the affected players are the living occupants
    of the blast that are not teammates of the attacker, and each loses,
    down to no less than zero health, the attacker's whole health if it is
    the attacker and half of the global constant DEFAULT_STARTING_HP,
    rounded down, otherwise; and an attacker whom a cell of the blast
    records is recorded as losing all the health the attacker had. *)
Theorem kamikaze_resolution id c g p e :
  players g !! id = Some p →
  isKamikazeShot p c = true →
  canAttack id c g = inr e →
  let tiles := getTilesInRadius (map g) c 2 false in
  e = blast g p true tiles
  ∧ (∀ entry, entry ∈ affectedPlayers e →
       ∃ c' q, c' ∈ tiles ∧ getPlayerAtLocation g c' = Some q
         ∧ player entry = userId q
         ∧ oldHP entry = hp q
         ∧ newHP entry =
             Z.max (hp q - (if decide (userId q = userId p) then hp p
                            else DEFAULT_STARTING_HP `div` 2)) 0
         ∧ damageTaken entry = oldHP entry - newHP entry)
  ∧ (∀ c' q, c' ∈ tiles → getPlayerAtLocation g c' = Some q →
       shootingTeammate p q = false →
       ∃ entry, entry ∈ affectedPlayers e
         ∧ player entry = userId q
         ∧ oldHP entry = hp q
         ∧ newHP entry =
             Z.max (hp q - (if decide (userId q = userId p) then hp p
                            else DEFAULT_STARTING_HP `div` 2)) 0
         ∧ damageTaken entry = oldHP entry - newHP entry)
  ∧ (∀ c', c' ∈ tiles → occupied <$> map g !! c' = Some (Some id) →
       mkPlayerShotEffect (userId p) (hp p) 0 (hp p) ∈ affectedPlayers e).
Proof.
  intros Hp Hk He tiles.
  destruct (canAttack_inr _ _ _ _ He) as (_ & p' & Hp' & Hblast).
  assert (p' = p) as -> by congruence.
  unfold blastRadius in Hblast. rewrite Hk in Hblast. fold tiles in Hblast.
  split; [exact Hblast|]. split; [|split].
  - intros entry Hin. rewrite Hblast in Hin.
    apply blast_affectedPlayers in Hin as (c' & q & Hc' & Hq & _ & ->).
    exists c', q. unfold shotEntry, shotDamage. cbn. auto 10.
  - intros c' q Hc' Hq Hteam. exists (shotEntry p q true). split.
    + rewrite Hblast. apply blast_affectedPlayers. by exists c', q.
    + unfold shotEntry, shotDamage. cbn. auto.
  - intros c' Hc' Hocc. rewrite Hblast. apply blast_affectedPlayers.
    exists c', p. split; [done|].
    assert (Hat : getPlayerAtLocation g c' = Some p).
    { unfold getPlayerAtLocation, tryGetTile.
      destruct (map g !! c') as [tile|]; [|done]. cbn in Hocc.
      injection Hocc as ->. done. }
    split; [done|]. split.
    + unfold shootingTeammate. by rewrite bool_decide_eq_false_2 by tauto.
    + unfold shotEntry, shotDamage. rewrite decide_True by done.
      f_equal; lia.
Qed.

(** *** [chooseTeam] picks the last of the least populated teams *)

Lemma mapSet_fresh {V : Type} (k : Team.t) (v : V) (m : list (Team.t * V)) :
  k ∉ m.*1 → mapSet k v m = m ++ [(k, v)].
Proof.
  induction m as [|[k' v'] m IH]; cbn; [done|].
  rewrite not_elem_of_cons. intros [Hne Hnin].
  destruct (decide (k' = k)); [congruence|]. by rewrite IH.
Qed.

Lemma tally_keys f ts : (tally f ts).*1 = ts.
Proof.
  unfold tally. rewrite <- list_fmap_compose. cbn.
  induction ts as [|t ts IH]; cbn; [done|]. by f_equal.
Qed.

Lemma mapGet_tally f ts extra t :
  t ∈ ts → mapGet t (tally f ts ++ extra) = Some (Some (f t)).
Proof.
  induction ts as [|t0 ts IH]; [by intros ?%elem_of_nil|].
  intros Hin. cbn. destruct (decide (t0 = t)) as [->|Hne]; [done|].
  apply IH. apply elem_of_cons in Hin as [?|?]; congruence.
Qed.

Lemma mapGet_foreign f ts extra t :
  t ∉ ts → foreignCounts ts extra →
  mapGet t (tally f ts ++ extra) = None
  ∨ mapGet t (tally f ts ++ extra) = Some None.
Proof.
  intros Hnin Hextra. induction ts as [|t0 ts IH]; cbn.
  - clear Hnin. induction Hextra as [|[k v] extra [_ Hv] _ IH]; cbn; [by left|].
    cbn in Hv. subst v. destruct (decide (k = t)); [by right|done].
  - apply not_elem_of_cons in Hnin as [Hne Hnin].
    destruct (decide (t0 = t)); [congruence|]. apply IH; [done|].
    eapply Forall_impl; [exact Hextra|]. cbn. intros e [He ?].
    split; [|done]. by apply not_elem_of_cons in He as [_ ?].
Qed.

Lemma mapSet_tally f ts extra t v :
  NoDup ts → t ∈ ts →
  mapSet t (Some v) (tally f ts ++ extra)
  = tally (λ t', if decide (t' = t) then v else f t') ts ++ extra.
Proof.
  induction ts as [|t0 ts IH]; [by intros _ ?%elem_of_nil|].
  intros [Hnin Hnd]%NoDup_cons Hin. cbn.
  destruct (decide (t0 = t)) as [->|Hne].
  - f_equal. f_equal. unfold tally. apply list_fmap_ext.
    intros i t' Ht'. destruct (decide (t' = t)) as [->|]; [|done].
    destruct Hnin. by eapply list_elem_of_lookup_2.
  - f_equal. apply IH; [done|].
    apply elem_of_cons in Hin as [?|?]; congruence.
Qed.

Lemma mapSet_foreign f ts extra t :
  t ∉ ts → foreignCounts ts extra →
  ∃ extra', mapSet t None (tally f ts ++ extra) = tally f ts ++ extra'
            ∧ foreignCounts ts extra'.
Proof.
  intros Hnin Hextra.
  assert (Hx : ∃ extra', mapSet t None extra = extra'
                         ∧ foreignCounts ts extra').
  { eexists. split; [done|].
    induction Hextra as [|[k v] extra [Hk Hv] Hrest IH]; cbn.
    - by repeat constructor.
    - destruct (decide (k = t)); constructor; cbn; auto. }
  destruct Hx as (extra' & Hset & Hextra'). exists extra'. split; [|done].
  clear Hextra Hextra'. rewrite <- Hset. clear Hset.
  induction ts as [|t0 ts IH]; cbn; [done|].
  apply not_elem_of_cons in Hnin as [Hne Hnin].
  destruct (decide (t0 = t)); [congruence|]. f_equal. by apply IH.
Qed.

Lemma firstListings_snoc ts x :
  firstListings (ts ++ [x])
  = if decide (x ∈ firstListings ts) then firstListings ts
    else firstListings ts ++ [x].
Proof. unfold firstListings. by rewrite foldl_app. Qed.

Lemma elem_of_firstListings ts t : t ∈ firstListings ts ↔ t ∈ ts.
Proof.
  induction ts as [|x ts IH] using rev_ind; [done|].
  rewrite firstListings_snoc, elem_of_app, list_elem_of_singleton, <- IH.
  destruct (decide (x ∈ firstListings ts)) as [Hin|Hnin].
  - split; [by left|]. intros [Ht|Ht]; [done|by subst].
  - by rewrite elem_of_app, list_elem_of_singleton.
Qed.

Lemma NoDup_firstListings ts : NoDup (firstListings ts).
Proof.
  induction ts as [|x ts IH] using rev_ind; [constructor|].
  rewrite firstListings_snoc.
  destruct (decide (x ∈ firstListings ts)) as [Hin|Hnin]; [done|].
  apply NoDup_app. split; [done|]. split; [|apply NoDup_singleton].
  intros t Ht ->%list_elem_of_singleton. done.
Qed.

Lemma mapSet_listed (t : Team.t) ks :
  t ∈ ks → mapSet t (Some 0) (tally (λ _, 0) ks) = tally (λ _, 0) ks.
Proof.
  induction ks as [|k ks IH]; [by intros ?%elem_of_nil|].
  intros Hin. cbn. destruct (decide (k = t)) as [->|Hne]; [done|].
  f_equal. apply IH. apply elem_of_cons in Hin as [?|?]; congruence.
Qed.

(** The first loop of [chooseTeam]: a count of zero for every team, in the
    order of their first listing. *)
Lemma init_counts ts :
  foldl (λ m t, mapSet t (Some 0) m) [] ts
  = tally (λ _, 0) (firstListings ts).
Proof.
  induction ts as [|x ts IH] using rev_ind; [done|].
  rewrite foldl_app, firstListings_snoc. cbn [foldl]. rewrite IH.
  destruct (decide (x ∈ firstListings ts)) as [Hin|Hnin].
  - by apply mapSet_listed.
  - rewrite mapSet_fresh by (by rewrite tally_keys).
    unfold tally. by rewrite fmap_app.
Qed.

Lemma membersIn_cons p ps t :
  membersIn (p :: ps) t
  = (if decide (team p = Some t) then 1 else 0) + membersIn ps t.
Proof.
  unfold membersIn. rewrite filter_cons.
  destruct (decide (team p = Some t)); cbn [length]; lia.
Qed.

Lemma countPlayer_tally f ts extra p :
  NoDup ts → foreignCounts ts extra →
  ∃ extra',
    countPlayer (tally f ts ++ extra) p
    = tally (λ t, f t + (if decide (team p = Some t) then 1 else 0)) ts
        ++ extra'
    ∧ foreignCounts ts extra'.
Proof.
  intros Hnd Hextra. unfold countPlayer.
  destruct (team p) as [t|] eqn:Hteam.
  - destruct (decide (t ∈ ts)) as [Hin|Hnin].
    + rewrite mapGet_tally by done. rewrite mapSet_tally by done.
      exists extra. split; [|done]. f_equal. apply list_fmap_ext.
      intros i t' _. repeat case_decide; try congruence; f_equal; f_equal; lia.
    + destruct (mapSet_foreign f ts extra t Hnin Hextra)
        as (extra' & Hset & Hextra').
      exists extra'. split; [|done].
      replace (tally (λ t0, f t0 + (if decide (Some t = Some t0) then 1 else 0))
                 ts) with (tally f ts).
      * destruct (mapGet_foreign f ts extra t Hnin Hextra) as [-> | ->]; done.
      * apply list_fmap_ext. intros i t' Ht'.
        rewrite decide_False; [do 2 f_equal; lia|].
        intros [= ->]. destruct Hnin. by eapply list_elem_of_lookup_2.
  - exists extra. split; [|done]. f_equal. apply list_fmap_ext.
    intros i t' _. rewrite decide_False by done. do 2 f_equal. lia.
Qed.

Lemma foldl_countPlayer_tally f ts extra ps :
  NoDup ts → foreignCounts ts extra →
  ∃ extra',
    foldl countPlayer (tally f ts ++ extra) ps
    = tally (λ t, f t + membersIn ps t) ts ++ extra'
    ∧ foreignCounts ts extra'.
Proof.
  intros Hnd. revert f extra.
  induction ps as [|p ps IH]; intros f extra Hextra; cbn [foldl].
  - exists extra. split; [|done]. f_equal. apply list_fmap_ext.
    intros i t _. unfold membersIn. cbn. do 2 f_equal. lia.
  - destruct (countPlayer_tally f ts extra p Hnd Hextra)
      as (extra1 & -> & Hextra1).
    destruct (IH (λ t, f t + (if decide (team p = Some t) then 1 else 0))
                 extra1 Hextra1) as (extra2 & -> & Hextra2).
    exists extra2. split; [|done]. f_equal. apply list_fmap_ext.
    intros i t _. rewrite membersIn_cons. do 2 f_equal. lia.
Qed.

Lemma teamUserCount_tally ts ps :
  ∃ extra,
    teamUserCount ts ps = tally (membersIn ps) (firstListings ts) ++ extra
    ∧ foreignCounts (firstListings ts) extra.
Proof.
  unfold teamUserCount. rewrite init_counts.
  destruct (foldl_countPlayer_tally (λ _, 0) (firstListings ts) [] ps
              (NoDup_firstListings ts))
    as (extra & Hfold & Hextra); [constructor|].
  rewrite <- (app_nil_r (tally _ (firstListings ts))), Hfold.
  exists extra. split; [|done]. f_equal.
Qed.

Lemma foldl_pickMinimum_foreign ts extra acc :
  foreignCounts ts extra → foldl pickMinimum acc extra = acc.
Proof.
  induction 1 as [|[k v] extra [_ Hv] _ IH]; cbn; [done|].
  cbn in Hv. subst v. unfold pickMinimum at 2. cbn. exact IH.
Qed.

Lemma pickMinimum_last_least f ts :
  (∀ t, t ∈ ts → f t ≤ MAX_SAFE_INTEGER) → ts ≠ [] →
  ∃ i t, ts !! i = Some t ∧ (t ∉ take i ts)
    ∧ foldl pickMinimum (None, MAX_SAFE_INTEGER) (tally f (firstListings ts))
      = (Some t, f t)
    ∧ (∀ t', t' ∈ ts → f t ≤ f t')
    ∧ (∀ j t', ts !! j = Some t' → (i < j)%nat → t' ∉ take j ts →
               f t < f t').
Proof.
  induction ts as [|x ts IH] using rev_ind; [done|].
  intros Hbound _. rewrite firstListings_snoc.
  assert (Hbound' : ∀ t, t ∈ ts → f t ≤ MAX_SAFE_INTEGER).
  { intros t' Ht'. apply Hbound. apply elem_of_app. by left. }
  destruct (decide (x ∈ firstListings ts)) as [Hin|Hnin].
  - rewrite elem_of_firstListings in Hin.
    destruct IH as (i & t & Hi & Hfirst & Hfold & Hmin & Hlater); [done| |].
    { intros ->. by apply elem_of_nil in Hin. }
    pose proof (lookup_lt_Some _ _ _ Hi) as Hlt.
    exists i, t. split_and!.
    + by apply lookup_app_l_Some.
    + rewrite take_app_le by lia. done.
    + done.
    + intros t' [Ht'| ->%list_elem_of_singleton]%elem_of_app; auto.
    + intros j t' Hj Hij Hnew.
      apply lookup_app_Some in Hj as [Hj|[Hlen Hj]].
      * pose proof (lookup_lt_Some _ _ _ Hj).
        rewrite take_app_le in Hnew by lia. eauto.
      * apply list_lookup_singleton_Some in Hj as [Hj <-].
        destruct Hnew. rewrite take_app_ge by lia.
        apply elem_of_app. left. done.
  - rewrite elem_of_firstListings in Hnin.
    unfold tally. rewrite fmap_app, foldl_app. cbn [fmap list_fmap foldl].
    destruct (decide (ts = [])) as [->|Hne].
    + cbn. unfold pickMinimum. cbn.
      rewrite decide_True by (apply Hbound; by left).
      exists 0%nat, x. split_and!; try done.
      * intros t' ->%list_elem_of_singleton. lia.
      * intros [|j] t' Hj Hlt; [lia|done].
    + destruct IH as (i & t & Hi & Hfirst & Hfold & Hmin & Hlater); [done..|].
      pose proof (lookup_lt_Some _ _ _ Hi) as Hlt.
      fold (tally f (firstListings ts)). rewrite Hfold.
      unfold pickMinimum. cbn.
      destruct (decide (f x ≤ f t)) as [Hle|Hgt].
      * exists (length ts), x. split_and!.
        -- by rewrite list_lookup_middle.
        -- by rewrite take_app_length.
        -- done.
        -- intros t' [Ht'| ->%list_elem_of_singleton]%elem_of_app; [|lia].
           specialize (Hmin t' Ht'). lia.
        -- intros j t' Hj Hij. apply lookup_lt_Some in Hj.
           rewrite length_app in Hj. cbn in Hj. lia.
      * exists i, t. split_and!.
        -- by apply lookup_app_l_Some.
        -- rewrite take_app_le by lia. done.
        -- done.
        -- intros t' [Ht'| ->%list_elem_of_singleton]%elem_of_app; [auto|lia].
        -- intros j t' Hj Hij Hnew.
           apply lookup_app_Some in Hj as [Hj|[Hlen Hj]].
           ++ pose proof (lookup_lt_Some _ _ _ Hj).
              rewrite take_app_le in Hnew by lia. eauto.
           ++ apply list_lookup_singleton_Some in Hj as [_ <-]. lia.
Qed.

Lemma membersIn_bound ps t : membersIn ps t ≤ Z.of_nat (length ps).
Proof. unfold membersIn. pose proof (length_filter (λ p, team p = Some t) ps). lia. Qed.

Lemma chooseTeam_last_least g ts :
  teams (rules g) = Some ts → ts ≠ [] →
  Z.of_nat (length (livingList g)) ≤ MAX_SAFE_INTEGER →
  ∃ i t, chooseTeam g = Returns (Some t) ∧ ts !! i = Some t
    ∧ (t ∉ take i ts)
    ∧ (∀ t', t' ∈ ts → livingMembers g t ≤ livingMembers g t')
    ∧ (∀ j t', ts !! j = Some t' → (i < j)%nat → t' ∉ take j ts →
               livingMembers g t < livingMembers g t').
Proof.
  intros Hts Hne Hbound. unfold chooseTeam. rewrite Hts.
  destruct (teamUserCount_tally ts (livingList g)) as (extra & -> & Hextra).
  rewrite foldl_app, (foldl_pickMinimum_foreign _ extra _ Hextra).
  destruct (pickMinimum_last_least (membersIn (livingList g)) ts)
    as (i & t & Hi & Hfirst & -> & Hmin & Hlater); [|done|].
  { intros t _. pose proof (membersIn_bound (livingList g) t). lia. }
  exists i, t. auto.
Qed.

(** C6 (amended): with teams configured and no usable stored team, the
    joining player is put on a configured team that has the fewest living
    members, and among the teams that tie for the fewest it is the last
    one in the configured order. Teams are team objects: two configured
    teams of the same name are two teams, each with the members that hold
    that very team, and a team that the configured list names more than
    once has the place of its first listing. *)
Theorem join_assigns_last_least_team
    rnd loadedPerk id hp0 points0 coords0 storedTeam g g' pl ts :
  teams (rules g) = Some ts → ts ≠ [] →
  restoreTeam ts storedTeam = None →
  Z.of_nat (length (livingList g)) ≤ MAX_SAFE_INTEGER →
  join rnd loadedPerk id hp0 points0 coords0 storedTeam g
    = (g', Returns (inr pl)) →
  ∃ i t, team pl = Some t ∧ ts !! i = Some t ∧ (t ∉ take i ts)
    ∧ (∀ t', t' ∈ ts → livingMembers g t ≤ livingMembers g t')
    ∧ (∀ j t', ts !! j = Some t' → (i < j)%nat → t' ∉ take j ts →
               livingMembers g t < livingMembers g t').
Proof.
  intros Hts Hne Hstored Hbound Hjoin.
  destruct (join_cases rnd loadedPerk id hp0 points0 coords0 storedTeam g)
    as [[_ Hno]|(pl' & Hres & _ & _ & _ & _ & _ & Hteam & _)];
    rewrite Hjoin in *; cbn in *; [by destruct (Hno pl)|].
  injection Hres as <-.
  unfold teamForJoin in Hteam. rewrite Hts, Hstored in Hteam.
  destruct (chooseTeam_last_least g ts Hts Hne Hbound)
    as (i & t & Hchoose & Hi & Hfirst & Hmin & Hlater).
  rewrite Hchoose in Hteam. injection Hteam as Hteam.
  exists i, t. split_and!; done.
Qed.

Lemma join_timer rnd loadedPerk id hp0 points0 coords0 storedTeam g :
  let g' := fst (join rnd loadedPerk id hp0 points0 coords0 storedTeam g) in
  timer g' = timer g ∨ timer g' = Some MILLISECONDS_PER_TICK.
Proof.
  unfold join. destruct (ended g); [by left|].
  destruct (decide (is_Some (players g !! id))); [by left|].
  destruct (decide (is_Some (deadPlayers g !! id))); [by left|].
  destruct (squareForJoin rnd coords0 g); [|by left].
  destruct (teamForJoin storedTeam g); [|by left].
  cbn. destruct (_ && _); cbn; auto.
Qed.

(** [doAttack] never writes to the map. *)
Lemma doAttack_map roll id c g : map (fst (doAttack roll id c g)) = map g.
Proof.
  destruct (doAttack roll id c g) as [g' [err|out]] eqn:Hd.
  - apply doAttack_inl in Hd as ->. done.
  - apply doAttack_inr in Hd as (p & e & _ & _ & _ & _ & _ & Hd). cbn in *.
    set (g2 := withPlayers _ _) in Hd.
    destruct (foldl_applyShot_sameBoard (getUsername id) p (isKamikazeShot p c)
                (affectedPlayers e) g2) as (Hmap & _).
    destruct (snd _).
    + destruct Hd as [_ ->]. destruct (fst (checkForEndOfGame _)); exact Hmap.
    + destruct Hd as [-> _]. done.
Qed.

(** The cell of a join that supplies a coordinate depends on whether a tile
    exists there, not on who occupies it. *)
Lemma squareForJoin_supplied rnd c g :
  squareForJoin rnd (Some c) g =
    match tryGetTile (map g) c with
    | Some _ => Some c
    | None => getUnoccupiedSquare (map g) rnd
    end.
Proof. unfold squareForJoin. by destruct (tryGetTile (map g) c). Qed.

End Properties.

(** C10, at a rule set that supplies 0 for the tick interval. *)
Lemma newGame_zero_override_is_default_witness :
  millisecondsPerTick
    (rules (created (@newGame scenarioConstants gridCollaborators None zeroRules)))
  = 60000.
Proof.
  exact (proj1 (proj1 (@newGame_zero_override_is_default scenarioConstants
                         gridCollaborators None zeroRules _ eq_refl))
               eq_refl).
Defined.

(** C9, for a player with 3 points and a move that costs 5. *)
Lemma moveToCoord_insufficient_points_witness :
  @moveToCoord gridCollaborators "ann" (1, 0) brokeMatch =
    (brokeMatch,
     Returns (false,
       "You don't have enough points required to move 1 tiles. You need 5 points, but have 3 points.")).
Proof.
  apply (@moveToCoord_insufficient_points gridCollaborators "ann" (1, 0)
           brokeMatch
           (mkPlayer "ann" 3 100 5 10 1 7 (0, 0) None
                     (Weapon.mk "small missile" 30 1 5) None)
           (MoveCost.mk 5 1)).
  - reflexivity.
  - vm_compute. reflexivity.
  - vm_compute. reflexivity.
  - vm_compute. reflexivity.
Defined.

(** C8 (defect of the code): whatever the constants and the rule set, a
    join leaves the timer alone or arms it with the global constant
    MILLISECONDS_PER_TICK, and the tick re-arms it with that constant. In
    the sample match the rule set asks for a tick every 1000 ms, yet the
    timer armed at the second join and the timer the tick re-arms both wait
    for the global constant, 60000 ms there. *)
Theorem tick_timer_ignores_rule_set :
  (∀ (C : Constants) (E : Collaborators) rnd loadedPerk id hp0 points0
     coords0 storedTeam g,
     let g' := fst (@join C E rnd loadedPerk id hp0 points0 coords0
                          storedTeam g) in
     timer g' = timer g ∨ timer g' = Some (@MILLISECONDS_PER_TICK C))
  ∧ (∀ (C : Constants) (E : Collaborators) g,
       timer (@handleGameTick C E g) = Some (@MILLISECONDS_PER_TICK C))
  ∧ millisecondsPerTick (rules fastTickMatch) = 1000
  ∧ timer fastTickMatch = Some 60000
  ∧ timer (@handleGameTick scenarioConstants gridCollaborators fastTickMatch)
    = Some 60000.
Proof.
  split; [intros; apply join_timer|].
  split; [intros; apply handleGameTick_timer|].
  vm_compute. repeat split.
Qed.

(** C5 (defect of the code): the cell of a join that supplies a coordinate
    is that coordinate whenever a tile exists there, whoever occupies it.
    On a map whose only cell is taken by "ann", a join of "bob" that
    supplies that cell's coordinate is not rejected as "Game is full,
    sorry." and is not moved elsewhere: "bob" is placed on the occupied
    cell. *)
Theorem join_supplied_occupied_cell_is_used :
  (∀ (E : Collaborators) rnd c g,
     @squareForJoin E rnd (Some c) g =
       match tryGetTile (map g) c with
       | Some _ => Some c
       | None => @getUnoccupiedSquare E (map g) rnd
       end)
  ∧ occupied <$> map fullMatch !! (0, 0) = Some (Some "ann")
  ∧ @getUnoccupiedSquare gridCollaborators (map fullMatch) 0 = None
  ∧ (let '(g, result) :=
       @join scenarioConstants gridCollaborators 0 None "bob" None None
             (Some (0, 0)) None fullMatch in
     (match result with
      | Returns (inr p) => Some (coords p)
      | _ => None
      end) = Some (0, 0)
     ∧ coords <$> players g !! "bob" = Some (0, 0)
     ∧ occupied <$> map g !! (0, 0) = Some (Some "bob")).
Proof.
  split; [intros; apply squareForJoin_supplied|].
  vm_compute. repeat split.
Qed.

(** C1 (defect of the code): after "ann" and "bob" joined with the same
    coordinate, both are living on cell (0,0), which records "bob" only;
    no cell records "ann". *)
Theorem join_twice_same_cell_breaks_occupancy :
  coords <$> players crowdedMatch !! "ann" = Some (0, 0)
  ∧ coords <$> players crowdedMatch !! "bob" = Some (0, 0)
  ∧ occupied <$> map crowdedMatch !! (0, 0) = Some (Some "bob")
  ∧ filter (λ e, occupied (snd e) = Some "ann") (map_to_list (map crowdedMatch))
    = [].
Proof. vm_compute. repeat split. Qed.

(** C4 (defect of the code): [doAttack] leaves the map as it was, whatever
    the shot. "ann" shoots "bob" (30 health) dead: "bob" moves to the
    eliminated roster and "ann" is credited the kill reward (20 - 10 + 7
    points), but the cell of "bob" still records "bob". *)
Theorem doAttack_kill_keeps_cell_occupied :
  (∀ (C : Constants) (E : Collaborators) roll id c g,
     map (fst (@doAttack C E roll id c g)) = map g)
  ∧
  let g := fst (@doAttack scenarioConstants gridCollaborators true "ann" (3, 0)
                          duelMatch) in
  players g !! "bob" = None
  ∧ hp <$> deadPlayers g !! "bob" = Some 0
  ∧ points <$> players g !! "ann" = Some 17
  ∧ occupied <$> map g !! (3, 0) = Some (Some "bob").
Proof.
  split; [intros; apply doAttack_map|].
  vm_compute. repeat split.
Qed.

(** ** The properties on sample matches *)

Ltac by_joins :=
  cbv zeta; repeat (eapply reachable_step; [|apply step_join]).

Ltac by_evaluation :=
  match goal with
  | |- ?P => apply (bool_decide_unpack P); vm_compute; exact I
  end.

(** The scenario of the specification runs as it says: after her move
    "ann" has 15 points, after the hit she has 70 health and is still
    living, and "bob" has 10 points. *)
Example scenario_of_the_specification :
  points <$> players scenarioMatch !! "ann" = Some 15
  ∧ hp <$> players scenarioMatch !! "ann" = Some 70
  ∧ points <$> players scenarioMatch !! "bob" = Some 10
  ∧ ended scenarioMatch = false.
Proof. vm_compute. repeat split. Qed.

Lemma duelMatch_reachable :
  @reachable scenarioConstants gridCollaborators duelMatch.
Proof.
  unfold duelMatch. by_joins. by apply (reachable_new None Partial.empty).
Defined.

Lemma teamMatch_reachable :
  @reachable scenarioConstants gridCollaborators teamMatch.
Proof.
  unfold teamMatch, emptyTeamMatch. by_joins.
  by apply (reachable_new None teamRules).
Defined.

(** C3, for the shot of "ann" that eliminates "bob" while "cyd" lives on. *)
Lemma doAttack_ends_match_iff_witness :
  let g' := fst (@doAttack scenarioConstants gridCollaborators true "ann"
                           (3, 0) duelMatch) in
  ShotOutcome.ended
    (outcomeOf (snd (@doAttack scenarioConstants gridCollaborators true "ann"
                               (3, 0) duelMatch))) = ended g'
  ∧ (ended g' = true ↔
       length (alivePlayers g') = 0%nat
       ∨ length (alivePlayers g') = 1%nat
       ∨ shareSingleTeam (alivePlayers g'))
  ∧ ((2 ≤ length (alivePlayers g'))%nat →
     (∃ p q, p ∈ alivePlayers g' ∧ q ∈ alivePlayers g'
             ∧ is_Some (team p) ∧ team q = None) →
     ended g' = false).
Proof.
  apply (@doAttack_ends_match_iff scenarioConstants gridCollaborators
           true "ann" (3, 0) duelMatch _
           (outcomeOf (snd (@doAttack scenarioConstants gridCollaborators true
                                      "ann" (3, 0) duelMatch)))).
  - exact duelMatch_reachable.
  - by_evaluation.
  - vm_compute. reflexivity.
  - vm_compute. reflexivity.
Defined.

(** C7 as stated fails: "bob" is a teammate of "ann" in the blast of her
    shot at (3,0), and his cell (2,0) is not among the affected tiles. *)
Lemma teammate_cell_is_not_affected :
  @getTilesInRadius gridCollaborators (map teamMatch) (3, 0) 1 false
    = [(3, 0); (2, 0); (3, 1); (2, 1)]
  ∧ userId <$> getPlayerAtLocation teamMatch (2, 0) = Some "bob"
  ∧ team <$> players teamMatch !! "bob" = Some (Some red)
  ∧ team <$> players teamMatch !! "ann" = Some (Some red)
  ∧ affectedTiles
      (shotEffectOf (@canAttack scenarioConstants gridCollaborators "ann"
                                (3, 0) teamMatch))
    = [(3, 0); (3, 1); (2, 1)].
Proof. vm_compute. repeat split. Qed.

(** C7 (amended), for the same shot. *)
Lemma teammate_is_spared_witness :
  let bob := mkPlayer "bob" 20 100 5 10 1 7 (2, 0) (Some red)
                      (Weapon.mk "small missile" 30 1 5) None in
  let e := shotEffectOf (@canAttack scenarioConstants gridCollaborators "ann"
                                    (3, 0) teamMatch) in
  ((2, 0) ∉ affectedTiles e)
  ∧ (∀ entry, entry ∈ affectedPlayers e → player entry ≠ "bob")
  ∧ players (fst (@doAttack scenarioConstants gridCollaborators true "ann"
                            (3, 0) teamMatch)) !! "bob" = Some bob.
Proof.
  apply (@teammate_is_spared scenarioConstants gridCollaborators true "ann"
           (3, 0) teamMatch
           (mkPlayer "ann" 20 100 5 10 1 7 (0, 0) (Some red)
                     (Weapon.mk "small missile" 30 1 5) None)
           _ (2, 0)
           (mkPlayer "bob" 20 100 5 10 1 7 (2, 0) (Some red)
                     (Weapon.mk "small missile" 30 1 5) None)
           red red).
  - exact teamMatch_reachable.
  - vm_compute. reflexivity.
  - vm_compute. reflexivity.
  - vm_compute. reflexivity.
  - discriminate.
  - reflexivity.
  - reflexivity.
  - reflexivity.
Defined.

(** C2 as stated fails: the rule set starts players at 50 health, yet the
    kamikaze of "ann" takes 50 from "bob", half of the global constant
    100, and not 25. *)
Lemma kamikaze_damage_ignores_rule_set :
  defaultStartingHp (rules kamikazeMatch) = 50
  ∧ perk <$> players kamikazeMatch !! "ann" = Some (Some Kamikaze)
  ∧ coords <$> players kamikazeMatch !! "ann" = Some (1, 1)
  ∧ affectedPlayers
      (shotEffectOf (@canAttack scenarioConstants gridCollaborators "ann"
                                (1, 1) kamikazeMatch))
    = [mkPlayerShotEffect "bob" 50 0 50; mkPlayerShotEffect "ann" 50 0 50].
Proof. vm_compute. repeat split. Qed.

(** C2 (amended), for the same shot. *)
Lemma kamikaze_resolution_witness :
  mkPlayerShotEffect "ann" 50 0 50
    ∈ affectedPlayers
        (shotEffectOf (@canAttack scenarioConstants gridCollaborators "ann"
                                  (1, 1) kamikazeMatch)).
Proof.
  refine (proj2 (proj2 (proj2
    (@kamikaze_resolution scenarioConstants gridCollaborators "ann" (1, 1)
       kamikazeMatch
       (mkPlayer "ann" 20 50 5 10 1 7 (1, 1) None
                 (Weapon.mk "small missile" 30 1 5) (Some Kamikaze))
       _ _ _ _))) (1, 1) _ _).
  - vm_compute. reflexivity.
  - reflexivity.
  - vm_compute. reflexivity.
  - by_evaluation.
  - vm_compute. reflexivity.
Defined.

(** C2 as stated fails a second way: the self-kill is not guaranteed.
    "bob" joined on the cell of "ann", so no tile records her; her kamikaze
    is a kamikaze shot that takes 50 from "bob" and nothing from herself,
    and after the shot she is living with all her health. *)
Example kamikaze_spares_unrecorded_attacker :
  isKamikazeShot (mkPlayer "ann" 20 100 5 10 1 7 (0, 0) None
                           (Weapon.mk "small missile" 30 1 5) (Some Kamikaze)) (0, 0) = true
  ∧ players sharedCellMatch !! "ann"
    = Some (mkPlayer "ann" 20 100 5 10 1 7 (0, 0) None
                           (Weapon.mk "small missile" 30 1 5) (Some Kamikaze))
  ∧ filter (λ e, occupied (snd e) = Some "ann")
           (map_to_list (map sharedCellMatch)) = []
  ∧ affectedPlayers
      (shotEffectOf (@canAttack scenarioConstants gridCollaborators "ann"
                                (0, 0) sharedCellMatch))
    = [mkPlayerShotEffect "bob" 100 50 50]
  ∧ hp <$> players (fst (@doAttack scenarioConstants gridCollaborators true
                                   "ann" (0, 0) sharedCellMatch)) !! "ann"
    = Some 100.
Proof. vm_compute. repeat split. Qed.

(** C6 as stated fails: red and blue both have no living member and red
    comes first, yet the first player to join is put on blue. *)
Lemma chooseTeam_tie_goes_to_last_team :
  teams (rules emptyTeamMatch) = Some [red; blue]
  ∧ livingMembers emptyTeamMatch red = 0
  ∧ livingMembers emptyTeamMatch blue = 0
  ∧ team <$> players (fst (@join scenarioConstants gridCollaborators 0 None
                                 "ann" None None None None emptyTeamMatch))
               !! "ann"
    = Some (Some blue).
Proof. vm_compute. repeat split. Qed.

(** Team objects, not team names, are counted: of the configured teams
    red, blue and a second red, the first player is put on the second red;
    after four joins the first red and blue have one living member each and
    the second red has two. *)
Example chooseTeam_counts_team_objects :
  team <$> players (fst (@join scenarioConstants gridCollaborators 0 None
                                "ann" None None None None emptyThreeTeamMatch))
             !! "ann"
  = Some (Some red2)
  ∧ livingMembers threeTeamMatch red = 1
  ∧ livingMembers threeTeamMatch blue = 1
  ∧ livingMembers threeTeamMatch red2 = 2.
Proof. vm_compute. repeat split. Qed.

(** C6 (amended), for "eve" who joins after those four: the first red and
    blue tie for the fewest and "eve" is put on blue. *)
Lemma join_assigns_last_least_team_witness :
  let ts := [red; blue; red2] in
  ∃ i t,
    team (mkPlayer "eve" 20 100 5 10 1 7 (0, 1) (Some blue)
                   (Weapon.mk "small missile" 30 1 5) None) = Some t
    ∧ ts !! i = Some t ∧ (t ∉ take i ts)
    ∧ (∀ t', t' ∈ ts →
             livingMembers threeTeamMatch t ≤ livingMembers threeTeamMatch t')
    ∧ (∀ j t', ts !! j = Some t' → (i < j)%nat → t' ∉ take j ts →
               livingMembers threeTeamMatch t < livingMembers threeTeamMatch t').
Proof.
  apply (@join_assigns_last_least_team scenarioConstants gridCollaborators
           0 None "eve" None None (Some (0, 1)) None threeTeamMatch
           (fst (@join scenarioConstants gridCollaborators 0 None "eve" None
                       None (Some (0, 1)) None threeTeamMatch))).
  - reflexivity.
  - discriminate.
  - reflexivity.
  - by_evaluation.
  - vm_compute. reflexivity.
Defined.

(** ** Further properties of the engine *)

Section Guarantees.
Context {constants : Constants} {collaborators : Collaborators}.

(** *** Admission *)

Lemma teamForJoin_returns storedTeam g :
  ∃ tm, teamForJoin storedTeam g = Returns tm.
Proof.
  unfold teamForJoin, chooseTeam.
  destruct (teams (rules g)) as [ts|]; [|by eexists].
  destruct (restoreTeam ts storedTeam); by eexists.
Qed.

(** X1: [join] never lets the error of [chooseTeam] out. [chooseTeam]
    throws when no teams are configured, and [join] calls it only after it
    has seen that teams are configured: without teams the player gets no
    team, and the steps of [join] that the engine itself decides always end
    in an answer, a refusal or the new player. The calls that [join] awaits
    on the database and on Discord ([loadAvatar], [loadPerk], [storeInDB],
    [getUsername]) are outside this development, and so are their
    failures. *)
Theorem join_guards_chooseTeam
    rnd loadedPerk id hp0 points0 coords0 storedTeam g :
  (∃ r, snd (join rnd loadedPerk id hp0 points0 coords0 storedTeam g)
        = Returns r)
  ∧ (teams (rules g) = None →
     chooseTeam g = Throws "Cannot chose team, no teams given!"
     ∧ teamForJoin storedTeam g = Returns None).
Proof.
  split.
  - unfold join. destruct (ended g); [by eexists|].
    destruct (decide (is_Some (players g !! id))); [by eexists|].
    destruct (decide (is_Some (deadPlayers g !! id))); [by eexists|].
    destruct (squareForJoin rnd coords0 g); [|by eexists].
    destruct (teamForJoin_returns storedTeam g) as [tm ->]. by eexists.
  - intros Hnone. unfold chooseTeam, teamForJoin. by rewrite Hnone.
Qed.

(** X2: [join] admits a player exactly when the match has not ended, the
    identifier is on neither roster, and a cell is found (the tile at the
    supplied coordinate, or else one that [getUnoccupiedSquare] gives). *)
Theorem join_succeeds_iff rnd loadedPerk id hp0 points0 coords0 storedTeam g :
  (∃ pl, snd (join rnd loadedPerk id hp0 points0 coords0 storedTeam g)
         = Returns (inr pl))
  ↔ ended g = false ∧ players g !! id = None ∧ deadPlayers g !! id = None
    ∧ is_Some (squareForJoin rnd coords0 g).
Proof.
  split.
  - intros [pl Hpl].
    destruct (join_cases rnd loadedPerk id hp0 points0 coords0 storedTeam g)
      as [[_ Hno]|(pl' & _ & He & Hl & Hd & _ & Hsq & _)];
      [by destruct (Hno pl)|].
    rewrite Hsq. eauto.
  - intros (He & Hl & Hd & [sq Hsq]). unfold join. rewrite He.
    destruct (decide (is_Some (players g !! id))) as [[? ?]|_]; [congruence|].
    destruct (decide (is_Some (deadPlayers g !! id))) as [[? ?]|_];
      [congruence|].
    rewrite Hsq. destruct (teamForJoin_returns storedTeam g) as [tm ->].
    cbn. eauto.
Qed.

(** X3: a refused [join] says why and leaves the match as it was: an ended
    match first, then a living player, then an eliminated one, then a full
    map. *)
Theorem join_refusal rnd loadedPerk id hp0 points0 coords0 storedTeam g g' err :
  join rnd loadedPerk id hp0 points0 coords0 storedTeam g
    = (g', Returns (inl err)) →
  g' = g
  ∧ err = (if ended g then "Game has ended"
           else if decide (is_Some (players g !! id))
                then "You are already in the game!"
           else if decide (is_Some (deadPlayers g !! id))
                then "Cannot perform action, you are dead."
           else "Game is full, sorry.").
Proof.
  unfold join. destruct (ended g); [by intros [= <- <-]|].
  destruct (decide (is_Some (players g !! id))); [by intros [= <- <-]|].
  destruct (decide (is_Some (deadPlayers g !! id))); [by intros [= <- <-]|].
  destruct (squareForJoin rnd coords0 g); [|by intros [= <- <-]].
  destruct (teamForJoin storedTeam g); done.
Qed.

(** X4: a [moveToCoord] that answers [false] has changed nothing. *)
Theorem moveToCoord_refusal id c g g' err :
  moveToCoord id c g = (g', Returns (false, err)) → g' = g.
Proof.
  unfold moveToCoord. destruct (canMove id c g); [by intros [= <-]|].
  destruct (players g !! id); [|done].
  case_decide; [|by intros [= <-]].
  cbn. destruct (setOccupied _ None _); [|done].
  cbn. destruct (setOccupied c (Some id) _); done.
Qed.

(** X5: once a match has ended, [join], [moveToCoord] and [doAttack] all
    answer "Game has ended" and leave the match as it is, and the restore of
    a stored player, whose [join] is refused, restores nobody. *)
Theorem ended_match_is_frozen g :
  ended g = true →
  (∀ rnd loadedPerk id hp0 points0 coords0 storedTeam,
     join rnd loadedPerk id hp0 points0 coords0 storedTeam g
       = (g, Returns (inl "Game has ended")))
  ∧ (∀ id c, moveToCoord id c g = (g, Returns (false, "Game has ended")))
  ∧ (∀ roll id c, doAttack roll id c g = (g, inl "Game has ended"))
  ∧ (∀ rnd perkOf row, restorePlayer rnd perkOf g row = g).
Proof.
  intros He. repeat split; intros.
  - unfold join. by rewrite He.
  - unfold moveToCoord, canMove. by rewrite He.
  - unfold doAttack, canAttack. by rewrite He.
  - unfold restorePlayer, join. by rewrite He.
Qed.

(** *** The two rosters *)

Lemma killPlayer_disjoint p g :
  rostersDisjoint g → rostersDisjoint (killPlayer p g).
Proof.
  intros Hg k. cbn. rewrite lookup_delete_is_Some. intros [Hne Hk].
  rewrite lookup_insert_ne by done. by apply Hg.
Qed.

Lemma mutatePlayer_disjoint ref f g :
  rostersDisjoint g → rostersDisjoint (mutatePlayer ref f g).
Proof.
  intros Hg k. unfold mutatePlayer.
  destruct (players g !! ref) as [p|] eqn:Hp; cbn.
  - rewrite lookup_insert_is_Some. intros [<-|[_ Hk]]; apply Hg; eauto.
  - intros Hk. rewrite lookup_alter. case_decide; [subst|by apply Hg].
    rewrite Hp in Hk. by destruct Hk.
Qed.

Lemma applyShot_disjoint who attacker k g entry :
  rostersDisjoint g → rostersDisjoint (applyShot who attacker k g entry).
Proof.
  intros Hg. unfold applyShot.
  pose proof (mutatePlayer_disjoint (player entry)
                (receiveDamage (damageTaken entry)) g Hg) as H1.
  destruct (playerObject _ _) as [target|]; [|done].
  destruct (decide (hp target = 0)); [|done].
  by apply (killPlayer_disjoint target).
Qed.

Lemma foldl_applyShot_disjoint who attacker k entries g :
  rostersDisjoint g →
  rostersDisjoint (foldl (applyShot who attacker k) g entries).
Proof.
  revert g. induction entries as [|e es IH]; intros g Hg; cbn; [done|].
  apply IH. by apply applyShot_disjoint.
Qed.

Lemma insert_living_disjoint id p' g :
  is_Some (players g !! id) → rostersDisjoint g →
  rostersDisjoint (withPlayers (<[id := p']> (players g)) g).
Proof.
  intros Hid Hg k. cbn. rewrite lookup_insert_is_Some.
  intros [<-|[_ Hk]]; by apply Hg.
Qed.

(** What [moveToCoord] can do to a match. *)
Lemma moveToCoord_shape id c g :
  let g' := fst (moveToCoord id c g) in
  deadPlayers g' = deadPlayers g ∧ rules g' = rules g ∧ ended g' = ended g
  ∧ timer g' = timer g ∧ tickLoopLaunched g' = tickLoopLaunched g
  ∧ log g `prefix_of` log g'
  ∧ (players g' = players g
     ∨ ∃ p p', players g !! id = Some p ∧ userId p' = userId p
               ∧ players g' = <[id := p']> (players g)).
Proof.
  unfold moveToCoord. destruct (canMove id c g) as [|cost];
    [cbn; by auto 10|].
  destruct (players g !! id) as [p|] eqn:Hp; [|cbn; by auto 10].
  case_decide; [|cbn; by auto 10].
  cbn. destruct (setOccupied _ None _) as [m1|]; cbn.
  - destruct (setOccupied c (Some id) m1) as [m2|]; cbn.
    + split_and!; try done; [by apply prefix_app_r|]. right.
      eexists p, _. split; [done|]. split; [|by rewrite insert_insert_eq].
      done.
    + split_and!; try done. right. eexists p, _. split; [done|].
      split; [|reflexivity]. done.
  - split_and!; try done. right. eexists p, _. split; [done|].
    split; [|reflexivity]. done.
Qed.

Lemma join_disjoint rnd lp id hp0 pts0 c0 st g :
  rostersDisjoint g →
  rostersDisjoint (fst (join rnd lp id hp0 pts0 c0 st g)).
Proof.
  intros Hg.
  destruct (join_cases rnd lp id hp0 pts0 c0 st g)
    as [[-> _]|(pl & _ & _ & _ & Hd & _ & _ & _ & Hps & Hds & _)]; [done|].
  intros k. rewrite Hps, Hds, lookup_insert_is_Some.
  intros [<-|[_ Hk]]; [done|by apply Hg].
Qed.

Lemma step_disjoint g g' :
  step g g' → rostersDisjoint g → rostersDisjoint g'.
Proof.
  destruct 1 as [rnd lp id hp0 pts0 c0 st g| id c g | roll id c g | g d _
                | rnd perkOf row g | g]; intros Hg.
  - by apply join_disjoint.
  - destruct (moveToCoord_shape id c g)
      as (Hd & _ & _ & _ & _ & _ & [Hps|(p & p' & Hp & _ & Hps)]);
      intros k; rewrite Hd, Hps; [apply Hg|].
    rewrite lookup_insert_is_Some. intros [<-|[_ Hk]]; apply Hg; eauto.
  - destruct (doAttack roll id c g) as [g' [err|out]] eqn:Hd.
    + apply doAttack_inl in Hd as ->. done.
    + apply doAttack_inr in Hd as (p & e & _ & Hp & _ & _ & _ & Hd). cbn in *.
      set (g2 := withPlayers _ _) in Hd.
      assert (H2 : rostersDisjoint g2).
      { intros k. cbn. rewrite lookup_insert_is_Some.
        intros [<-|[_ Hk]]; apply Hg; eauto. }
      pose proof (foldl_applyShot_disjoint (getUsername id) p
                    (isKamikazeShot p c) (affectedPlayers e) g2 H2) as H3.
      destruct (snd _).
      * destruct Hd as [_ ->]. destruct (fst (checkForEndOfGame _)); exact H3.
      * destruct Hd as [-> _]. done.
  - intros k. cbn. rewrite lookup_fmap, fmap_is_Some. apply Hg.
  - unfold restorePlayer.
    pose proof (join_disjoint (rnd (user_id row)) (perkOf (user_id row))
                (user_id row) (Some (stored_hp row)) (Some (stored_points row))
                (Some (stored_x row, stored_y row)) (stored_team row) g Hg)
      as Hj.
    destruct (join _ _ _ _ _ _ _ g) as [g1 [[err|pl]|]]; cbn in *; try done.
    case_decide; [|done]. by apply killPlayer_disjoint.
  - done.
Qed.

Lemma reachable_disjoint g : reachable g → rostersDisjoint g.
Proof.
  induction 1 as [mapSpec r g Hnew | g g' _ IH Hstep].
  - unfold newGame in Hnew. destruct (checkTeams r); [|done].
    injection Hnew as <-. intros k. cbn. rewrite lookup_empty.
    by intros [? ?].
  - by eapply step_disjoint.
Qed.

(** X6: in every reachable match the living and the eliminated roster are
    disjoint: nobody is on both. *)
Theorem reachable_rosters_disjoint g id :
  reachable g → is_Some (players g !! id) → deadPlayers g !! id = None.
Proof.
  intros Hreach. by apply reachable_disjoint.
Qed.

Lemma applyShot_dead_mono who attacker k g entry id :
  is_Some (deadPlayers g !! id) →
  is_Some (deadPlayers (applyShot who attacker k g entry) !! id).
Proof.
  intros Hid. unfold applyShot.
  assert (H1 : is_Some (deadPlayers (mutatePlayer (player entry)
                 (receiveDamage (damageTaken entry)) g) !! id)).
  { unfold mutatePlayer. destruct (players g !! player entry); cbn; [done|].
    rewrite lookup_alter. case_decide; [subst|done]. by apply fmap_is_Some. }
  destruct (playerObject _ _) as [target|]; [|done].
  destruct (decide (hp target = 0)); cbn; [|done].
  rewrite lookup_insert_is_Some. destruct (decide (userId target = id)); auto.
Qed.

Lemma step_dead_mono g g' id :
  step g g' → is_Some (deadPlayers g !! id) → is_Some (deadPlayers g' !! id).
Proof.
  destruct 1 as [rnd lp id' hp0 pts0 c0 st g| id' c g | roll id' c g | g d _
                | rnd perkOf row g | g]; intros Hid.
  - destruct (join_cases rnd lp id' hp0 pts0 c0 st g)
      as [[-> _]|(pl & _ & _ & _ & _ & _ & _ & _ & _ & -> & _)]; done.
  - destruct (moveToCoord_shape id' c g) as (-> & _). done.
  - destruct (doAttack roll id' c g) as [g' [err|out]] eqn:Hd.
    + apply doAttack_inl in Hd as ->. done.
    + apply doAttack_inr in Hd as (p & e & _ & Hp & _ & _ & _ & Hd). cbn in *.
      set (g2 := withPlayers _ _) in Hd.
      assert (H3 : ∀ es g0, is_Some (deadPlayers g0 !! id) →
                is_Some (deadPlayers (foldl (applyShot (getUsername id') p
                           (isKamikazeShot p c)) g0 es) !! id)).
      { induction es as [|e0 es IH]; intros g0 H0; cbn; [done|].
        apply IH. by apply applyShot_dead_mono. }
      specialize (H3 (affectedPlayers e) g2 Hid).
      destruct (snd _).
      * destruct Hd as [_ ->]. destruct (fst (checkForEndOfGame _)); exact H3.
      * destruct Hd as [-> _]. done.
  - done.
  - unfold restorePlayer.
    destruct (join_cases (rnd (user_id row)) (perkOf (user_id row))
                (user_id row) (Some (stored_hp row)) (Some (stored_points row))
                (Some (stored_x row, stored_y row)) (stored_team row) g)
      as [[Hg Hno]|(pl & Hres & _ & _ & _ & _ & _ & _ & _ & Hds & _)].
    + destruct (join _ _ _ _ _ _ _ g) as [g1 [[err|pl]|]]; cbn in *;
        subst; try done.
      by destruct (Hno pl).
    + destruct (join _ _ _ _ _ _ _ g) as [g1 res]; cbn in *. subst res.
      case_decide; cbn; [|by rewrite Hds].
      rewrite lookup_insert_is_Some, Hds.
      destruct (decide (userId pl = id)); auto.
  - done.
Qed.

(** X7: an eliminated player never comes back. After any further calls on
    a reachable match, whoever was on the eliminated roster is still there,
    is not living, and is refused by [join], which changes nothing. *)
Theorem eliminated_never_rejoins g g' id :
  reachable g → is_Some (deadPlayers g !! id) → rtc step g g' →
  is_Some (deadPlayers g' !! id) ∧ players g' !! id = None
  ∧ ∀ rnd loadedPerk hp0 points0 coords0 storedTeam,
      ∃ err, join rnd loadedPerk id hp0 points0 coords0 storedTeam g'
             = (g', Returns (inl err)).
Proof.
  intros Hreach Hid Hsteps.
  assert (H' : reachable g' ∧ is_Some (deadPlayers g' !! id)).
  { induction Hsteps as [g|g g1 g2 Hstep _ IH]; [done|].
    apply IH; [by eapply reachable_step|by eapply step_dead_mono]. }
  destruct H' as [Hreach' Hid']. split; [done|].
  assert (Hnot : players g' !! id = None).
  { destruct (players g' !! id) as [p|] eqn:Hp; [|done].
    pose proof (reachable_disjoint g' Hreach' id) as Hd.
    rewrite Hp in Hd. rewrite Hd in Hid' by eauto. by destruct Hid'. }
  split; [done|]. intros. unfold join.
  destruct (ended g'); [by eexists|].
  destruct (decide (is_Some (players g' !! id))) as [[? ?]|_]; [congruence|].
  destruct (decide (is_Some (deadPlayers g' !! id))); [by eexists|done].
Qed.

(** *** The head count and the tick loop *)

Lemma size_lookup_Some {A} (m : gmap string A) k :
  is_Some (m !! k) → size m = S (size (delete k m)).
Proof.
  intros [x Hx]. rewrite <- (insert_delete_id m k x) at 1 by done.
  apply map_size_insert_None, lookup_delete_eq.
Qed.

Lemma size_alter {A} (f : A → A) (m : gmap string A) k :
  size (alter f k m) = size m.
Proof.
  rewrite <- !(size_dom (D := gset string)). by rewrite dom_alter_L.
Qed.

Lemma killPlayer_headcount p g :
  rostersDisjoint g →
  is_Some (players g !! userId p) ∨ is_Some (deadPlayers g !! userId p) →
  headcount (killPlayer p g) = headcount g.
Proof.
  intros Hdisj Hin. unfold headcount. cbn.
  destruct (players g !! userId p) as [q|] eqn:Hq.
  - rewrite (size_lookup_Some (players g) (userId p)) by eauto.
    rewrite map_size_insert_None by (apply Hdisj; eauto). lia.
  - destruct Hin as [[? ?]|Hd]; [done|].
    rewrite map_size_delete_None by done.
    by rewrite map_size_insert_Some.
Qed.

Lemma mutatePlayer_headcount ref f g :
  headcount (mutatePlayer ref f g) = headcount g.
Proof.
  unfold mutatePlayer, headcount.
  destruct (players g !! ref) as [p|] eqn:Hp; cbn.
  - by rewrite map_size_insert_Some by eauto.
  - by rewrite size_alter.
Qed.

Lemma playerObject_is_Some g ref p :
  playerObject g ref = Some p →
  is_Some (players g !! ref) ∨ is_Some (deadPlayers g !! ref).
Proof.
  unfold playerObject. destruct (players g !! ref); eauto.
Qed.

Lemma applyShot_headcount who attacker k g entry :
  rostersOk (λ _, True) g → rostersDisjoint g →
  headcount (applyShot who attacker k g entry) = headcount g.
Proof.
  intros Hkeys Hdisj. unfold applyShot.
  set (g1 := mutatePlayer _ _ g).
  assert (Hkeys1 : rostersOk (λ _, True) g1).
  { by apply mutatePlayer_rostersOk. }
  assert (Hdisj1 : rostersDisjoint g1).
  { by apply mutatePlayer_disjoint. }
  assert (Hc1 : headcount g1 = headcount g) by apply mutatePlayer_headcount.
  destruct (playerObject g1 (player entry)) as [target|] eqn:Ht; [|done].
  destruct (playerObject_rostersOk _ _ _ _ Hkeys1 Ht) as [Hid _].
  apply playerObject_is_Some in Ht. rewrite <- Hid in Ht.
  pose proof (killPlayer_headcount target g1 Hdisj1 Ht) as Hk.
  destruct (decide (hp target = 0)); unfold headcount in *; cbn in *; lia.
Qed.

Lemma foldl_applyShot_headcount who attacker k entries g :
  rostersOk (λ _, True) g → rostersDisjoint g →
  headcount (foldl (applyShot who attacker k) g entries) = headcount g.
Proof.
  revert g. induction entries as [|e es IH]; intros g Hkeys Hdisj; cbn; [done|].
  rewrite IH.
  - by apply applyShot_headcount.
  - apply applyShot_rostersOk; [apply stable_True|done].
  - by apply applyShot_disjoint.
Qed.

(** What [join] does to the head count and to the tick loop. *)
Lemma join_tick rnd lp id hp0 pts0 c0 st g :
  let g' := fst (join rnd lp id hp0 pts0 c0 st g) in
  g' = g
  ∨ (headcount g' = S (headcount g) ∧ ended g = false ∧ ended g' = false
     ∧ if bool_decide (headcount g' = 2%nat) && negb (tickLoopLaunched g)
       then tickLoopLaunched g' = true
            ∧ timer g' = Some MILLISECONDS_PER_TICK
       else tickLoopLaunched g' = tickLoopLaunched g ∧ timer g' = timer g).
Proof.
  unfold join. destruct (ended g) eqn:He; [by left|].
  destruct (decide (is_Some (players g !! id))) as [|Hl]; [by left|].
  destruct (decide (is_Some (deadPlayers g !! id))); [by left|].
  destruct (squareForJoin rnd c0 g); [|by left].
  destruct (teamForJoin st g); [|by left].
  right. apply eq_None_not_Some in Hl. cbn. unfold headcount.
  destruct (_ && _) eqn:Hb; cbn; rewrite map_size_insert_None by done;
    cbn in Hb; rewrite map_size_insert_None in Hb by done;
    rewrite Hb; auto.
Qed.

(** What [doAttack] can do to the board. *)
Lemma doAttack_board roll id c g :
  let g' := fst (doAttack roll id c g) in
  map g' = map g ∧ rules g' = rules g
  ∧ tickLoopLaunched g' = tickLoopLaunched g
  ∧ ((ended g' = ended g ∧ timer g' = timer g)
     ∨ (ended g = false ∧ ended g' = true ∧ timer g' = None)).
Proof.
  destruct (doAttack roll id c g) as [g' [err|out]] eqn:Hd.
  - apply doAttack_inl in Hd as ->. cbn. split_and!; try done. by left.
  - apply doAttack_inr in Hd as (p & e & _ & _ & He & _ & _ & Hd). cbn in *.
    set (g2 := withPlayers _ _) in Hd.
    destruct (foldl_applyShot_sameBoard (getUsername id) p (isKamikazeShot p c)
                (affectedPlayers e) g2) as (Hm & Hr & Hen & Ht & Hl).
    destruct (snd _).
    + destruct Hd as [_ ->]. destruct (fst (checkForEndOfGame _)); cbn;
        split_and!; try done; [by right|by left].
    + destruct Hd as [-> _]. cbn. split_and!; try done. by left.
Qed.

Lemma doAttack_headcount roll id c g :
  rostersOk (λ _, True) g → rostersDisjoint g →
  headcount (fst (doAttack roll id c g)) = headcount g.
Proof.
  intros Hkeys Hdisj.
  destruct (doAttack roll id c g) as [g' [err|out]] eqn:Hd.
  - apply doAttack_inl in Hd as ->. done.
  - apply doAttack_inr in Hd as (p & e & _ & Hp & _ & _ & _ & Hd). cbn in *.
    destruct (Player_attack_fst roll (killedPlayers e) (isKamikazeShot p c) p)
      as [v Hv].
    rewrite Hv in Hd.
    destruct (rosterOk_lookup _ _ _ _ (proj1 Hkeys) Hp) as [Hid _].
    set (g2 := withPlayers _ _) in Hd.
    assert (Hk2 : rostersOk (λ _, True) g2).
    { split; cbn; [|apply Hkeys]. apply rosterOk_insert; [apply Hkeys|done..]. }
    assert (Hd2 : rostersDisjoint g2).
    { intros k. cbn. rewrite lookup_insert_is_Some.
      intros [<-|[_ Hk]]; apply Hdisj; eauto. }
    assert (Hc2 : headcount g2 = headcount g).
    { unfold headcount, g2. cbn. by rewrite map_size_insert_Some by eauto. }
    pose proof (foldl_applyShot_headcount (getUsername id) p
                  (isKamikazeShot p c) (affectedPlayers e) g2 Hk2 Hd2) as H3.
    destruct (snd _).
    + destruct Hd as [_ ->]. destruct (fst (checkForEndOfGame _));
        unfold headcount in *; cbn in *; lia.
    + destruct Hd as [-> _]. done.
Qed.

Lemma moveToCoord_headcount id c g :
  headcount (fst (moveToCoord id c g)) = headcount g.
Proof.
  destruct (moveToCoord_shape id c g)
    as (Hd & _ & _ & _ & _ & _ & [Hps|(p & p' & Hp & _ & Hps)]);
    unfold headcount; rewrite Hd, Hps; [done|].
  by rewrite map_size_insert_Some by eauto.
Qed.


Lemma launch_update g g' (P Q : Prop) :
  launchedAtTwo g → headcount g' = S (headcount g) →
  (if bool_decide (headcount g' = 2%nat) && negb (tickLoopLaunched g)
   then tickLoopLaunched g' = true ∧ P
   else tickLoopLaunched g' = tickLoopLaunched g ∧ Q) →
  launchedAtTwo g'.
Proof.
  unfold launchedAtTwo. intros Hg Hc Hif. rewrite Hc in *.
  destruct (tickLoopLaunched g) eqn:Hl.
  - rewrite andb_false_r in Hif. destruct Hif as [-> _].
    assert (2 ≤ headcount g)%nat; [by apply Hg|].
    split; [lia|done].
  - rewrite andb_true_r in Hif.
    assert (¬ (2 ≤ headcount g)%nat) by (intros ?%Hg; done).
    destruct (bool_decide (S (headcount g) = 2%nat)) eqn:Hb;
      [apply bool_decide_eq_true in Hb|apply bool_decide_eq_false in Hb];
      destruct Hif as [-> _]; split; try done; lia.
Qed.

Lemma step_headcount_launch g g' :
  step g g' → rostersOk (λ _, True) g → rostersDisjoint g →
  launchedAtTwo g → launchedAtTwo g'.
Proof.
  unfold launchedAtTwo.
  destruct 1 as [rnd lp id hp0 pts0 c0 st g| id c g | roll id c g | g d _
                | rnd perkOf row g | g]; intros Hkeys Hdisj Hg.
  - destruct (join_tick rnd lp id hp0 pts0 c0 st g)
      as [->|(Hc & _ & _ & Hif)]; [done|].
    by eapply (launch_update g).
  - rewrite moveToCoord_headcount.
    destruct (moveToCoord_shape id c g) as (_ & _ & _ & _ & -> & _). done.
  - rewrite doAttack_headcount by done.
    destruct (doAttack_board roll id c g) as (_ & _ & -> & _). done.
  - unfold headcount. cbn. by rewrite map_size_fmap.
  - unfold restorePlayer.
    set (j := join _ _ _ _ _ _ _ g).
    pose proof (join_tick (rnd (user_id row)) (perkOf (user_id row))
                (user_id row) (Some (stored_hp row)) (Some (stored_points row))
                (Some (stored_x row, stored_y row)) (stored_team row) g) as Ht.
    pose proof (join_cases (rnd (user_id row)) (perkOf (user_id row))
                (user_id row) (Some (stored_hp row)) (Some (stored_points row))
                (Some (stored_x row, stored_y row)) (stored_team row) g) as Hc.
    pose proof (join_disjoint (rnd (user_id row)) (perkOf (user_id row))
                (user_id row) (Some (stored_hp row)) (Some (stored_points row))
                (Some (stored_x row, stored_y row)) (stored_team row) g Hdisj)
      as Hd1.
    fold j in Ht, Hc, Hd1. cbn in Ht, Hc.
    assert (Hj : tickLoopLaunched (fst j) = true ↔ (2 ≤ headcount (fst j))%nat).
    { destruct Ht as [->|(Hcnt & _ & _ & Hif)]; [done|].
      by eapply (launch_update g). }
    destruct j as [g1 [[err|pl]|]]; cbn in *; try done.
    destruct (decide (stored_hp row = 0)); [|done].
    destruct Hc as [[_ Hno]|(pl' & Hres & _ & _ & _ & Hid & _ & _ & Hps & _)];
      [by destruct (Hno pl)|].
    injection Hres as <-.
    rewrite (killPlayer_headcount pl g1 Hd1).
    + done.
    + left. rewrite Hps, Hid. rewrite lookup_insert_eq. eauto.
  - done.
Qed.

(** X8: in every reachable match the tick loop has been launched exactly
    when the two rosters together hold at least two players. *)
Theorem tick_loop_launched_at_two g :
  reachable g →
  tickLoopLaunched g = true
  ↔ (2 ≤ size (players g) + size (deadPlayers g))%nat.
Proof.
  intros Hreach. change (launchedAtTwo g).
  assert (H3 : rostersDisjoint g ∧ launchedAtTwo g).
  { induction Hreach as [mapSpec r g Hnew | g g' Hreach IH Hstep].
    - unfold newGame in Hnew. destruct (checkTeams r); [|done].
      injection Hnew as <-. split.
      + intros k. cbn. rewrite lookup_empty. by intros [? ?].
      + unfold launchedAtTwo, headcount. cbn. rewrite !map_size_empty.
        split; [done|lia].
    - destruct IH as [Hdisj Hl]. split; [by eapply step_disjoint|].
      eapply step_headcount_launch; eauto using reachable_rostersOk. }
  apply H3.
Qed.

(** *** The timer *)

Lemma killPlayer_board p g : sameBoard g (killPlayer p g).
Proof. by repeat split. Qed.

(** X9: in every reachable match a pending tick waits for the global
    constant MILLISECONDS_PER_TICK, the tick loop has been launched, and
    the match has not ended; an ended match has no tick pending. *)
Theorem pending_tick_invariant g delay :
  reachable g → timer g = Some delay →
  delay = MILLISECONDS_PER_TICK ∧ tickLoopLaunched g = true ∧ ended g = false.
Proof.
  intros Hreach. revert delay.
  induction Hreach as [mapSpec r g Hnew | g g' Hreach IH Hstep]; intros delay.
  - unfold newGame in Hnew. destruct (checkTeams r); [|done].
    injection Hnew as <-. done.
  - destruct Hstep as [rnd lp id hp0 pts0 c0 st g| id c g | roll id c g
                      | g d Hd | rnd perkOf row g | g].
    + destruct (join_tick rnd lp id hp0 pts0 c0 st g)
        as [->|(_ & He & He' & Hif)]; [apply IH|].
      destruct (_ && _).
      * destruct Hif as [-> ->]. by intros [= <-].
      * destruct Hif as [-> ->]. intros Ht. rewrite He'.
        destruct (IH _ Ht) as (? & ? & _). done.
    + destruct (moveToCoord_shape id c g) as (_ & _ & -> & -> & -> & _).
      apply IH.
    + destruct (doAttack_board roll id c g)
        as (_ & _ & -> & [[-> ->]|(_ & _ & ->)]); [apply IH|done].
    + cbn. intros [= <-]. destruct (IH _ Hd) as (_ & ? & ?). done.
    + unfold restorePlayer.
      pose proof (join_tick (rnd (user_id row)) (perkOf (user_id row))
                (user_id row) (Some (stored_hp row)) (Some (stored_points row))
                (Some (stored_x row, stored_y row)) (stored_team row) g) as Ht.
      destruct (join _ _ _ _ _ _ _ g) as [g1 res]. cbn in Ht.
      assert (H1 : timer g1 = Some delay →
                delay = MILLISECONDS_PER_TICK ∧ tickLoopLaunched g1 = true
                ∧ ended g1 = false).
      { destruct Ht as [->|(_ & He & He' & Hif)]; [apply IH|].
        destruct (_ && _).
        - destruct Hif as [-> ->]. by intros [= <-].
        - destruct Hif as [-> ->]. intros Ht. rewrite He'.
          destruct (IH _ Ht) as (? & ? & _). done. }
      destruct res as [[err|pl]|]; try done.
      destruct (decide (stored_hp row = 0)); done.
    + done.
Qed.

(** *** The event log and the rule set *)

Lemma join_log rnd lp id hp0 pts0 c0 st g :
  log g `prefix_of` log (fst (join rnd lp id hp0 pts0 c0 st g)).
Proof.
  unfold join. destruct (ended g); [done|].
  destruct (decide (is_Some (players g !! id))); [done|].
  destruct (decide (is_Some (deadPlayers g !! id))); [done|].
  destruct (squareForJoin rnd c0 g); [|done].
  destruct (teamForJoin st g); [|done].
  cbn. destruct (_ && _); cbn; by apply prefix_app_r.
Qed.

Lemma applyShot_log who attacker k g entry :
  log g `prefix_of` log (applyShot who attacker k g entry).
Proof.
  unfold applyShot.
  assert (H1 : log (mutatePlayer (player entry)
                      (receiveDamage (damageTaken entry)) g) = log g).
  { unfold mutatePlayer. by destruct (players g !! player entry). }
  destruct (playerObject _ _) as [target|]; [|by rewrite H1].
  destruct (decide (hp target = 0)); cbn; rewrite H1.
  - rewrite <- app_assoc. by apply prefix_app_r.
  - by apply prefix_app_r.
Qed.

Lemma foldl_applyShot_log who attacker k entries g :
  log g `prefix_of` log (foldl (applyShot who attacker k) g entries).
Proof.
  revert g. induction entries as [|e es IH]; intros g; cbn; [done|].
  etrans; [apply applyShot_log | apply IH].
Qed.

Lemma step_log g g' : step g g' → log g `prefix_of` log g'.
Proof.
  destruct 1 as [rnd lp id hp0 pts0 c0 st g| id c g | roll id c g | g d _
                | rnd perkOf row g | g].
  - apply join_log.
  - by destruct (moveToCoord_shape id c g) as (_ & _ & _ & _ & _ & ? & _).
  - destruct (doAttack roll id c g) as [g' [err|out]] eqn:Hd.
    + apply doAttack_inl in Hd as ->. done.
    + apply doAttack_inr in Hd as (p & e & _ & _ & _ & _ & _ & Hd). cbn in *.
      set (g2 := withPlayers _ _) in Hd.
      assert (H2 : log g `prefix_of` log g2).
      { unfold g2, announceShot. cbn. by apply prefix_app_r. }
      pose proof (foldl_applyShot_log (getUsername id) p (isKamikazeShot p c)
                    (affectedPlayers e) g2) as H3.
      destruct (snd _).
      * destruct Hd as [_ ->].
        destruct (fst (checkForEndOfGame _)); cbn; by etrans.
      * destruct Hd as [-> _]. done.
  - cbn. by apply prefix_app_r.
  - unfold restorePlayer.
    pose proof (join_log (rnd (user_id row)) (perkOf (user_id row))
                (user_id row) (Some (stored_hp row)) (Some (stored_points row))
                (Some (stored_x row, stored_y row)) (stored_team row) g) as Hj.
    destruct (join _ _ _ _ _ _ _ g) as [g1 [[err|pl]|]]; cbn in *; try done.
    destruct (decide (stored_hp row = 0)); done.
  - done.
Qed.

(** X10: the event log only grows: whatever calls follow, the entries that
    [getLogs] gave before stay where they are, and [init] adds its entry at
    the end. *)
Theorem event_log_only_grows g g' :
  rtc step g g' →
  getLogs g `prefix_of` getLogs g'
  ∧ getLogs (init g') = getLogs g' ++ [mkLog "Game was created" "System"].
Proof.
  intros Hsteps. unfold getLogs. split; [|done].
  induction Hsteps as [g|g g1 g2 Hstep _ IH]; [done|].
  etrans; [by apply step_log|done].
Qed.

(** X11: the rule set is fixed at creation: no sequence of calls changes
    it. *)
Theorem rule_set_never_changes g g' :
  rtc step g g' → rules g' = rules g.
Proof.
  induction 1 as [g|g g1 g2 Hstep _ IH]; [done|].
  rewrite IH. by apply step_rules.
Qed.

(** *** What a successful join and a successful move leave behind *)

Lemma join_player rnd lp id hp0 pts0 c0 st g g' pl :
  join rnd lp id hp0 pts0 c0 st g = (g', Returns (inr pl)) →
  hp pl = default (defaultStartingHp (rules g)) hp0
  ∧ points pl = default (defaultStartingPoints (rules g)) pts0
  ∧ pointsPerMove pl = defaultPointsPerMove (rules g)
  ∧ pointsPerShot pl = defaultPointsPerShot (rules g)
  ∧ pointsPerTick pl = defaultPointsPerTick (rules g)
  ∧ pointsPerKill pl = defaultPointsPerKill (rules g)
  ∧ weapon pl = SmallMissile ∧ perk pl = lp.
Proof.
  unfold join. destruct (ended g); [done|].
  destruct (decide (is_Some (players g !! id))); [done|].
  destruct (decide (is_Some (deadPlayers g !! id))); [done|].
  destruct (squareForJoin rnd c0 g); [|done].
  destruct (teamForJoin st g); [|done].
  intros [= _ <-]. done.
Qed.

(** X12: after a successful [join] the newcomer is found again: by
    identifier on the living roster ([getPlayer], [hasPlayer],
    [fetchPlayerLocation]), not on the eliminated one ([isDead]), and, when
    the cell exists, by position ([getPlayerAtLocation]). The newcomer has
    the supplied health and points or else the rule set's, and stands on the
    supplied coordinate when a tile exists there. Every other player and
    every other cell is as before. *)
Theorem join_then_lookup rnd loadedPerk id hp0 points0 coords0 storedTeam g g' pl :
  join rnd loadedPerk id hp0 points0 coords0 storedTeam g
    = (g', Returns (inr pl)) →
  getPlayer id g' = Some pl ∧ hasPlayer id g' = true ∧ isDead id g' = false
  ∧ fetchPlayerLocation id g' = Some (coords pl)
  ∧ (coordinateExists (coords pl) g = true →
     getPlayerAtLocation g' (coords pl) = Some pl)
  ∧ userId pl = id
  ∧ hp pl = default (defaultStartingHp (rules g)) hp0
  ∧ points pl = default (defaultStartingPoints (rules g)) points0
  ∧ (∀ c, coords0 = Some c → coordinateExists c g = true → coords pl = c)
  ∧ (∀ id', id' ≠ id → getPlayer id' g' = getPlayer id' g)
  ∧ deadPlayers g' = deadPlayers g
  ∧ (∀ c, c ≠ coords pl → map g' !! c = map g !! c).
Proof.
  intros Hjoin.
  destruct (join_player _ _ _ _ _ _ _ _ _ _ Hjoin) as (Hhp & Hpts & _).
  destruct (join_cases rnd loadedPerk id hp0 points0 coords0 storedTeam g)
    as [[_ Hno]|(pl' & Hres & _ & _ & Hd & Hid & Hsq & _ & Hps & Hds & _ & _
                 & Hmap)];
    rewrite Hjoin in *; cbn in *; [by destruct (Hno pl)|].
  injection Hres as <-.
  unfold getPlayer, hasPlayer, isDead, fetchPlayerLocation, coordinateExists,
    getPlayerAtLocation, tryGetTile.
  rewrite Hps, Hds, Hmap.
  split_and!.
  - apply lookup_insert_eq.
  - apply bool_decide_eq_true_2. rewrite lookup_insert_eq. eauto.
  - apply bool_decide_eq_false_2. rewrite Hd. by intros [? ?].
  - by rewrite lookup_insert_eq.
  - intros [tile Htile]%bool_decide_eq_true.
    rewrite lookup_alter, decide_True by done. rewrite Htile. cbn.
    by rewrite lookup_insert_eq.
  - done.
  - done.
  - done.
  - intros c -> [tile Htile]%bool_decide_eq_true.
    unfold squareForJoin, tryGetTile in Hsq. rewrite Htile in Hsq.
    congruence.
  - intros id' Hne. by rewrite lookup_insert_ne.
  - done.
  - intros c Hne. by rewrite lookup_alter_ne.
Qed.

Lemma restoreTeam_loop s ts :
  let found := foldl (λ found existingTeam,
                        if decide (Team.name existingTeam = s)
                        then Some existingTeam else found) None ts in
  match found with
  | Some t => ∃ i, ts !! i = Some t ∧ Team.name t = s
                ∧ ∀ j t', ts !! j = Some t' → (i < j)%nat → Team.name t' ≠ s
  | None => ∀ t, t ∈ ts → Team.name t ≠ s
  end.
Proof.
  induction ts as [|x ts IH] using rev_ind; cbn.
  - by intros t ?%elem_of_nil.
  - rewrite foldl_app. cbn. cbn in IH.
    destruct (decide (Team.name x = s)) as [Hx|Hx].
    + exists (length ts). split; [by rewrite list_lookup_middle|].
      split; [done|]. intros j t' Hj Hlt. apply lookup_lt_Some in Hj.
      rewrite length_app in Hj. cbn in Hj. lia.
    + destruct (foldl _ None ts) as [t|].
      * destruct IH as (i & Hi & Hname & Hlast). exists i.
        split; [by apply lookup_app_l_Some|]. split; [done|].
        intros j t' Hj Hlt.
        apply lookup_app_Some in Hj as [Hj|[_ Hj]]; [eauto|].
        by apply list_lookup_singleton_Some in Hj as [_ <-].
      * intros t [Ht| ->%list_elem_of_singleton]%elem_of_app; auto.
Qed.

(** X13: with teams configured, a stored team name that is not empty and
    names a configured team is restored: the joining player gets the last
    configured team of that name, whatever the head counts are. *)
Theorem join_restores_stored_team
    rnd loadedPerk id hp0 points0 coords0 s g g' pl ts t0 :
  teams (rules g) = Some ts →
  s ≠ "" → t0 ∈ ts → Team.name t0 = s →
  join rnd loadedPerk id hp0 points0 coords0 (Some s) g
    = (g', Returns (inr pl)) →
  ∃ i t, team pl = Some t ∧ ts !! i = Some t ∧ Team.name t = s
    ∧ ∀ j t', ts !! j = Some t' → (i < j)%nat → Team.name t' ≠ s.
Proof.
  intros Hts Hs Hin Hname Hjoin.
  destruct (join_cases rnd loadedPerk id hp0 points0 coords0 (Some s) g)
    as [[_ Hno]|(pl' & Hres & _ & _ & _ & _ & _ & Hteam & _)];
    rewrite Hjoin in *; cbn in *; [by destruct (Hno pl)|].
  injection Hres as <-.
  unfold teamForJoin, restoreTeam in Hteam. rewrite Hts in Hteam.
  rewrite decide_False in Hteam by done.
  pose proof (restoreTeam_loop s ts) as Hloop. cbn in Hloop.
  destruct (foldl _ None ts) as [t|].
  - injection Hteam as Hteam. destruct Hloop as (i & Hi & Ht & Hlast).
    exists i, t. auto.
  - by destruct (Hloop t0 Hin).
Qed.

Lemma setOccupied_Some (c : Coordinate) (o : option string)
    (m : MapManager) (t : MapTile) :
  m !! c = Some t → setOccupied c o m = Returns (<[c := withOccupied o t]> m).
Proof. intros Hc. unfold setOccupied. by rewrite Hc. Qed.

(** X14: a [moveToCoord] that the map allows and the player can pay for,
    between two cells that exist, answers [true], takes the cost from the
    player's points, puts the player on the destination, marks the
    destination as occupied by the player and clears the cell left;
    afterwards the player is found at the destination and nobody at the
    cell left. Other players, the eliminated roster and all other cells
    are untouched. *)
Theorem moveToCoord_success id c g p cost :
  ended g = false →
  players g !! id = Some p →
  canMoveTo (map g) c p = inr cost →
  MoveCost.pointsRequired cost ≤ points p →
  coordinateExists (coords p) g = true →
  coordinateExists c g = true →
  let g' := fst (moveToCoord id c g) in
  let moved := withCoords c (withPoints (points p - MoveCost.pointsRequired cost) p) in
  snd (moveToCoord id c g) = Returns (true, "")
  ∧ getPlayer id g' = Some moved
  ∧ fetchPlayerLocation id g' = Some c
  ∧ getPlayerAtLocation g' c = Some moved
  ∧ (coords p ≠ c → getPlayerAtLocation g' (coords p) = None)
  ∧ (∀ id', id' ≠ id → getPlayer id' g' = getPlayer id' g)
  ∧ deadPlayers g' = deadPlayers g
  ∧ (∀ c', c' ≠ c → c' ≠ coords p → map g' !! c' = map g !! c').
Proof.
  intros He Hp Hcost Hpay [told Hold]%bool_decide_eq_true
    [tnew Hnew]%bool_decide_eq_true.
  unfold tryGetTile in *.
  assert (Hnew' : ∃ t, <[coords p := withOccupied None told]> (map g) !! c
                       = Some t).
  { rewrite lookup_insert. case_decide; eauto. }
  destruct Hnew' as [t Ht].
  unfold moveToCoord, canMove. rewrite He, Hp, Hcost.
  destruct (decide (points p >= MoveCost.pointsRequired cost)); [|lia].
  cbn [map players coords withPoints withPlayers withMap].
  rewrite (setOccupied_Some _ _ _ _ Hold).
  cbn [map players coords withPoints withPlayers withMap].
  rewrite (setOccupied_Some _ _ _ _ Ht).
  unfold getPlayer, fetchPlayerLocation, getPlayerAtLocation, tryGetTile. cbn.
  split_and!.
  - done.
  - by rewrite lookup_insert_eq.
  - by rewrite lookup_insert_eq.
  - rewrite lookup_insert_eq. cbn. by rewrite lookup_insert_eq.
  - intros Hne. rewrite lookup_insert_ne by done. by rewrite lookup_insert_eq.
  - intros id' Hne. by rewrite !lookup_insert_ne.
  - done.
  - intros c' Hc Hc'. by rewrite !lookup_insert_ne.
Qed.

(** X15: the constructor throws exactly when teams are given and are fewer
    than two; otherwise it returns a match with empty rosters and an empty
    log, not ended, with no tick pending and the given teams. *)
Theorem newGame_throws_iff mapSpec r :
  ((∃ e, newGame mapSpec r = Throws e)
   ↔ ∃ ts, Partial.teams r = Some ts ∧ (length ts < 2)%nat)
  ∧ ∀ g, newGame mapSpec r = Returns g →
      players g = ∅ ∧ deadPlayers g = ∅ ∧ log g = [] ∧ ended g = false
      ∧ timer g = None ∧ tickLoopLaunched g = false
      ∧ teams (rules g) = Partial.teams r.
Proof.
  unfold newGame, checkTeams. destruct (Partial.teams r) as [ts|] eqn:Hts.
  - destruct (decide (length ts < 2)%nat) as [Hlt|Hge].
    + split; [|done]. split; [eauto|by eexists].
    + split.
      * split; [by intros [? ?]|]. intros (ts' & [= <-] & ?). lia.
      * by intros g [= <-].
  - split.
    + split; [by intros [? ?]|]. by intros (ts' & ? & _).
    + by intros g [= <-].
Qed.

(** *** Attack: validation and the preview *)

(** X16: [canAttack] gives a preview exactly when the match has not ended,
    the attacker is living, the target tile exists and is not sparse, the
    target is within the weapon's range and the attacker can pay the shot. *)
Theorem canAttack_succeeds_iff id c g :
  (∃ e, canAttack id c g = inr e)
  ↔ ended g = false
    ∧ ∃ p tile, players g !! id = Some p
        ∧ tryGetTile (map g) c = Some tile ∧ sparse tile = false
        ∧ distanceBetweenStraightLine (map g) (coords p) c
            ≤ Weapon.range (weapon p)
        ∧ pointsPerShot p ≤ points p.
Proof.
  unfold canAttack. destruct (ended g).
  { split; [by intros [? ?]|by intros [? _]]. }
  destruct (players g !! id) as [p|].
  2:{ split; [by intros [? ?]|by intros (_ & ? & ? & ? & _)]. }
  destruct (tryGetTile (map g) c) as [tile|].
  2:{ split; [by intros [? ?]|by intros (_ & ? & ? & _ & ? & _)]. }
  destruct (sparse tile) eqn:Hsp.
  { split; [by intros [? ?]|]. intros (_ & ? & ? & _ & [= <-] & ? & _).
    congruence. }
  destruct (decide (_ > _)%Z) as [Hfar|Hnear].
  { split; [by intros [? ?]|].
    intros (_ & ? & ? & [= <-] & _ & _ & ? & _). lia. }
  destruct (decide (points p < pointsPerShot p)) as [Hpoor|Hrich].
  { split; [by intros [? ?]|].
    intros (_ & ? & ? & [= <-] & _ & _ & _ & ?). lia. }
  split; [|by eexists].
  intros _. split; [done|]. exists p, tile. split_and!; try done; lia.
Qed.

Lemma blast_accounts g p k tiles :
  let e := blast g p k tiles in
  pointsRequired e = pointsPerShot p
  ∧ totalDamage e = damageSum (affectedPlayers e)
  ∧ killedPlayers e
    = player <$> filter (λ entry, newHP entry = 0) (affectedPlayers e)
  ∧ (length (affectedPlayers e) ≤ length (affectedTiles e))%nat
  ∧ affectedTiles e `sublist_of` tiles.
Proof.
  induction tiles as [|c rest IH]; [cbn; by split_and!|].
  cbn zeta in *. rewrite blast_cons.
  destruct IH as (Hcost & Hsum & Hkilled & Hlen & Hsub).
  assert (Hpush : let e := pushTile c (blast g p k rest) in
            pointsRequired e = pointsPerShot p
            ∧ totalDamage e = damageSum (affectedPlayers e)
            ∧ killedPlayers e
              = player <$> filter (λ entry, newHP entry = 0) (affectedPlayers e)
            ∧ (length (affectedPlayers e) ≤ length (affectedTiles e))%nat
            ∧ affectedTiles e `sublist_of` c :: rest).
  { cbn. split_and!; try done; [lia|by apply sublist_skip]. }
  assert (Hskip : let e := blast g p k rest in
            pointsRequired e = pointsPerShot p
            ∧ totalDamage e = damageSum (affectedPlayers e)
            ∧ killedPlayers e
              = player <$> filter (λ entry, newHP entry = 0) (affectedPlayers e)
            ∧ (length (affectedPlayers e) ≤ length (affectedTiles e))%nat
            ∧ affectedTiles e `sublist_of` c :: rest).
  { cbn. split_and!; try done. by apply sublist_cons. }
  destruct (map g !! c); [|exact Hskip].
  destruct (getPlayerAtLocation g c) as [q|]; [|exact Hpush].
  destruct (shootingTeammate p q); [exact Hskip|].
  cbn. split_and!.
  - done.
  - unfold damageSum in Hsum. rewrite Hsum. lia.
  - destruct (decide (_ = 0)); cbn; by rewrite Hkilled.
  - lia.
  - by apply sublist_skip.
Qed.

(** X17: the preview of a shot adds up. Its cost is the attacker's
    per-shot cost, its total damage is the sum of the damage of its
    entries, its killed players are those of its entries whose new health
    is zero, it has no more affected players than affected tiles, and its
    affected tiles are tiles of the blast, in their order, that exist. *)
Theorem canAttack_preview_adds_up id c g p e :
  players g !! id = Some p →
  canAttack id c g = inr e →
  pointsRequired e = pointsPerShot p
  ∧ totalDamage e = damageSum (affectedPlayers e)
  ∧ killedPlayers e
    = player <$> filter (λ entry, newHP entry = 0) (affectedPlayers e)
  ∧ (length (affectedPlayers e) ≤ length (affectedTiles e))%nat
  ∧ affectedTiles e
      `sublist_of` getTilesInRadius (map g) c (blastRadius p c) false
  ∧ ∀ c', c' ∈ affectedTiles e → coordinateExists c' g = true.
Proof.
  intros Hp He.
  destruct (canAttack_inr _ _ _ _ He) as (_ & p' & Hp' & ->).
  assert (p' = p) as -> by congruence.
  destruct (blast_accounts g p (isKamikazeShot p c)
              (getTilesInRadius (map g) c (blastRadius p c) false))
    as (? & ? & ? & ? & ?).
  split_and!; try done.
  intros c' (_ & Hc' & _)%blast_affectedTiles.
  by apply bool_decide_eq_true_2.
Qed.

Lemma blast_entry g p k tiles entry :
  entry ∈ affectedPlayers (blast g p k tiles) →
  ∃ c' q,
    c' ∈ tiles
    ∧ getPlayerAtLocation g c' = Some q
    ∧ shootingTeammate p q = false
    ∧ player entry = userId q
    ∧ oldHP entry = hp q
    ∧ 0 ≤ newHP entry
    ∧ damageTaken entry = oldHP entry - newHP entry
    ∧ hp (receiveDamage (damageTaken entry) q) = newHP entry
    ∧ (k = false → newHP entry = Z.max (hp q - Weapon.damage (weapon p)) 0).
Proof.
  intros (c' & q & Hc' & Hq & Hteam & ->)%blast_affectedPlayers.
  exists c', q. unfold shotEntry, receiveDamage. cbn.
  split_and!; try done; try lia.
  intros ->. done.
Qed.

(** X18: every entry of a preview is about a living player who stands in
    the blast and is no teammate of the attacker: it records that player's
    health, a new health that is never negative, and their difference as
    the damage; [receiveDamage] of that damage takes the player to exactly
    the new health. In a shot that is not a kamikaze the damage rule is the
    weapon's, for the attacker too when the blast covers the attacker. *)
Theorem canAttack_entries id c g p e entry :
  players g !! id = Some p →
  canAttack id c g = inr e →
  entry ∈ affectedPlayers e →
  ∃ c' q,
    c' ∈ getTilesInRadius (map g) c (blastRadius p c) false
    ∧ getPlayerAtLocation g c' = Some q
    ∧ shootingTeammate p q = false
    ∧ player entry = userId q
    ∧ oldHP entry = hp q
    ∧ 0 ≤ newHP entry
    ∧ damageTaken entry = oldHP entry - newHP entry
    ∧ hp (receiveDamage (damageTaken entry) q) = newHP entry
    ∧ (isKamikazeShot p c = false →
       newHP entry = Z.max (hp q - Weapon.damage (weapon p)) 0).
Proof.
  intros Hp He Hin.
  destruct (canAttack_inr _ _ _ _ He) as (_ & p' & Hp' & ->).
  assert (p' = p) as -> by congruence.
  by apply blast_entry.
Qed.

(** *** Attack: what a resolved shot does *)


Lemma applyShot_other_dead who attacker isK g entry k :
  rostersOk (λ _, True) g → player entry ≠ k →
  deadPlayers (applyShot who attacker isK g entry) !! k = deadPlayers g !! k.
Proof.
  intros Hg Hne. unfold applyShot.
  set (g1 := mutatePlayer _ _ g).
  assert (Hg1 : rostersOk (λ _, True) g1).
  { by apply mutatePlayer_rostersOk. }
  assert (H1 : deadPlayers g1 !! k = deadPlayers g !! k).
  { unfold g1, mutatePlayer. destruct (players g !! player entry); [done|].
    cbn. by rewrite lookup_alter_ne. }
  destruct (playerObject g1 (player entry)) as [target|] eqn:Ht; [|done].
  destruct (playerObject_rostersOk _ _ _ _ Hg1 Ht) as [Hid _].
  destruct (decide (hp target = 0)); cbn; [|done].
  rewrite lookup_insert_ne; [done|congruence].
Qed.

Lemma foldl_applyShot_other_dead who attacker isK entries g k :
  rostersOk (λ _, True) g →
  (∀ entry, entry ∈ entries → player entry ≠ k) →
  deadPlayers (foldl (applyShot who attacker isK) g entries) !! k
  = deadPlayers g !! k.
Proof.
  revert g. induction entries as [|e es IH]; intros g Hg Hall; cbn; [done|].
  rewrite IH.
  - apply applyShot_other_dead; [done|]. apply Hall. by left.
  - apply applyShot_rostersOk; [apply stable_True|done].
  - intros entry Hin. apply Hall. by right.
Qed.

(** One round of the loop on a living player. *)
Lemma applyShot_living who attacker isK g entry q :
  rostersOk (λ _, True) g →
  players g !! player entry = Some q →
  let g' := applyShot who attacker isK g entry in
  let q' := receiveDamage (damageTaken entry) q in
  if decide (hp q' = 0)
  then players g' !! player entry = None
       ∧ deadPlayers g' !! player entry = Some q'
  else players g' !! player entry = Some q'.
Proof.
  intros Hg Hq. destruct (rosterOk_lookup _ _ _ _ (proj1 Hg) Hq) as [Hid _].
  unfold applyShot, mutatePlayer, playerObject. rewrite Hq. cbn.
  rewrite lookup_insert_eq. cbn.
  destruct (decide (Z.max (hp q - damageTaken entry) 0 = 0)); cbn.
  - rewrite Hid. by rewrite lookup_delete_eq, lookup_insert_eq.
  - by rewrite lookup_insert_eq.
Qed.

Lemma foldl_applyShot_living who attacker isK entries g entry q :
  rostersOk (λ _, True) g →
  NoDup (player <$> entries) →
  entry ∈ entries →
  players g !! player entry = Some q →
  let g' := foldl (applyShot who attacker isK) g entries in
  let q' := receiveDamage (damageTaken entry) q in
  if decide (hp q' = 0)
  then players g' !! player entry = None
       ∧ deadPlayers g' !! player entry = Some q'
  else players g' !! player entry = Some q'.
Proof.
  revert g. induction entries as [|e es IH]; intros g Hg Hnd Hin Hq;
    [by apply elem_of_nil in Hin|].
  cbn in Hnd. apply NoDup_cons in Hnd as [Hfresh Hnd].
  assert (Hg1 : rostersOk (λ _, True) (applyShot who attacker isK g e)).
  { apply applyShot_rostersOk; [apply stable_True|done]. }
  cbn [foldl]. apply elem_of_cons in Hin as [->|Hin].
  - assert (Hothers : ∀ entry', entry' ∈ es → player entry' ≠ player e).
    { intros entry' Hin' Heq. apply Hfresh. rewrite <- Heq.
      apply list_elem_of_fmap. by exists entry'. }
    pose proof (applyShot_living who attacker isK g e q Hg Hq) as H1.
    cbn zeta in *.
    rewrite (foldl_applyShot_other who attacker isK es _ _ Hg1 Hothers).
    rewrite (foldl_applyShot_other_dead who attacker isK es _ _ Hg1 Hothers).
    exact H1.
  - apply IH; try done.
    rewrite applyShot_other; [done..|].
    intros Heq. apply Hfresh. rewrite Heq.
    apply list_elem_of_fmap. by exists entry.
Qed.

(** X20: a hit applies its preview. In a reachable match, when no player
    appears twice among the affected players, after [doAttack] every
    affected player has exactly the new health the preview recorded: with
    new health zero the player is off the living roster and on the
    eliminated one, otherwise still living. *)
Theorem doAttack_hit_applies_preview roll id c g g' out entry :
  reachable g →
  doAttack roll id c g = (g', inr out) →
  ShotOutcome.shotResult out = Hit →
  NoDup (player <$> affectedPlayers (ShotOutcome.effect out)) →
  entry ∈ affectedPlayers (ShotOutcome.effect out) →
  if decide (newHP entry = 0)
  then players g' !! player entry = None
       ∧ hp <$> deadPlayers g' !! player entry = Some 0
  else hp <$> players g' !! player entry = Some (newHP entry).
Proof.
  intros Hreach Hd Hhit Hnd Hin.
  pose proof (reachable_rostersOk g Hreach) as Hkeys.
  apply doAttack_inr in Hd as (p & e & He & Hp & _ & Heff & Hshot & Hd).
  cbn in *. rewrite <- Hshot, Hhit in Hd. destruct Hd as [_ ->]. subst e.
  destruct (canAttack_inr _ _ _ _ He) as (_ & p' & Hp' & Hblast).
  assert (p' = p) as -> by congruence.
  pose proof Hin as Hentry. rewrite Hblast in Hentry.
  apply blast_entry in Hentry
    as (c' & q & _ & Hq & _ & Hplayer & _ & _ & _ & Hnew & _).
  destruct (getPlayerAtLocation_Some _ _ _ Hq) as (occ & _ & Hocc).
  destruct (rosterOk_lookup _ _ _ _ (proj1 Hkeys) Hocc) as [Hqid _].
  destruct (rosterOk_lookup _ _ _ _ (proj1 Hkeys) Hp) as [Hpid _].
  destruct (Player_attack_fst roll (killedPlayers (ShotOutcome.effect out))
              (isKamikazeShot p c) p) as [v Hv].
  rewrite Hv. set (g2 := withPlayers _ _).
  assert (Hg2 : rostersOk (λ _, True) g2).
  { split; cbn; [|apply Hkeys]. apply rosterOk_insert; [apply Hkeys|done..]. }
  assert (H2 : ∃ q2, players g2 !! player entry = Some q2 ∧ hp q2 = hp q).
  { unfold g2. cbn. rewrite lookup_insert. case_decide as Hcase.
    - exists (withPoints v p). split; [done|]. cbn.
      assert (q = p) as -> by congruence. done.
    - exists q. split; [congruence|done]. }
  destruct H2 as (q2 & Hq2 & Hhp).
  pose proof (foldl_applyShot_living (getUsername id) p (isKamikazeShot p c)
                (affectedPlayers (ShotOutcome.effect out)) g2 entry q2
                Hg2 Hnd Hin Hq2) as H3.
  cbn zeta in H3.
  assert (Hhp' : hp (receiveDamage (damageTaken entry) q2) = newHP entry).
  { unfold receiveDamage in *. cbn in *. by rewrite Hhp. }
  rewrite Hhp' in H3.
  set (g3 := foldl _ g2 _) in *.
  assert (Hsame : players (if fst (checkForEndOfGame g3)
                           then cleanup (withEnded true g3) else g3)
                  = players g3
                  ∧ deadPlayers (if fst (checkForEndOfGame g3)
                                 then cleanup (withEnded true g3) else g3)
                    = deadPlayers g3).
  { by destruct (fst (checkForEndOfGame g3)). }
  destruct Hsame as [-> ->].
  destruct (decide (newHP entry = 0)) as [Hz|Hnz].
  - destruct H3 as [-> ->]. split; [done|].
    change (Some (hp (receiveDamage (damageTaken entry) q2)) = Some 0).
    by rewrite Hhp', Hz.
  - rewrite H3.
    change (Some (hp (receiveDamage (damageTaken entry) q2))
            = Some (newHP entry)).
    by rewrite Hhp'.
Qed.

(** X21: the winners a hit reports. In a reachable match (that fewer than
    2^53 players joined), when the match ends the winners are the players
    still alive; without teams there is at most one, with teams they all
    share one team. When the match goes on, no winners are reported. *)
Theorem doAttack_winners roll id c g g' out :
  reachable g →
  Z.of_nat (size (joined g)) ≤ MAX_SAFE_INTEGER →
  doAttack roll id c g = (g', inr out) →
  ShotOutcome.shotResult out = Hit →
  if ShotOutcome.ended out
  then ShotOutcome.winners out = Some (userId <$> alivePlayers g')
       ∧ (teams (rules g) = None → (length (alivePlayers g') ≤ 1)%nat)
       ∧ (is_Some (teams (rules g)) → shareSingleTeam (alivePlayers g'))
  else ShotOutcome.winners out = None.
Proof.
  intros Hreach Hbound Hd Hhit.
  destruct (reachable_teamRule g Hreach Hbound) as [_ Hg].
  pose proof (doAttack_rostersOk _ roll id c g (stable_teamRule (rules g)) Hg)
    as Hg'.
  rewrite Hd in Hg'. cbn in Hg'. destruct Hg' as [Hliving _].
  pose proof (checkForEndOfGame_iff (rules g) g' Hliving) as Hiff.
  assert (Hout : ShotOutcome.ended out = fst (checkForEndOfGame g')
                 ∧ ShotOutcome.winners out = snd (checkForEndOfGame g')).
  { unfold doAttack in Hd.
    destruct (canAttack id c g) as [|e]; [done|].
    destruct (players g !! id) as [p|]; [|done].
    destruct (Player_attack _ _ _ _) as [a1 shot].
    destruct shot; [|by injection Hd as _ <-].
    set (g3 := foldl _ _ _) in *.
    destruct (checkForEndOfGame g3) as [isEnded ws] eqn:Hcheck.
    injection Hd as <- <-.
    cbn [fst snd ShotOutcome.ended ShotOutcome.winners].
    destruct isEnded.
    - change (checkForEndOfGame (cleanup (withEnded true g3)))
        with (checkForEndOfGame g3). by rewrite Hcheck.
    - by rewrite Hcheck. }
  destruct Hout as [-> ->].
  unfold checkForEndOfGame in *.
  destruct (decide (length (alivePlayers g') = 0%nat)) as [Hz|Hnz]; cbn in *.
  - apply nil_length_inv in Hz. rewrite Hz. cbn.
    split_and!; [done|lia|]. intros _. exists "". by intros p ?%elem_of_nil.
  - destruct (_ || _) eqn:Hor; cbn in *; [|done].
    split; [done|].
    assert (Hne : alivePlayers g' ≠ []) by (intros Hnil; by rewrite Hnil in Hnz).
    pose proof (aliveTeams_single (rules g) g' Hliving Hne) as Hteams.
    apply orb_true_iff in Hor as [Hone|Hteam];
      [apply bool_decide_eq_true in Hone|apply bool_decide_eq_true in Hteam].
    + split; [lia|]. intros [ts Hts].
      destruct (alivePlayers g') as [|w [|w2 ws]] eqn:Halive; try done.
      assert (Hw : w ∈ alivePlayers g') by (rewrite Halive; by left).
      destruct (elem_of_alivePlayers _ _ Hw) as [kw Hkw].
      destruct (Hliving kw w Hkw) as [_ Hrw].
      unfold teamRule in Hrw. rewrite Hts in Hrw. destruct Hrw as [tw Htw].
      exists (Team.name tw). intros p ->%list_elem_of_singleton.
      by rewrite Htw.
    + split; [|intros _; by apply Hteams].
      intros Hnone. apply Hteams in Hteam as [n Hn].
      destruct (alivePlayers g') as [|w ws] eqn:Halive; [done|].
      assert (Hw : w ∈ alivePlayers g') by (rewrite Halive; by left).
      destruct (elem_of_alivePlayers _ _ Hw) as [kw Hkw].
      destruct (Hliving kw w Hkw) as [_ Hrw].
      unfold teamRule in Hrw. rewrite Hnone in Hrw.
      specialize (Hn w (ltac:(by left))). by rewrite Hrw in Hn.
Qed.

(** X22: a refused [doAttack] is the refusal of [canAttack], whatever the
    roll would have been, and leaves the match as it was: nobody is charged
    and nothing is logged. *)
Theorem doAttack_refusal roll id c g g' err :
  doAttack roll id c g = (g', inl err) →
  g' = g ∧ canAttack id c g = inl err.
Proof.
  unfold doAttack. destruct (canAttack id c g) as [|e] eqn:He.
  - by intros [= <- <-].
  - destruct (canAttack_inr _ _ _ _ He) as (_ & p & Hp & _). rewrite Hp.
    destruct (Player_attack _ _ _ _) as [a1 []];
      [destruct (checkForEndOfGame _)|]; done.
Qed.

(** *** Ticks *)

Lemma afterTicks_zero p : afterTicks 0 p = p.
Proof.
  destruct p. unfold afterTicks, withPoints. cbn. f_equal. lia.
Qed.

Lemma afterTicks_succ n p :
  Player_handleGameTick (afterTicks n p) = afterTicks (S n) p.
Proof.
  destruct p. unfold afterTicks, Player_handleGameTick, withPoints. cbn.
  f_equal. lia.
Qed.

(** X23: [n] runs of [handleGameTick] pay every living player [n] times the
    player's per-tick income and nobody else: the eliminated roster, the
    map, the rule set and the ended flag are as before; every run logs one
    entry per living player and arms the next tick after
    MILLISECONDS_PER_TICK. *)
Theorem ticks_pay_the_living n g :
  let g' := Nat.iter n handleGameTick g in
  players g' = afterTicks n <$> players g
  ∧ deadPlayers g' = deadPlayers g
  ∧ map g' = map g ∧ rules g' = rules g ∧ ended g' = ended g
  ∧ length (log g') = (length (log g) + n * size (players g))%nat
  ∧ ((0 < n)%nat → timer g' = Some MILLISECONDS_PER_TICK).
Proof.
  induction n as [|n IH]; cbn zeta in *.
  - cbn. split_and!; try done; try lia.
    rewrite <- (map_fmap_id (players g)) at 1.
    apply map_fmap_ext. intros k p _. by rewrite afterTicks_zero.
  - destruct IH as (Hps & Hds & Hmap & Hrules & Hended & Hlog & _).
    change (Nat.iter (S n) handleGameTick g)
      with (handleGameTick (Nat.iter n handleGameTick g)).
    remember (Nat.iter n handleGameTick g) as g1 eqn:Hg1. clear Hg1.
    unfold handleGameTick. cbn. split_and!; try done.
    + rewrite Hps, <- map_fmap_compose. apply map_fmap_ext.
      intros k p _. cbn. apply afterTicks_succ.
    + rewrite length_app, length_fmap. unfold livingList.
      rewrite length_fmap, length_map_to_list, Hps, map_size_fmap, Hlog. lia.
Qed.

(** *** Restoring a stored match *)

(** X24: a stored row with health zero that [join] admits is restored as
    eliminated: off the living roster, on the eliminated one with health
    zero, and from then on refused by [join]; nobody else's entry on either
    roster changes. *)
Theorem restorePlayer_eliminated rnd perkOf g row :
  ended g = false →
  players g !! user_id row = None → deadPlayers g !! user_id row = None →
  is_Some (squareForJoin (rnd (user_id row))
             (Some (stored_x row, stored_y row)) g) →
  stored_hp row = 0 →
  let g' := restorePlayer rnd perkOf g row in
  getPlayer (user_id row) g' = None
  ∧ isDead (user_id row) g' = true
  ∧ hp <$> getPlayerOrDead (user_id row) g' = Some 0
  ∧ (∀ id', id' ≠ user_id row → getPlayerOrDead id' g' = getPlayerOrDead id' g)
  ∧ ∀ rnd' loadedPerk hp0 points0 coords0 storedTeam,
      join rnd' loadedPerk (user_id row) hp0 points0 coords0 storedTeam g'
      = (g', Returns (inl "Cannot perform action, you are dead.")).
Proof.
  intros He Hl Hd [sq Hsq] Hhp. cbn zeta.
  unfold restorePlayer.
  destruct (join_cases (rnd (user_id row)) (perkOf (user_id row))
              (user_id row) (Some (stored_hp row)) (Some (stored_points row))
              (Some (stored_x row, stored_y row)) (stored_team row) g)
    as [[_ Hno]|(pl & Hres & _ & _ & _ & Hid & _ & _ & Hps & Hds & _ & Hend
                 & _)].
  { exfalso. revert Hno. unfold join. rewrite He.
    destruct (decide (is_Some (players g !! user_id row))) as [[? ?]|_];
      [congruence|].
    destruct (decide (is_Some (deadPlayers g !! user_id row))) as [[? ?]|_];
      [congruence|].
    rewrite Hsq.
    destruct (teamForJoin_returns (stored_team row) g) as [tm ->].
    cbn. intros Hno. by eapply Hno. }
  pose proof (join_player (rnd (user_id row)) (perkOf (user_id row))
                (user_id row) (Some (stored_hp row)) (Some (stored_points row))
                (Some (stored_x row, stored_y row)) (stored_team row) g) as Hpl.
  destruct (join _ _ _ _ _ _ _ g) as [g1 res]. cbn in *. subst res.
  destruct (Hpl g1 pl eq_refl) as (Hhp0 & _).
  rewrite decide_True by done.
  unfold getPlayer, isDead, getPlayerOrDead, killPlayer. cbn.
  rewrite Hid, Hps, Hds.
  split_and!.
  - by rewrite lookup_delete_eq.
  - apply bool_decide_eq_true_2. rewrite lookup_insert_eq. eauto.
  - rewrite lookup_delete_eq, lookup_insert_eq. cbn. congruence.
  - intros id' Hne. rewrite lookup_delete_ne by done.
    rewrite !lookup_insert_ne by done. done.
  - intros. unfold join. cbn. rewrite Hend.
    rewrite decide_False.
    2:{ rewrite lookup_delete_eq. by intros [? ?]. }
    rewrite decide_True; [done|]. rewrite lookup_insert_eq. eauto.
Qed.

(** *** The range queries *)

(** X25: in a reachable match [getPlayersBetween] returns exactly the
    players that [getPlayerAtLocation] finds on the tiles of the range, and
    so does [getPlayersInRadius] on its square; each of them is living, is
    stored under the player's own identifier, and is not eliminated, also
    where a tile still names an eliminated occupant. *)
Theorem getPlayersBetween_living `{!RangeHelpers} first last g p :
  reachable g →
  (p ∈ getPlayersBetween first last g
   ↔ ∃ c, c ∈ getTilesBetween (map g) first last false
          ∧ getPlayerAtLocation g c = Some p)
  ∧ (p ∈ getPlayersBetween first last g
     ∨ (∃ c r, p ∈ getPlayersInRadius c r g) →
     getPlayer (userId p) g = Some p ∧ isDead (userId p) g = false).
Proof.
  intros Hreach.
  assert (Hliving : ∀ a b, p ∈ getPlayersBetween a b g →
            getPlayer (userId p) g = Some p ∧ isDead (userId p) g = false).
  { intros a b (c & _ & Hc)%list_elem_of_omap.
    change (getPlayerAtLocation g c = Some p) in Hc.
    destruct (getPlayerAtLocation_Some _ _ _ Hc) as (occ & _ & Hocc).
    destruct (rosterOk_lookup _ _ _ _ (proj1 (reachable_rostersOk g Hreach))
                Hocc) as [Hid _].
    unfold getPlayer, isDead. rewrite Hid. split; [done|].
    apply bool_decide_eq_false_2.
    rewrite (reachable_disjoint g Hreach occ) by eauto. by intros [? ?]. }
  split.
  - unfold getPlayersBetween. rewrite list_elem_of_omap. done.
  - intros [Hin|(c & r & Hin)]; [by eapply Hliving|].
    unfold getPlayersInRadius in Hin.
    destruct (pointAndRadiusToSquare c r) as [a b]. by eapply Hliving.
Qed.

End Guarantees.

(** ** The further properties on sample matches *)

Section OnSamples.
#[local] Existing Instance scenarioConstants.
#[local] Existing Instance gridCollaborators.
#[local] Existing Instance gridRanges.

Lemma lastShotMatch_reachable : reachable lastShotMatch.
Proof.
  unfold lastShotMatch. by_joins. by apply (reachable_new None Partial.empty).
Defined.

Lemma afterKillMatch_reachable : reachable afterKillMatch.
Proof.
  unfold afterKillMatch. eapply reachable_step; [|apply step_doAttack].
  exact duelMatch_reachable.
Defined.

(** X3, for "ann" who asks to join [duelMatch] a second time. *)
Lemma join_refusal_witness :
  fst (join 0 None "ann" None None None None duelMatch) = duelMatch
  ∧ "You are already in the game!"
    = (if ended duelMatch then "Game has ended"
       else if decide (is_Some (players duelMatch !! "ann"))
            then "You are already in the game!"
       else if decide (is_Some (deadPlayers duelMatch !! "ann"))
            then "Cannot perform action, you are dead."
       else "Game is full, sorry.").
Proof.
  apply (join_refusal 0 None "ann" None None None None duelMatch).
  vm_compute. reflexivity.
Defined.

(** X4, for the move that "ann" cannot pay in [brokeMatch]. *)
Lemma moveToCoord_refusal_witness :
  fst (moveToCoord "ann" (1, 0) brokeMatch) = brokeMatch.
Proof.
  apply (moveToCoord_refusal "ann" (1, 0) brokeMatch _
           "You don't have enough points required to move 1 tiles. You need 5 points, but have 3 points.").
  vm_compute. reflexivity.
Defined.

(** X5, for the match that the last shot of "ann" ended. *)
Lemma ended_match_is_frozen_witness :
  (∀ rnd loadedPerk id hp0 points0 coords0 storedTeam,
     join rnd loadedPerk id hp0 points0 coords0 storedTeam finishedMatch
       = (finishedMatch, Returns (inl "Game has ended")))
  ∧ (∀ id c, moveToCoord id c finishedMatch
             = (finishedMatch, Returns (false, "Game has ended")))
  ∧ (∀ roll id c, doAttack roll id c finishedMatch
                  = (finishedMatch, inl "Game has ended"))
  ∧ (∀ rnd perkOf row, restorePlayer rnd perkOf finishedMatch row
                       = finishedMatch).
Proof.
  apply (ended_match_is_frozen finishedMatch). vm_compute. reflexivity.
Defined.

(** X6, for "cyd" who lives on after "bob" was eliminated. *)
Lemma reachable_rosters_disjoint_witness :
  deadPlayers afterKillMatch !! "cyd" = None.
Proof.
  apply (reachable_rosters_disjoint afterKillMatch "cyd").
  - exact afterKillMatch_reachable.
  - by_evaluation.
Defined.

(** X7, for "bob" after his elimination and a move of "ann". *)
Lemma eliminated_never_rejoins_witness :
  let g' := fst (moveToCoord "ann" (1, 0) afterKillMatch) in
  is_Some (deadPlayers g' !! "bob") ∧ players g' !! "bob" = None
  ∧ ∀ rnd loadedPerk hp0 points0 coords0 storedTeam,
      ∃ err, join rnd loadedPerk "bob" hp0 points0 coords0 storedTeam g'
             = (g', Returns (inl err)).
Proof.
  apply (eliminated_never_rejoins afterKillMatch
           (fst (moveToCoord "ann" (1, 0) afterKillMatch)) "bob").
  - exact afterKillMatch_reachable.
  - by_evaluation.
  - apply rtc_once, step_moveToCoord.
Defined.

(** X8, for [duelMatch], which three players joined. *)
Lemma tick_loop_launched_at_two_witness :
  tickLoopLaunched duelMatch = true
  ↔ (2 ≤ size (players duelMatch) + size (deadPlayers duelMatch))%nat.
Proof.
  apply (tick_loop_launched_at_two duelMatch). exact duelMatch_reachable.
Defined.

(** X9, for the tick that is pending in [duelMatch]. *)
Lemma pending_tick_invariant_witness :
  60000 = MILLISECONDS_PER_TICK
  ∧ tickLoopLaunched duelMatch = true ∧ ended duelMatch = false.
Proof.
  apply (pending_tick_invariant duelMatch 60000).
  - exact duelMatch_reachable.
  - vm_compute. reflexivity.
Defined.

(** X10, for a move of "ann" in [duelMatch]. *)
Lemma event_log_only_grows_witness :
  let g' := fst (moveToCoord "ann" (1, 0) duelMatch) in
  getLogs duelMatch `prefix_of` getLogs g'
  ∧ getLogs (init g') = getLogs g' ++ [mkLog "Game was created" "System"].
Proof.
  apply (event_log_only_grows duelMatch
           (fst (moveToCoord "ann" (1, 0) duelMatch))).
  apply rtc_once, step_moveToCoord.
Defined.

(** X11, for a shot of "ann" in [duelMatch]. *)
Lemma rule_set_never_changes_witness :
  rules (fst (doAttack true "ann" (3, 0) duelMatch)) = rules duelMatch.
Proof.
  apply (rule_set_never_changes duelMatch
           (fst (doAttack true "ann" (3, 0) duelMatch))).
  apply rtc_once, step_doAttack.
Defined.

(** X12, for "dan" who joins [duelMatch] at (1,1). *)
Lemma join_then_lookup_witness :
  let g := duelMatch in
  let g' := fst (join 0 None "dan" None None (Some (1, 1)) None g) in
  let pl := samplePlayer "dan" 20 100 (1, 1) in
  getPlayer "dan" g' = Some pl ∧ hasPlayer "dan" g' = true
  ∧ isDead "dan" g' = false
  ∧ fetchPlayerLocation "dan" g' = Some (coords pl)
  ∧ (coordinateExists (coords pl) g = true →
     getPlayerAtLocation g' (coords pl) = Some pl)
  ∧ userId pl = "dan"
  ∧ hp pl = default (defaultStartingHp (rules g)) None
  ∧ points pl = default (defaultStartingPoints (rules g)) None
  ∧ (∀ c, Some (1, 1) = Some c → coordinateExists c g = true → coords pl = c)
  ∧ (∀ id', id' ≠ "dan" → getPlayer id' g' = getPlayer id' g)
  ∧ deadPlayers g' = deadPlayers g
  ∧ (∀ c, c ≠ coords pl → map g' !! c = map g !! c).
Proof.
  apply (join_then_lookup 0 None "dan" None None (Some (1, 1)) None duelMatch
           (fst (join 0 None "dan" None None (Some (1, 1)) None duelMatch))
           (samplePlayer "dan" 20 100 (1, 1))).
  vm_compute. reflexivity.
Defined.

(** X13, for "ann" who is restored to team red in a match nobody joined
    yet. *)
Lemma join_restores_stored_team_witness :
  ∃ i t, team (mkPlayer "ann" 20 100 5 10 1 7 (0, 0) (Some red)
                        (Weapon.mk "small missile" 30 1 5) None) = Some t
    ∧ [red; blue] !! i = Some t ∧ Team.name t = "red"
    ∧ ∀ j t', [red; blue] !! j = Some t' → (i < j)%nat → Team.name t' ≠ "red".
Proof.
  apply (join_restores_stored_team 0 None "ann" None None (Some (0, 0)) "red"
           emptyTeamMatch
           (fst (join 0 None "ann" None None (Some (0, 0)) (Some "red")
                      emptyTeamMatch))
           _ [red; blue] red).
  - reflexivity.
  - discriminate.
  - by_evaluation.
  - reflexivity.
  - vm_compute. reflexivity.
Defined.

(** X14, for the move of "ann" from (0,0) to (1,0) in [duelMatch]. *)
Lemma moveToCoord_success_witness :
  let g := duelMatch in
  let p := samplePlayer "ann" 20 100 (0, 0) in
  let g' := fst (moveToCoord "ann" (1, 0) g) in
  let moved := withCoords (1, 0) (withPoints (points p - 5) p) in
  snd (moveToCoord "ann" (1, 0) g) = Returns (true, "")
  ∧ getPlayer "ann" g' = Some moved
  ∧ fetchPlayerLocation "ann" g' = Some (1, 0)
  ∧ getPlayerAtLocation g' (1, 0) = Some moved
  ∧ (coords p ≠ (1, 0) → getPlayerAtLocation g' (coords p) = None)
  ∧ (∀ id', id' ≠ "ann" → getPlayer id' g' = getPlayer id' g)
  ∧ deadPlayers g' = deadPlayers g
  ∧ (∀ c', c' ≠ (1, 0) → c' ≠ coords p → map g' !! c' = map g !! c').
Proof.
  apply (moveToCoord_success "ann" (1, 0) duelMatch
           (samplePlayer "ann" 20 100 (0, 0)) (MoveCost.mk 5 1)).
  - vm_compute. reflexivity.
  - vm_compute. reflexivity.
  - vm_compute. reflexivity.
  - vm_compute. discriminate.
  - vm_compute. reflexivity.
  - vm_compute. reflexivity.
Defined.

(** X17, for the shot of "ann" at "bob" in [duelMatch]. *)
Lemma canAttack_preview_adds_up_witness :
  let e := shotEffectOf (canAttack "ann" (3, 0) duelMatch) in
  pointsRequired e = 10
  ∧ totalDamage e = damageSum (affectedPlayers e)
  ∧ killedPlayers e
    = player <$> filter (λ entry, newHP entry = 0) (affectedPlayers e)
  ∧ (length (affectedPlayers e) ≤ length (affectedTiles e))%nat
  ∧ affectedTiles e
      `sublist_of` getTilesInRadius (map duelMatch) (3, 0)
                     (blastRadius (samplePlayer "ann" 20 100 (0, 0)) (3, 0))
                     false
  ∧ ∀ c', c' ∈ affectedTiles e → coordinateExists c' duelMatch = true.
Proof.
  apply (canAttack_preview_adds_up "ann" (3, 0) duelMatch
           (samplePlayer "ann" 20 100 (0, 0))).
  - vm_compute. reflexivity.
  - vm_compute. reflexivity.
Defined.

(** X18, for the entry of "bob" in the preview of that shot. *)
Lemma canAttack_entries_witness :
  let ann := samplePlayer "ann" 20 100 (0, 0) in
  let entry := mkPlayerShotEffect "bob" 30 0 30 in
  ∃ c' q,
    c' ∈ getTilesInRadius (map duelMatch) (3, 0) (blastRadius ann (3, 0)) false
    ∧ getPlayerAtLocation duelMatch c' = Some q
    ∧ shootingTeammate ann q = false
    ∧ player entry = userId q
    ∧ oldHP entry = hp q
    ∧ 0 ≤ newHP entry
    ∧ damageTaken entry = oldHP entry - newHP entry
    ∧ hp (receiveDamage (damageTaken entry) q) = newHP entry
    ∧ (isKamikazeShot ann (3, 0) = false →
       newHP entry = Z.max (hp q - Weapon.damage (weapon ann)) 0).
Proof.
  apply (canAttack_entries "ann" (3, 0) duelMatch
           (samplePlayer "ann" 20 100 (0, 0))
           (shotEffectOf (canAttack "ann" (3, 0) duelMatch))
           (mkPlayerShotEffect "bob" 30 0 30)).
  - vm_compute. reflexivity.
  - vm_compute. reflexivity.
  - vm_compute. constructor.
Defined.


(** X20, for the same shot when it hits: "bob" is eliminated. *)
Lemma doAttack_hit_applies_preview_witness :
  let g' := fst (doAttack true "ann" (3, 0) duelMatch) in
  let entry := mkPlayerShotEffect "bob" 30 0 30 in
  if decide (newHP entry = 0)
  then players g' !! player entry = None
       ∧ hp <$> deadPlayers g' !! player entry = Some 0
  else hp <$> players g' !! player entry = Some (newHP entry).
Proof.
  apply (doAttack_hit_applies_preview true "ann" (3, 0) duelMatch
           (fst (doAttack true "ann" (3, 0) duelMatch))
           (outcomeOf (snd (doAttack true "ann" (3, 0) duelMatch)))
           (mkPlayerShotEffect "bob" 30 0 30)).
  - exact duelMatch_reachable.
  - vm_compute. reflexivity.
  - vm_compute. reflexivity.
  - by_evaluation.
  - vm_compute. constructor.
Defined.

(** X21, for the shot that ends [lastShotMatch]: "ann" wins. *)
Lemma doAttack_winners_witness :
  let g' := fst (doAttack true "ann" (3, 0) lastShotMatch) in
  let out := outcomeOf (snd (doAttack true "ann" (3, 0) lastShotMatch)) in
  if ShotOutcome.ended out
  then ShotOutcome.winners out = Some (userId <$> alivePlayers g')
       ∧ (teams (rules lastShotMatch) = None
          → (length (alivePlayers g') ≤ 1)%nat)
       ∧ (is_Some (teams (rules lastShotMatch))
          → shareSingleTeam (alivePlayers g'))
  else ShotOutcome.winners out = None.
Proof.
  apply (doAttack_winners true "ann" (3, 0) lastShotMatch).
  - exact lastShotMatch_reachable.
  - by_evaluation.
  - vm_compute. reflexivity.
  - vm_compute. reflexivity.
Defined.

(** X22, for "bob" who tries to shoot after his elimination. *)
Lemma doAttack_refusal_witness :
  fst (doAttack true "bob" (0, 0) afterKillMatch) = afterKillMatch
  ∧ canAttack "bob" (0, 0) afterKillMatch = inl "Player is not in the game".
Proof.
  apply (doAttack_refusal true "bob" (0, 0) afterKillMatch).
  vm_compute. reflexivity.
Defined.

(** X24, for the stored row of "dan" restored into [duelMatch]. *)
Lemma restorePlayer_eliminated_witness :
  let g' := restorePlayer (λ _, 0%nat) (λ _, None) duelMatch danRow in
  getPlayer "dan" g' = None
  ∧ isDead "dan" g' = true
  ∧ hp <$> getPlayerOrDead "dan" g' = Some 0
  ∧ (∀ id', id' ≠ "dan" →
       getPlayerOrDead id' g' = getPlayerOrDead id' duelMatch)
  ∧ ∀ rnd' loadedPerk hp0 points0 coords0 storedTeam,
      join rnd' loadedPerk "dan" hp0 points0 coords0 storedTeam g'
      = (g', Returns (inl "Cannot perform action, you are dead.")).
Proof.
  apply (restorePlayer_eliminated (λ _, 0%nat) (λ _, None) duelMatch danRow).
  - vm_compute. reflexivity.
  - vm_compute. reflexivity.
  - vm_compute. reflexivity.
  - by_evaluation.
  - reflexivity.
Defined.

(** X25, for "ann" on the bottom row of [duelMatch]. *)
Lemma getPlayersBetween_living_witness :
  let ann := samplePlayer "ann" 20 100 (0, 0) in
  (ann ∈ getPlayersBetween (0, 0) (3, 0) duelMatch
   ↔ ∃ c, c ∈ getTilesBetween (map duelMatch) (0, 0) (3, 0) false
          ∧ getPlayerAtLocation duelMatch c = Some ann)
  ∧ (ann ∈ getPlayersBetween (0, 0) (3, 0) duelMatch
     ∨ (∃ c r, ann ∈ getPlayersInRadius c r duelMatch) →
     getPlayer (userId ann) duelMatch = Some ann
     ∧ isDead (userId ann) duelMatch = false).
Proof.
  apply (getPlayersBetween_living (0, 0) (3, 0) duelMatch
           (samplePlayer "ann" 20 100 (0, 0))).
  exact duelMatch_reachable.
Defined.

End OnSamples.
